(** * LyricFlow Creator: the frame-synthesis and recording engine

    A shallow embedding of the TypeScript sources ([src/index.tsx], with the
    older copies [src/App.tsx] and the renderer module) and the properties
    the design document states about them.

    - JavaScript numbers are IEEE 754 binary64 values: Rocq's primitive
      [float], whose operations the kernel evaluates and whose meaning the
      Standard Library specifies through [Prim2SF] and [SpecFloat].
    - JavaScript strings are sequences of UTF-16 code units: [list N].
    - Array indices and loop counters are integers: [Z] and [nat].
    - React state, refs and the browser objects the recorder touches are
      fields of one record that every handler threads explicitly; a
      frame of the render loop runs with what its callback closed over.
    - The 2D context of the canvas is a record of the attributes the
      renderer assigns, the states it saves and the drawing calls it
      makes, each call with the attributes that bear on it. *)

From Stdlib Require Import ZArith NArith Lia List Bool String Ascii.
From Stdlib Require Import Sorted Permutation.
From Stdlib Require Import Uint63 Floats.
Import ListNotations.

Set Warnings "-inexact-float".

(* ================================================================== *)
(** * Part I: the model *)
(* ================================================================== *)

(** ** JavaScript numbers *)

Module Js.

Definition number := float.
Bind Scope float_scope with number.

(** An integer literal or an integer-valued result such as [parseInt] of a
    few digits, as a number (exact below 2^53). *)
Definition of_Z (z : Z) : number :=
  if (z <? 0)%Z then (- of_uint63 (Uint63.of_Z (- z)))%float
  else of_uint63 (Uint63.of_Z z).

(** [a >= b] and [a > b]; like [<] and [<=] they are false on NaN. *)
Definition geb (a b : number) : bool := (b <=? a)%float.
Definition gtb (a b : number) : bool := (b <? a)%float.

(** [Math.abs] *)
Definition Math_abs (x : number) : number := abs x.

(** [Math.min] and [Math.max] of two arguments: NaN if either is NaN, and
    -0 is below +0. *)
Definition Math_min (a b : number) : number :=
  if is_nan a || is_nan b then nan
  else if (a <? b)%float then a
  else if (b <? a)%float then b
  else if get_sign a then a else b.

Definition Math_max (a b : number) : number :=
  if is_nan a || is_nan b then nan
  else if (a <? b)%float then b
  else if (b <? a)%float then a
  else if get_sign a then b else a.

(** [Math.round]: the nearest integer, ties towards +infinity; the sign of
    a zero result is the sign of the argument; NaN, the infinities and the
    zeros are returned unchanged. The value of a finite number is
    [(-1)^s * m * 2^e]; for [e < 0] the result is
    [floor ((2M + 2^k) / 2^(k+1))] with [k = -e] and [M] the signed
    mantissa. *)
Definition Math_round (x : number) : number :=
  match Prim2SF x with
  | S754_finite s m e =>
      if (0 <=? e)%Z then x
      else
        let k := (- e)%Z in
        let M := if s then Zneg m else Zpos m in
        let n := ((2 * M + 2 ^ k) / 2 ^ (k + 1))%Z in
        if (n =? 0)%Z then (if s then neg_zero else zero) else of_Z n
  | _ => x
  end.

(** The remainder operator [%] on numbers: the sign of the dividend,
    magnitude [|n| mod |d|], computed exactly. *)
Definition rem (n d : number) : number :=
  match Prim2SF n, Prim2SF d with
  | S754_nan, _ | _, S754_nan => nan
  | S754_infinity _, _ => nan
  | _, S754_zero _ => nan
  | _, S754_infinity _ => n
  | S754_zero _, _ => n
  | S754_finite sn mn en, S754_finite _ md ed =>
      let e := Z.min en ed in
      let a := (Zpos mn * 2 ^ (en - e))%Z in
      let b := (Zpos md * 2 ^ (ed - e))%Z in
      let r := (a mod b)%Z in
      if (r =? 0)%Z then (if sn then neg_zero else zero)
      else SF2Prim (binary_normalize prec emax (if sn then (- r)%Z else r) e false)
  end.

(** *** Strings: sequences of UTF-16 code units *)

Definition char := N.
Bind Scope N_scope with char.
Definition jsstring := list char.

(** A string literal of the source (ASCII only). *)
Definition lit (s : string) : jsstring :=
  map N_of_ascii (list_ascii_of_string s).

(** Truthiness of a string: [if (text)] holds for non-empty strings. *)
Definition truthy (s : jsstring) : bool :=
  match s with [] => false | _ :: _ => true end.

(** [s.split(sep)] for a one-character separator: never empty. *)
Fixpoint split (sep : char) (s : jsstring) : list jsstring :=
  match s with
  | [] => [[]]
  | c :: s' =>
      if (c =? sep)%N then [] :: split sep s'
      else match split sep s' with
           | [] => [[c]]
           | w :: ws => (c :: w) :: ws
           end
  end.

(** [l.join(sep)] *)
Fixpoint join (sep : jsstring) (l : list jsstring) : jsstring :=
  match l with
  | [] => []
  | w :: ws =>
      match ws with
      | [] => w
      | _ :: _ => w ++ sep ++ join sep ws
      end
  end.

(** WhiteSpace and LineTerminator code units, as [trim] strips them. *)
Definition is_white_space (c : char) : bool :=
  existsb (N.eqb c)
    [9; 10; 11; 12; 13; 32; 160; 5760; 8232; 8233; 8239; 8287; 12288; 65279]%N
  || ((8192 <=? c)%N && (c <=? 8202)%N).

Fixpoint trimStart (s : jsstring) : jsstring :=
  match s with
  | [] => []
  | c :: s' => if is_white_space c then trimStart s' else s
  end.

Definition trimEnd (s : jsstring) : jsstring := rev (trimStart (rev s)).

Definition trim (s : jsstring) : jsstring := trimEnd (trimStart s).

(** [\d] *)
Definition is_digit (c : char) : bool := (48 <=? c)%N && (c <=? 57)%N.

(** [[a-f\d]] under the [i] flag *)
Definition is_hex_digit (c : char) : bool :=
  is_digit c || ((97 <=? c)%N && (c <=? 102)%N) || ((65 <=? c)%N && (c <=? 70)%N).

Definition hex_digit_val (c : char) : Z :=
  if is_digit c then Z.of_N (c - 48)
  else if (97 <=? c)%N then Z.of_N (c - 87)
  else Z.of_N (c - 55).

(** [parseInt(s, 10)] and [parseInt(s, 16)] on the strings the regular
    expressions of the source hand them: digits of the radix only. *)
Definition parseInt10 (s : jsstring) : Z :=
  fold_left (fun acc c => (acc * 10 + Z.of_N (c - 48))%Z) s 0%Z.

Definition parseInt16 (s : jsstring) : Z :=
  fold_left (fun acc c => (acc * 16 + hex_digit_val c)%Z) s 0%Z.

End Js.

(** ** Binary64 numbers under the Standard Library's specification

    The vocabulary of the facts about [Prim2SF] that the properties of
    the parser and of the timeline rest on. *)

Module Binary64.
Import Js.
Local Open Scope Z_scope.

Definition emin : Z := SpecFloat.emin prec emax.

(** A rounded result that is neither zero nor NaN and has sign [s]. *)
Inductive signed_nonzero (s : bool) : spec_float -> Prop :=
| snz_finite m e : signed_nonzero s (S754_finite s m e)
| snz_infinity : signed_nonzero s (S754_infinity s).

Definition canonical (m : positive) (e : Z) : Prop :=
  canonical_mantissa prec emax m e = true.

(** The integer mantissa of a finite number at the common exponent, as
    [SFadd] and [SFsub] align it. *)
Definition aligned (s : bool) (m : positive) (e ez : Z) : Z :=
  cond_Zopp s (Zpos (fst (shl_align m e ez))).

Definition finite_sf (x : spec_float) : bool :=
  match x with S754_zero _ | S754_finite _ _ _ => true | _ => false end.

Definition digits (m : Z) : Z := Z.log2 m + 1.

(** Non-negative, finite and below [2^k]. *)
Definition small_sf (k : Z) (x : spec_float) : bool :=
  match x with
  | S754_zero false => true
  | S754_finite false m e => Zpos (digits2_pos m) + e <=? k
  | _ => false
  end.

Definition nonneg_sf (x : spec_float) : bool :=
  match x with
  | S754_zero false | S754_finite false _ _ => true
  | _ => false
  end.

(** Neither NaN nor an infinity. *)
Definition finite (x : number) : Prop := finite_sf (Prim2SF x) = true.

(** Non-negative and below [2^13]. *)
Definition small (x : number) : bool := small_sf 13 (Prim2SF x).

End Binary64.

(** ** The lyric timeline ([parseLrc], [src/index.tsx] lines 41-72) *)

Module Lrc.
Import Js Binary64.

Record LyricLine := { time : number; text : jsstring }.

(** The groups of [timeReg]: minutes, seconds and the fractional part. *)
Record TimeMatch := { mm : jsstring; ss : jsstring; frac : jsstring }.

(** [timeReg = /\[(\d{2}):(\d{2})[.:](\d{2,3})\]/] tried at the start of
    [s]: the groups and the text after the tag. The greedy [\d{2,3}] takes
    three digits when a [']'] follows them and two otherwise. *)
Definition timeReg_at (s : jsstring) : option (TimeMatch * jsstring) :=
  match s with
  | lb :: m1 :: m2 :: c1 :: s1 :: s2 :: sep :: f1 :: f2 :: r =>
      if (lb =? 91)%N && is_digit m1 && is_digit m2 && (c1 =? 58)%N
         && is_digit s1 && is_digit s2 && ((sep =? 46)%N || (sep =? 58)%N)
         && is_digit f1 && is_digit f2
      then
        match r with
        | [] => None
        | f3 :: r' =>
            if is_digit f3 then
              match r' with
              | rb :: r'' =>
                  if (rb =? 93)%N
                  then Some ({| mm := [m1; m2]; ss := [s1; s2]; frac := [f1; f2; f3] |}, r'')
                  else None
              | [] => None
              end
            else if (f3 =? 93)%N
            then Some ({| mm := [m1; m2]; ss := [s1; s2]; frac := [f1; f2] |}, r')
            else None
        end
      else None
  | _ => None
  end.

(** [timeReg.exec(line)]: the leftmost match, with the text before it. *)
Fixpoint timeReg_exec (line : jsstring) : option (jsstring * TimeMatch * jsstring) :=
  match timeReg_at line with
  | Some (g, after) => Some ([], g, after)
  | None =>
      match line with
      | [] => None
      | c :: rest =>
          match timeReg_exec rest with
          | Some (before, g, after) => Some (c :: before, g, after)
          | None => None
          end
      end
  end.

(** [minutes * 60 + seconds + milliseconds / msDivisor] *)
Definition totalSeconds (g : TimeMatch) : number :=
  let minutes := of_Z (parseInt10 (mm g)) in
  let seconds := of_Z (parseInt10 (ss g)) in
  let milliseconds := of_Z (parseInt10 (frac g)) in
  let msDivisor := if (List.length (frac g) =? 3)%nat then 1000%float else 100%float in
  (minutes * 60 + seconds + milliseconds / msDivisor)%float.

(** One turn of the loop over the lines: [result] with the cue of [line]
    pushed, when it has one. [line.replace(timeReg, '')] removes the match
    that [exec] found. *)
Definition parse_line (result : list LyricLine) (line : jsstring) : list LyricLine :=
  match timeReg_exec line with
  | Some (before, g, after) =>
      let text := trim (before ++ after) in
      if truthy text
      then result ++ [{| time := totalSeconds g; text := text |}]
      else result
  | None => result
  end.

(** [Array.prototype.sort(compareFn)]: a stable sort; an element stays in
    front of the ones behind it unless [compareFn] is positive. *)
Fixpoint sort_insert {A} (compareFn : A -> A -> number) (x : A) (l : list A) : list A :=
  match l with
  | [] => [x]
  | y :: l' =>
      if gtb (compareFn x y) 0%float then y :: sort_insert compareFn x l'
      else x :: l
  end.

Fixpoint Array_sort {A} (compareFn : A -> A -> number) (l : list A) : list A :=
  match l with
  | [] => []
  | x :: l' => sort_insert compareFn x (Array_sort compareFn l')
  end.

(** The comparator [(a, b) => a.time - b.time]. *)
Definition by_time (a b : LyricLine) : number := (time a - time b)%float.

Definition parseLrc (lrcContent : jsstring) : list LyricLine :=
  let lines := split 10%N lrcContent in
  let result := fold_left parse_line lines [] in
  Array_sort by_time result.

(** *** The vocabulary of the properties of the parser *)

(** The order of a timeline: non-decreasing times. *)
Definition le_time (a b : LyricLine) : Prop := (time a <=? time b)%float = true.

Definition time_sorted (lyrics : list LyricLine) : Prop := StronglySorted le_time lyrics.

(** The cue of one line, if it has one. *)
Definition line_cues (line : jsstring) : list LyricLine := parse_line [] line.

(** A line that begins with a tag of two or three fractional digits. *)
Definition tagged (m1 m2 s1 s2 sep : char) (f rest : jsstring) : jsstring :=
  [91; m1; m2; 58; s1; s2; sep]%N ++ f ++ [93%N] ++ rest.

(** The time such a tag stands for. *)
Definition seconds_of (m1 m2 s1 s2 : char) (f : jsstring) : number :=
  (of_Z (parseInt10 [m1; m2]) * 60 + of_Z (parseInt10 [s1; s2])
   + of_Z (parseInt10 f) / (if (List.length f =? 3)%nat then 1000 else 100))%float.

(** The shape of the groups of a match. *)
Definition digit_groups (g : TimeMatch) : Prop :=
  exists m1 m2 s1 s2,
    mm g = [m1; m2] /\ ss g = [s1; s2] /\
    is_digit m1 = true /\ is_digit m2 = true /\
    is_digit s1 = true /\ is_digit s2 = true /\
    forallb is_digit (frac g) = true /\
    (List.length (frac g) = 2%nat \/ List.length (frac g) = 3%nat).

Definition finite_time (c : LyricLine) : Prop := finite (time c).

(** [p] holds of the [n] integers from [z] on. *)
Fixpoint all_from (n : nat) (z : Z) (p : Z -> bool) : bool :=
  match n with
  | O => true
  | S k => p z && all_from k (z + 1) p
  end.

(** The two summands of [totalSeconds]: [minutes * 60 + seconds] and
    [milliseconds / msDivisor]. *)
Definition whole (m s : Z) : number := (of_Z m * 60 + of_Z s)%float.

Definition part (three : bool) (f : Z) : number :=
  (of_Z f / (if three then 1000 else 100))%float.

(** Every [whole m s] with [s] below 100 is small. *)
Definition whole_row (m : Z) : bool := all_from 100 0 (fun s => small (whole m s)).

(** An input of the examples: tags out of order, a line without a tag
    and a line with a blank text. *)
Definition unsorted_lrc : jsstring :=
  lit "[00:05.00]b" ++ [10%N] ++ lit "no tag" ++ [10%N] ++ lit "[00:01.50]a"
  ++ [10%N] ++ lit "[00:03.00]  ".

End Lrc.

(** ** The scheduler tick ([animate], [src/index.tsx] lines 575-597 and
    [src/App.tsx] lines 108-134) *)

Module Timeline.
Import Js Lrc.

(** The scan for the active cue: [i] is the loop counter, [activeIndex]
    the variable the loop assigns; [break] leaves with its last value. *)
Fixpoint activeIndex_loop (time : number) (lyrics : list LyricLine)
  (i : Z) (activeIndex : Z) : Z :=
  match lyrics with
  | [] => activeIndex
  | l :: rest =>
      if geb time (Lrc.time l) then activeIndex_loop time rest (i + 1) i
      else activeIndex
  end.

Definition activeIndex (time : number) (lyrics : list LyricLine) : Z :=
  activeIndex_loop time lyrics 0 0.

(** The update of [smoothIndexRef.current]. *)
Definition scroll_step (activeIndex : Z) (smoothIndex : number) : number :=
  let diff := (of_Z activeIndex - smoothIndex)%float in
  let absDiff := Math_abs diff in
  if gtb absDiff 10%float then of_Z activeIndex
  else if (absDiff <? 0.001)%float then of_Z activeIndex
  else (smoothIndex + diff * 0.1)%float.

(** [n] ticks with a constant target. *)
Fixpoint scroll_ticks (n : nat) (activeIndex : Z) (smoothIndex : number) : number :=
  match n with
  | O => smoothIndex
  | S k => scroll_ticks k activeIndex (scroll_step activeIndex smoothIndex)
  end.

(** *** The vocabulary of the properties of the lookup *)

(** The number of cues the scan passes before it breaks. *)
Fixpoint passed (t : number) (lyrics : list LyricLine) : nat :=
  match lyrics with
  | [] => O
  | l :: rest => if geb t (time l) then S (passed t rest) else O
  end.

Definition two_cues : list LyricLine :=
  [{| time := 1; text := lit "a" |}; {| time := 2; text := lit "b" |}].

End Timeline.

(** ** Settings ([AppSettings], [src/types.ts]) *)

Module Types.
Import Js.

Record AppSettings := {
  primaryColor : jsstring;
  secondaryColor : jsstring;
  backgroundColor : jsstring;
  fontSize : number;
  glowIntensity : number;
  lyricsXOffset : number;
  introDuration : number;
  songTitle : jsstring;
  videoWidth : number;
  videoHeight : number;
  bokehEnabled : bool;
  bokehAutoColor : bool;
  bokehColor : jsstring;
  bokehAutoSize : bool;
  bokehScale : number
}.

End Types.

(** ** The renderer utilities ([src/index.tsx] lines 92-135, 189-257 and
    366-398) *)

Module Renderer.
Import Js Types.

Record RGB := { r : number; g : number; b : number }.

(** The optional leading [#] of both regular expressions. *)
Definition strip_hash (hex : jsstring) : jsstring :=
  match hex with
  | c :: rest => if (c =? 35)%N then rest else hex
  | [] => []
  end.

(** [hex.replace(shorthandRegex, (m, r, g, b) => r + r + g + g + b + b)]:
    the anchored expression matches the whole string or nothing. *)
Definition expand_shorthand (hex : jsstring) : jsstring :=
  match strip_hash hex with
  | [r1; g1; b1] =>
      if is_hex_digit r1 && is_hex_digit g1 && is_hex_digit b1
      then [r1; r1; g1; g1; b1; b1]
      else hex
  | _ => hex
  end.

Definition hexToRgb (hex : jsstring) : RGB :=
  let hex := expand_shorthand hex in
  match strip_hash hex with
  | [r1; r2; g1; g2; b1; b2] =>
      if forallb is_hex_digit [r1; r2; g1; g2; b1; b2]
      then {| r := of_Z (parseInt16 [r1; r2]);
              g := of_Z (parseInt16 [g1; g2]);
              b := of_Z (parseInt16 [b1; b2]) |}
      else {| r := 255; g := 255; b := 255 |}
  | _ => {| r := 255; g := 255; b := 255 |}
  end.

(** A colour handed to the canvas. The template literals of the source
    are kept as the tuples of the values they interpolate:
    [Rgb r g b] is [`rgb(${r}, ${g}, ${b})`],
    [Rgba r g b a] is [`rgba(${r}, ${g}, ${b}, ${a})`] and
    [Hsla h s l a] is [`hsla(${h}, s%, l%, ${a})`]; [Css s] is a colour
    string passed on as it is. *)
Inductive css_color :=
| Css (s : jsstring)
| Rgb (r g b : number)
| Rgba (r g b a : number)
| Hsla (h : number) (s l : Z) (a : number).

Definition interpolateColor (color1 color2 : jsstring) (factor : number) : css_color :=
  let c1 := hexToRgb color1 in
  let c2 := hexToRgb color2 in
  let f := Math_max 0 (Math_min 1 factor) in
  let r' := Math_round (r c1 + (r c2 - r c1) * f) in
  let g' := Math_round (g c1 + (g c2 - g c1) * f) in
  let b' := Math_round (b c1 + (b c2 - b c1) * f) in
  Rgb r' g' b'.

(** *** Word wrap ([getWrappedLines]); [measureText s] is
    [ctx.measureText(s).width] under the font the context holds. *)

Definition space : jsstring := lit " ".

Section WrappedLines.
Variable measureText : jsstring -> number.
Variable maxWidth : number.

(** The loop over [words[1..]]: [lines] is the array being filled,
    [currentLine] the line under construction. *)
Fixpoint wrap_loop (words : list jsstring) (lines : list jsstring)
  (currentLine : jsstring) : list jsstring :=
  match words with
  | [] => lines ++ [currentLine]
  | word :: rest =>
      let width := measureText (currentLine ++ lit " " ++ word) in
      if (width <? maxWidth)%float
      then wrap_loop rest lines (currentLine ++ lit " " ++ word)
      else wrap_loop rest (lines ++ [currentLine]) word
  end.

(** [split] never returns the empty array, so [words[0]] is a string. *)
Definition getWrappedLines (text : jsstring) : list jsstring :=
  match split 32%N text with
  | [] => []
  | first :: rest => wrap_loop rest [] first
  end.

(** The words of each line: the run of [wrap_loop] on groups of words
    instead of joined lines. *)
Fixpoint group_loop (words : list jsstring) (groups : list (list jsstring))
  (current : list jsstring) : list (list jsstring) :=
  match words with
  | [] => groups ++ [current]
  | word :: rest =>
      if (measureText (join space (current ++ [word])) <? maxWidth)%float
      then group_loop rest groups (current ++ [word])
      else group_loop rest (groups ++ [current]) [word]
  end.

(** A group is a single word or measures less than the width. *)
Definition fits (g : list jsstring) : Prop :=
  (measureText (join space g) <? maxWidth)%float = true \/ exists w, g = [w].

End WrappedLines.

(** *** The style of one line of the lyric stack ([renderFrame], step 7)

    The colour, alpha and blur the loop body computes for the cue at
    index [i]; [None] is the [continue] of a line too faint to draw. The
    scale, weight and glow of the line do not enter these. The frame of
    [src/index.tsx] carries a [lyricsOpacity] that multiplies the alpha;
    the frame of [src/unnamed/part_000] has none. *)

Record LineStyle := { fill : css_color; globalAlpha : number; blur : number }.

Definition line_style (settings : AppSettings) (lyricsOpacity : option number)
  (smoothActiveIndex : number) (i : Z) : option LineStyle :=
  let distance := (of_Z i - smoothActiveIndex)%float in
  let absDist := Math_abs distance in
  let color :=
    if (absDist <? 0.6)%float
    then interpolateColor (primaryColor settings) (secondaryColor settings)
           (absDist * 1.66)%float
    else Css (secondaryColor settings) in
  let alpha :=
    if gtb absDist 2 then Math_max 0 (1 - (absDist - 2) * 0.4) else 1%float in
  let blur := if gtb absDist 1.2 then ((absDist - 1.2) * 2)%float else 0%float in
  let alpha :=
    match lyricsOpacity with
    | Some lyricsOpacity => (alpha * lyricsOpacity)%float
    | None => alpha
    end in
  if (alpha <=? 0.01)%float then None
  else Some {| fill := color; globalAlpha := alpha; blur := blur |}.

(** *** Inputs of the examples *)

Definition black_on_white : AppSettings :=
  {| primaryColor := lit "#000000"; secondaryColor := lit "#ffffff";
     backgroundColor := lit "#0f172a"; fontSize := 42; glowIntensity := 20;
     lyricsXOffset := 45; introDuration := 3; songTitle := [];
     videoWidth := 1920; videoHeight := 1080;
     bokehEnabled := false; bokehAutoColor := true; bokehColor := lit "#38bdf8";
     bokehAutoSize := true; bokehScale := 50 |}.

(** The colour of a line as the design document states it: below the
    distance 0.6 the blend of the primary colour towards the secondary
    one by the normalised factor [|distance| * 1.667], which is 1 where
    the blend ends, and the secondary colour from there on. *)
Definition normalized_fill (settings : AppSettings) (smoothActiveIndex : number) (i : Z)
  : css_color :=
  let absDist := Math_abs (of_Z i - smoothActiveIndex)%float in
  if (absDist <? 0.6)%float
  then interpolateColor (primaryColor settings) (secondaryColor settings)
         (absDist * 1.667)%float
  else Css (secondaryColor settings).

(** The same with the factor that the comment of the source states,
    [// Normalize 0.6 to 1.0]. *)
Definition normalized_fill_by_division (settings : AppSettings)
  (smoothActiveIndex : number) (i : Z) : css_color :=
  let absDist := Math_abs (of_Z i - smoothActiveIndex)%float in
  if (absDist <? 0.6)%float
  then interpolateColor (primaryColor settings) (secondaryColor settings)
         (absDist / 0.6)%float
  else Css (secondaryColor settings).

(** The colour with which the line at index [i] is drawn, if it is
    drawn. *)
Definition drawn_fill (settings : AppSettings) (lyricsOpacity : option number)
  (smoothActiveIndex : number) (i : Z) : option css_color :=
  option_map fill (line_style settings lyricsOpacity smoothActiveIndex i).

(** The last number below 0.6. *)
Definition below_0_6 : number := 0.59999999999999987%float.

(** A measure for the examples: ten units a character. *)
Definition ten_per_char (s : jsstring) : number :=
  of_Z (10 * Z.of_nat (List.length s)).

End Renderer.

(** ** The bokeh overlay ([drawBokeh], [src/index.tsx] lines 189-257) *)

Module Bokeh.
Import Js Types Renderer.

(** *** The 2D context, as far as [drawBokeh] drives it *)

Record Gradient := {
  x0 : number; y0 : number; r0 : number;
  x1 : number; y1 : number; r1 : number;
  stops : list (number * css_color)
}.

Inductive FillStyle :=
| FillColor (c : css_color)
| FillGradient (gr : Gradient).

(** The drawing state that [save] pushes and [restore] pops. *)
Record DrawState := {
  globalCompositeOperation : jsstring;
  fillStyle : FillStyle;
  globalAlpha : number;
  filter : jsstring
}.

Inductive PathCmd :=
| Arc (x y radius startAngle endAngle : number).

(** One [fill()]: the current path painted under the current state. *)
Record Paint := { paint_state : DrawState; paint_path : list PathCmd }.

Record Canvas := {
  state : DrawState;
  stack : list DrawState;
  path : list PathCmd;
  painted : list Paint
}.

Definition save (c : Canvas) : Canvas :=
  {| state := state c; stack := state c :: stack c;
     path := path c; painted := painted c |}.

(** [restore] with an empty stack does nothing. *)
Definition restore (c : Canvas) : Canvas :=
  match stack c with
  | [] => c
  | s :: rest =>
      {| state := s; stack := rest; path := path c; painted := painted c |}
  end.

Definition set_globalCompositeOperation (op : jsstring) (c : Canvas) : Canvas :=
  {| state := {| globalCompositeOperation := op;
                 fillStyle := fillStyle (state c);
                 globalAlpha := globalAlpha (state c);
                 filter := filter (state c) |};
     stack := stack c; path := path c; painted := painted c |}.

Definition set_fillStyle (f : FillStyle) (c : Canvas) : Canvas :=
  {| state := {| globalCompositeOperation := globalCompositeOperation (state c);
                 fillStyle := f;
                 globalAlpha := globalAlpha (state c);
                 filter := filter (state c) |};
     stack := stack c; path := path c; painted := painted c |}.

Definition beginPath (c : Canvas) : Canvas :=
  {| state := state c; stack := stack c; path := []; painted := painted c |}.

Definition arc (x y radius startAngle endAngle : number) (c : Canvas) : Canvas :=
  {| state := state c; stack := stack c;
     path := path c ++ [Arc x y radius startAngle endAngle];
     painted := painted c |}.

Definition fill (c : Canvas) : Canvas :=
  {| state := state c; stack := stack c; path := path c;
     painted := painted c ++ [{| paint_state := state c; paint_path := path c |}] |}.

(** [ctx.createRadialGradient] followed by the two [addColorStop]s. *)
Definition createRadialGradient (x0 y0 r0 x1 y1 r1 : number) : Gradient :=
  {| x0 := x0; y0 := y0; r0 := r0; x1 := x1; y1 := y1; r1 := r1; stops := [] |}.

Definition addColorStop (offset : number) (color : css_color) (gr : Gradient) : Gradient :=
  {| x0 := x0 gr; y0 := y0 gr; r0 := r0 gr; x1 := x1 gr; y1 := y1 gr; r1 := r1 gr;
     stops := stops gr ++ [(offset, color)] |}.

Definition Math_PI : number := 3.141592653589793.

Definition particleCount : nat := 15.

Section DrawBokeh.

(** [Math.sin] and [Math.cos]: functions of their argument, whose values
    the language leaves to the implementation. *)
Variable Math_sin Math_cos : number -> number.

Variables (width height time : number) (settings : AppSettings).

(** The copy of [src/unnamed/part_000] assigns a placeholder colour to
    [ctx.fillStyle] when the colour is automatic, before it makes the
    gradient; the copy of [src/index.tsx] does not. *)
Variable placeholder : bool.

(** What the loop body computes for particle [i] before it draws; the
    hue is the value both uses of [(t * 50 + randomBase) % 360] have. *)
Record Particle := {
  px : number; py : number; pradius : number; palpha : number;
  phue : number; pgradient : Gradient
}.

Definition particle (i : Z) : Particle :=
  let randomBase := ((i * 1337) mod 1000)%Z in
  let speed := (0.0002 + of_Z (randomBase mod 100) * 0.00001)%float in
  let t := (time * speed + of_Z randomBase)%float in
  let side := if (i mod 2 =? 0)%Z then (-1)%float else 1%float in
  let xBase := (width / 2 + (width / 2.5) * side)%float in
  let xOffset := (Math_sin t * (width * 0.2))%float in
  let x := (xBase + xOffset)%float in
  let yBase := (height * (0.2 + (of_Z (randomBase mod 10) / 10) * 0.8))%float in
  let yOffset := (Math_cos (t * 1.3) * (height * 0.15))%float in
  let y := (yBase + yOffset)%float in
  let radius :=
    if bokehAutoSize settings
    then (150 + Math_sin (t * 2) * 80 + of_Z (randomBase mod 100))%float
    else
      let baseSize := (50 + bokehScale settings * 4)%float in
      (baseSize + Math_sin (t * 3) * 20)%float in
  let hue := rem (t * 50 + of_Z randomBase) 360 in
  let gradient := createRadialGradient x y 0 x y radius in
  let alphaBase := 0.15%float in
  let alpha := (alphaBase + Math_sin (t * 1.7) * 0.05)%float in
  let gradient :=
    if bokehAutoColor settings
    then
      addColorStop 1 (Hsla hue 80 60 0)
        (addColorStop 0 (Hsla hue 80 60 alpha) gradient)
    else
      let c := hexToRgb (bokehColor settings) in
      addColorStop 1 (Rgba (r c) (g c) (b c) 0)
        (addColorStop 0 (Rgba (r c) (g c) (b c) alpha) gradient) in
  {| px := x; py := y; pradius := radius; palpha := alpha; phue := hue;
     pgradient := gradient |}.

(** The loop body: the placeholder of the older copy, then the gradient
    becomes the fill style and the disc is filled. *)
Definition draw_particle (i : Z) (ctx : Canvas) : Canvas :=
  let p := particle i in
  let ctx :=
    if placeholder && bokehAutoColor settings
    then set_fillStyle (FillColor (Hsla (phue p) 70 60 0)) ctx
    else ctx in
  let ctx := set_fillStyle (FillGradient (pgradient p)) ctx in
  let ctx := beginPath ctx in
  let ctx := arc (px p) (py p) (pradius p) 0 (Math_PI * 2) ctx in
  fill ctx.

(** [for (let i = 0; i < particleCount; i++)]: [todo] turns are left. *)
Fixpoint bokeh_loop (todo : nat) (i : Z) (ctx : Canvas) : Canvas :=
  match todo with
  | O => ctx
  | S k => bokeh_loop k (i + 1) (draw_particle i ctx)
  end.

Definition drawBokeh (ctx : Canvas) : Canvas :=
  let ctx := save ctx in
  let ctx := set_globalCompositeOperation (lit "screen") ctx in
  let ctx := bokeh_loop particleCount 0 ctx in
  restore ctx.

(** The indices the loop visits. *)
Fixpoint indices (i : Z) (n : nat) : list Z :=
  match n with
  | O => []
  | S k => i :: indices (i + 1) k
  end.

(** The fill of particle [i]: its disc, under its gradient and the
    [screen] operation; the alpha and the filter are the ones the
    context came with. *)
Definition particle_paint (alpha : number) (filt : jsstring) (i : Z) : Paint :=
  {| paint_state :=
       {| globalCompositeOperation := lit "screen";
          fillStyle := FillGradient (pgradient (particle i));
          Bokeh.globalAlpha := alpha;
          filter := filt |};
     paint_path :=
       [Arc (px (particle i)) (py (particle i)) (pradius (particle i)) 0
          (Math_PI * 2)] |}.

(** The paints one call adds to a context. *)
Definition new_paints (ctx : Canvas) : list Paint :=
  skipn (List.length (painted ctx)) (painted (drawBokeh ctx)).

(** What of a paint the generator decides: the path, the fill style and
    the composite operation. *)
Definition spot (p : Paint) : list PathCmd * FillStyle * jsstring :=
  (paint_path p, fillStyle (paint_state p), globalCompositeOperation (paint_state p)).

End DrawBokeh.

(** *** Inputs of the examples *)

(** Two contexts that differ in what [drawBokeh] overwrites and in what
    was painted before. *)
Definition blank_canvas : Canvas :=
  {| state := {| globalCompositeOperation := lit "source-over";
                 fillStyle := FillColor (Css (lit "#000000"));
                 Bokeh.globalAlpha := 1; filter := lit "none" |};
     stack := []; path := []; painted := [] |}.

Definition used_canvas : Canvas :=
  {| state := {| globalCompositeOperation := lit "lighter";
                 fillStyle := FillColor (Css (lit "#ffffff"));
                 Bokeh.globalAlpha := 1; filter := lit "none" |};
     stack := [state blank_canvas];
     path := [Arc 1 2 3 0 6];
     painted := [{| paint_state := state blank_canvas; paint_path := [] |}] |}.

(** A stand-in for the sine and the cosine of the examples. *)
Definition flat_wave (x : number) : number := 0.

End Bokeh.

(** ** The recording session controller ([App], [src/index.tsx] lines
    469-755 and the buttons at 778-795; [src/App.tsx] lines 28-245) *)

Module Recorder.
Import Js Lrc Timeline.

Inductive RecordingPhase := idle | intro | recording.

(** A [MediaRecorder]: [Stopping] is a recorder whose [stop()] has been
    called (its [state] already reads ['inactive']) and whose [stop] event
    has not been delivered yet. *)
Inductive RecorderState := Inactive | Recording | Stopping.

Definition Chunk := N.

(** [useState] *)
Record ReactState := {
  audioUrl : option jsstring;
  lyrics : list LyricLine;
  introDuration : number;
  isPlaying : bool;
  isRecording : bool;
  recordingPhase : RecordingPhase;
  downloadUrl : option (list Chunk)
}.

(** What [animate] closes over. It is a [useCallback] on
    [[media.lyrics, settings, recordingPhase]]: a frame reads the phase,
    the intro duration and the lyrics of the render that made its
    callback, whatever the state is by the time it runs. *)
Record Animate := {
  seen_recordingPhase : RecordingPhase;
  seen_introDuration : number;
  seen_lyrics : list LyricLine
}.

(** [useRef]; a node ref is [true] once it holds its node. [requestRef]
    holds the frame that is requested, here as the callback that the
    request will run. *)
Record Refs := {
  canvasRef : bool;
  mediaRecorderRef : option nat;
  chunksRef : list Chunk;
  audioContextRef : bool;
  audioSourceNodeRef : bool;
  audioDestNodeRef : bool;
  silenceOscRef : option nat;
  smoothIndexRef : number;
  introStartTimeRef : number;
  requestRef : Animate
}.

(** The browser objects the handlers act on: the audio element, every
    recorder and oscillator created so far (a recorder or oscillator is
    named by its position), the alerts shown and the console. *)
Record Browser := {
  audioCurrentTime : number;
  audioPaused : bool;
  recorders : list RecorderState;
  oscillators : list bool;
  alerts : list jsstring;
  console : list jsstring
}.

(** What the browser answers during one call of [startRecording]. *)
Record StartEnv := {
  contextSuspended : bool;  (* actx.state === 'suspended' *)
  resumeRejects : bool;     (* await actx.resume() rejects *)
  sourceThrows : bool;      (* createMediaElementSource or connect throws *)
  captureThrows : bool;     (* captureStream or new MediaStream throws *)
  recorderThrows : bool;    (* new MediaRecorder(finalStream, options) throws *)
  startThrows : bool;       (* recorder.start() throws *)
  now : number              (* Date.now() *)
}.

(** The state: React state, refs, browser objects, and the calls of
    [startRecording] that wait at [await actx.resume()], oldest first,
    each with the answers it will get. *)
Record App := {
  react : ReactState;
  refs : Refs;
  browser : Browser;
  awaiting : list StartEnv
}.

(** The audio element is rendered, and [audioRef.current] set, exactly
    when [media.audioUrl] is. *)
Definition audioRef (st : App) : bool :=
  match audioUrl (react st) with Some url => truthy url | None => false end.

Definition with_react (f : ReactState -> ReactState) (st : App) : App :=
  {| react := f (react st); refs := refs st; browser := browser st;
     awaiting := awaiting st |}.
Definition with_refs (f : Refs -> Refs) (st : App) : App :=
  {| react := react st; refs := f (refs st); browser := browser st;
     awaiting := awaiting st |}.
Definition with_browser (f : Browser -> Browser) (st : App) : App :=
  {| react := react st; refs := refs st; browser := f (browser st);
     awaiting := awaiting st |}.
Definition set_awaiting (calls : list StartEnv) (st : App) : App :=
  {| react := react st; refs := refs st; browser := browser st;
     awaiting := calls |}.

Definition setMedia (url : option jsstring) (ly : list LyricLine) : App -> App :=
  with_react (fun s =>
    {| audioUrl := url; lyrics := ly; introDuration := introDuration s;
       isPlaying := isPlaying s; isRecording := isRecording s;
       recordingPhase := recordingPhase s; downloadUrl := downloadUrl s |}).
Definition setIsPlaying (v : bool) : App -> App :=
  with_react (fun s =>
    {| audioUrl := audioUrl s; lyrics := lyrics s; introDuration := introDuration s;
       isPlaying := v; isRecording := isRecording s;
       recordingPhase := recordingPhase s; downloadUrl := downloadUrl s |}).
Definition setIsRecording (v : bool) : App -> App :=
  with_react (fun s =>
    {| audioUrl := audioUrl s; lyrics := lyrics s; introDuration := introDuration s;
       isPlaying := isPlaying s; isRecording := v;
       recordingPhase := recordingPhase s; downloadUrl := downloadUrl s |}).
Definition setRecordingPhase (v : RecordingPhase) : App -> App :=
  with_react (fun s =>
    {| audioUrl := audioUrl s; lyrics := lyrics s; introDuration := introDuration s;
       isPlaying := isPlaying s; isRecording := isRecording s;
       recordingPhase := v; downloadUrl := downloadUrl s |}).
Definition setDownloadUrl (v : option (list Chunk)) : App -> App :=
  with_react (fun s =>
    {| audioUrl := audioUrl s; lyrics := lyrics s; introDuration := introDuration s;
       isPlaying := isPlaying s; isRecording := isRecording s;
       recordingPhase := recordingPhase s; downloadUrl := v |}).

Definition set_recorder (v : option nat) (ch : list Chunk) : App -> App :=
  with_refs (fun s =>
    {| canvasRef := canvasRef s; mediaRecorderRef := v; chunksRef := ch;
       audioContextRef := audioContextRef s; audioSourceNodeRef := audioSourceNodeRef s;
       audioDestNodeRef := audioDestNodeRef s; silenceOscRef := silenceOscRef s;
       smoothIndexRef := smoothIndexRef s; introStartTimeRef := introStartTimeRef s;
       requestRef := requestRef s |}).
Definition set_chunks (ch : list Chunk) (st : App) : App :=
  set_recorder (mediaRecorderRef (refs st)) ch st.
Definition set_audio_graph (actx src dest : bool) (osc : option nat) : App -> App :=
  with_refs (fun s =>
    {| canvasRef := canvasRef s; mediaRecorderRef := mediaRecorderRef s;
       chunksRef := chunksRef s;
       audioContextRef := actx; audioSourceNodeRef := src;
       audioDestNodeRef := dest; silenceOscRef := osc;
       smoothIndexRef := smoothIndexRef s; introStartTimeRef := introStartTimeRef s;
       requestRef := requestRef s |}).
Definition set_animation (smooth introStart : number) : App -> App :=
  with_refs (fun s =>
    {| canvasRef := canvasRef s; mediaRecorderRef := mediaRecorderRef s;
       chunksRef := chunksRef s;
       audioContextRef := audioContextRef s; audioSourceNodeRef := audioSourceNodeRef s;
       audioDestNodeRef := audioDestNodeRef s; silenceOscRef := silenceOscRef s;
       smoothIndexRef := smooth; introStartTimeRef := introStart;
       requestRef := requestRef s |}).
Definition set_request (callback : Animate) : App -> App :=
  with_refs (fun s =>
    {| canvasRef := canvasRef s; mediaRecorderRef := mediaRecorderRef s;
       chunksRef := chunksRef s;
       audioContextRef := audioContextRef s; audioSourceNodeRef := audioSourceNodeRef s;
       audioDestNodeRef := audioDestNodeRef s; silenceOscRef := silenceOscRef s;
       smoothIndexRef := smoothIndexRef s; introStartTimeRef := introStartTimeRef s;
       requestRef := callback |}).

Definition set_audio (t : number) (paused : bool) : App -> App :=
  with_browser (fun s =>
    {| audioCurrentTime := t; audioPaused := paused; recorders := recorders s;
       oscillators := oscillators s; alerts := alerts s; console := console s |}).
Definition set_devices (rs : list RecorderState) (os : list bool) : App -> App :=
  with_browser (fun s =>
    {| audioCurrentTime := audioCurrentTime s; audioPaused := audioPaused s;
       recorders := rs; oscillators := os; alerts := alerts s; console := console s |}).
Definition set_messages (al co : list jsstring) : App -> App :=
  with_browser (fun s =>
    {| audioCurrentTime := audioCurrentTime s; audioPaused := audioPaused s;
       recorders := recorders s; oscillators := oscillators s;
       alerts := al; console := co |}).

(** [l[i] = v]; nothing is written past the end. *)
Fixpoint update {A} (i : nat) (v : A) (l : list A) : list A :=
  match l, i with
  | [], _ => []
  | _ :: l', O => v :: l'
  | x :: l', S k => x :: update k v l'
  end.

(** *** Handlers: state and exceptions

    A handler is a function of the state that ends normally or with an
    exception, and in both cases leaves the effects it had. *)

Inductive Exn := Error (message : jsstring).

Definition message (e : Exn) : jsstring := let 'Error m := e in m.

Definition M (A : Type) : Type := App -> (A + Exn) * App.

Definition ret {A} (a : A) : M A := fun st => (inl a, st).

Definition bind {A B} (m : M A) (k : A -> M B) : M B :=
  fun st =>
    match m st with
    | (inl a, st') => k a st'
    | (inr e, st') => (inr e, st')
    end.

Definition throw {A} (e : Exn) : M A := fun st => (inr e, st).

(** [try { body } catch (e) { handler }] *)
Definition try_catch {A} (body : M A) (handler : Exn -> M A) : M A :=
  fun st =>
    match body st with
    | (inl a, st') => (inl a, st')
    | (inr e, st') => handler e st'
    end.

Definition get : M App := fun st => (inl st, st).

Definition modify (f : App -> App) : M unit := fun st => (inl tt, f st).

Definition when (c : bool) (m : M unit) : M unit := if c then m else ret tt.

Notation "x <- m ;; k" := (bind m (fun x => k))
  (at level 61, m at next level, right associativity).
Notation "m ;; k" := (bind m (fun _ => k))
  (at level 61, right associativity).

Definition may_throw (fails : bool) (what : jsstring) : M unit :=
  if fails then throw (Error what) else ret tt.

Definition console_log (msg : jsstring) : M unit :=
  modify (fun st =>
    set_messages (alerts (browser st)) (console (browser st) ++ [msg]) st).

Definition alert (msg : jsstring) : M unit :=
  modify (fun st =>
    set_messages (alerts (browser st) ++ [msg]) (console (browser st)) st).

Definition recorder_state (st : App) (id : nat) : RecorderState :=
  nth id (recorders (browser st)) Inactive.

Definition set_recorder_state (id : nat) (v : RecorderState) : M unit :=
  modify (fun st =>
    set_devices (update id v (recorders (browser st))) (oscillators (browser st)) st).

Definition new_MediaRecorder : M nat :=
  st <- get ;;
  modify (set_devices (recorders (browser st) ++ [Inactive]) (oscillators (browser st))) ;;
  ret (List.length (recorders (browser st))).

Definition createOscillator : M nat :=
  st <- get ;;
  modify (set_devices (recorders (browser st)) (oscillators (browser st) ++ [false])) ;;
  ret (List.length (oscillators (browser st))).

Definition set_oscillator (id : nat) (running : bool) : M unit :=
  modify (fun st =>
    set_devices (recorders (browser st)) (update id running (oscillators (browser st))) st).

(** [startRecording] of [src/index.tsx], in the pieces its [await] cuts
    it into. Step 1: the audio context. *)
Definition create_context : M unit :=
  modify (fun st =>
    set_audio_graph true (audioSourceNodeRef (refs st)) (audioDestNodeRef (refs st))
      (silenceOscRef (refs st)) st).

(** Step 2, [try { await actx.resume(); } catch (e) { console.error(...) }],
    once the promise has settled. *)
Definition resume_context (env : StartEnv) : M unit :=
  try_catch (may_throw (resumeRejects env) (lit "resume failed"))
    (fun e => console_log (lit "Could not resume audio context")).

(** Steps 3 to 5: the destination and source nodes and the silent
    oscillator. *)
Definition connect_and_silence (env : StartEnv) : M unit :=
  modify (fun st =>
    set_audio_graph (audioContextRef (refs st)) (audioSourceNodeRef (refs st)) true
      (silenceOscRef (refs st)) st) ;;
  st <- get ;;
  when (negb (audioSourceNodeRef (refs st)) && audioRef st)
    (try_catch
       (may_throw (sourceThrows env) (lit "InvalidStateError") ;;
        modify (fun st =>
          set_audio_graph (audioContextRef (refs st)) true (audioDestNodeRef (refs st))
            (silenceOscRef (refs st)) st))
       (fun err => console_log (lit "Audio node already connected or error:"))) ;;
  osc <- createOscillator ;;
  set_oscillator osc true ;;
  modify (fun st =>
    set_audio_graph (audioContextRef (refs st)) (audioSourceNodeRef (refs st))
      (audioDestNodeRef (refs st)) (Some osc) st).

(** Step 6 and the [try] block, which both builds have: the streams, the
    recorder and the start of the intro. *)
Definition capture_and_record (env : StartEnv) : M unit :=
  may_throw (captureThrows env) (lit "captureStream failed") ;;
  try_catch
    (may_throw (recorderThrows env) (lit "NotSupportedError") ;;
     recorder <- new_MediaRecorder ;;
     modify (set_recorder (Some recorder) []) ;;
     may_throw (startThrows env) (lit "InvalidStateError") ;;
     set_recorder_state recorder Recording ;;
     modify (setIsRecording true) ;;
     modify (setDownloadUrl None) ;;
     modify (set_audio 0 true) ;;
     modify (set_animation 0 (now env)) ;;
     modify (setRecordingPhase intro))
    (fun e =>
       console_log (lit "Recording error") ;;
       alert (lit "Could not start recording. " ++ message e)).

Inductive Build := IndexTsx | AppTsx.

(** What a call does once it is past the resume. *)
Definition after_resume (build : Build) (env : StartEnv) : M unit :=
  match build with
  | IndexTsx => connect_and_silence env
  | AppTsx => ret tt
  end ;;
  capture_and_record env.

Definition guard_passes (st : App) : bool := canvasRef (refs st) && audioRef st.

(** A whole call, when nothing happens between its [await] and its
    continuation. *)
Definition startRecording (build : Build) (env : StartEnv) : M unit :=
  st <- get ;;
  if negb (canvasRef (refs st)) || negb (audioRef st) then ret tt
  else
    match build with
    | IndexTsx =>
        create_context ;;
        when (contextSuspended env) (resume_context env) ;;
        after_resume IndexTsx env
    | AppTsx => after_resume AppTsx env
    end.

(** The call up to its [await], when it has one: the context is there
    and suspended, and the rest waits for the promise. *)
Definition awaits_resume (build : Build) (env : StartEnv) (st : App) : bool :=
  match build with
  | IndexTsx => guard_passes st && contextSuspended env
  | AppTsx => false
  end.

Definition startRecording_until_await (env : StartEnv) : M unit :=
  create_context ;;
  modify (fun st => set_awaiting (awaiting st ++ [env]) st).

(** The continuation of the oldest waiting call. *)
Definition startRecording_continue : M unit :=
  st <- get ;;
  match awaiting st with
  | [] => ret tt
  | env :: calls =>
      modify (set_awaiting calls) ;;
      resume_context env ;;
      after_resume IndexTsx env
  end.

Definition stopRecording : M unit :=
  st <- get ;;
  match mediaRecorderRef (refs st) with
  | Some id =>
      match recorder_state st id with
      | Recording =>
          set_recorder_state id Stopping ;;
          when (audioRef st) (modify (set_audio (audioCurrentTime (browser st)) true))
      | _ => ret tt
      end
  | None => ret tt
  end.

Definition togglePlay : M unit :=
  st <- get ;;
  if isRecording (react st) then stopRecording
  else modify (setIsPlaying (negb (isPlaying (react st)))).

(** [recorder.ondataavailable] and [recorder.onstop]; only the build of
    [src/index.tsx] has an oscillator to clean up. *)
Definition ondataavailable (data : Chunk) : M unit :=
  when (0 <? data)%N
    (modify (fun st => set_chunks (chunksRef (refs st) ++ [data]) st)).

Definition onstop (build : Build) : M unit :=
  st <- get ;;
  modify (setDownloadUrl (Some (chunksRef (refs st)))) ;;
  modify (set_chunks []) ;;
  modify (setRecordingPhase idle) ;;
  modify (setIsRecording false) ;;
  modify (setIsPlaying false) ;;
  match build with
  | IndexTsx =>
      match silenceOscRef (refs st) with
      | Some osc =>
          set_oscillator osc false ;;
          modify (fun st =>
            set_audio_graph (audioContextRef (refs st)) (audioSourceNodeRef (refs st))
              (audioDestNodeRef (refs st)) None st)
      | None => ret tt
      end
  | AppTsx => ret tt
  end.

Definition handleIntroComplete : M unit :=
  modify (setRecordingPhase recording) ;;
  st <- get ;;
  when (audioRef st)
    (modify (set_audio (audioCurrentTime (browser st)) false) ;;
     modify (setIsPlaying true)).

(** The [animate] of a render: [useCallback] keeps the phase, the
    settings and the lyrics the render had. *)
Definition useCallback_animate (s : ReactState) : Animate :=
  {| seen_recordingPhase := recordingPhase s;
     seen_introDuration := introDuration s;
     seen_lyrics := lyrics s |}.

(** One turn of the render loop, as far as it changes the state: the
    end of the intro, then the active index and the smoothed index. The
    frame it draws is not part of the state. [self] is the callback that
    runs: the phase, the intro duration and the lyrics are the ones it
    closed over, the refs and the audio element are read as they are
    now. Its last line requests [self] again, which leaves [requestRef]
    with the same callback. *)
Definition animate (self : Animate) (now : number) : M unit :=
  st <- get ;;
  if canvasRef (refs st) then
    time <-
      match seen_recordingPhase self with
      | intro =>
          let elapsed := ((now - introStartTimeRef (refs st)) / 1000)%float in
          when (gtb elapsed (seen_introDuration self)) handleIntroComplete ;;
          ret 0%float
      | _ =>
          if audioRef st then ret (audioCurrentTime (browser st)) else ret 0%float
      end ;;
    st' <- get ;;
    modify (set_animation
              (scroll_step (activeIndex time (seen_lyrics self)) (smoothIndexRef (refs st')))
              (introStartTimeRef (refs st')))
  else ret tt.

(** The effect on [[animate]] ([src/index.tsx] lines 628-633,
    [src/App.tsx] lines 163-168): its cleanup cancels the request that
    is pending and the effect requests the [animate] of the last
    render. *)
Definition request_animate : M unit :=
  modify (fun st => set_request (useCallback_animate (react st)) st).

(** *** Events

    What can happen to the mounted component, one event at a time: a
    handler runs to its end, or to its [await], before the next event is
    taken. The Record button is rendered while [isRecording] is false,
    with [disabled={!media.audioUrl || !media.lyrics.length}]; the Stop
    button is rendered while [isRecording] is true. [ResumeSettled] is
    the promise of the oldest waiting [actx.resume()] settling. [Tick] is
    the browser running the frame that is requested. The handlers and
    the effect on [[isPlaying, recordingPhase]] see the state as the
    event left it; the effect on [[animate]] is an event of its own,
    [AnimateChanged], since a frame that was requested by an earlier
    render can run before it. *)
Inductive Event :=
| ClickRecord (env : StartEnv)
| ResumeSettled
| ClickStop
| ClickPlay
| RecorderData (id : nat) (data : Chunk)
| RecorderStop (id : nat)
| AudioEnded
| AudioProgress (t : number)
| Tick (now : number)
| UploadAudio (url : jsstring)
| UploadLrc (lrcContent : jsstring)
| ChangeIntroDuration (seconds : number)
| AnimateChanged.

Definition record_button_rendered (st : App) : bool := negb (isRecording (react st)).

Definition record_button_disabled (st : App) : bool :=
  negb (audioRef st) || (List.length (lyrics (react st)) =? 0)%nat.

Definition handler (build : Build) (ev : Event) (st : App) : M unit :=
  match ev with
  | ClickRecord env =>
      if record_button_rendered st && negb (record_button_disabled st)
      then
        if awaits_resume build env st then startRecording_until_await env
        else startRecording build env
      else ret tt
  | ResumeSettled => startRecording_continue
  | ClickStop => if isRecording (react st) then stopRecording else ret tt
  | ClickPlay => togglePlay
  | RecorderData id data =>
      match recorder_state st id with
      | Inactive => ret tt
      | _ => ondataavailable data
      end
  | RecorderStop id =>
      match recorder_state st id with
      | Inactive => ret tt
      | _ => set_recorder_state id Inactive ;; onstop build
      end
  | AudioEnded =>
      if audioRef st
      then modify (setIsPlaying false) ;; when (isRecording (react st)) stopRecording
      else ret tt
  | AudioProgress t =>
      when (audioRef st && negb (audioPaused (browser st)))
        (modify (set_audio t false))
  | Tick now => animate (requestRef (refs st)) now
  | UploadAudio url => modify (setMedia (Some url) (lyrics (react st)))
  | UploadLrc lrcContent =>
      modify (setMedia (audioUrl (react st)) (parseLrc lrcContent)) ;;
      modify (set_animation 0 (introStartTimeRef (refs st)))
  | ChangeIntroDuration seconds =>
      modify (with_react (fun s =>
        {| audioUrl := audioUrl s; lyrics := lyrics s; introDuration := seconds;
           isPlaying := isPlaying s; isRecording := isRecording s;
           recordingPhase := recordingPhase s; downloadUrl := downloadUrl s |}))
  | AnimateChanged => request_animate
  end.

Definition phase_eqb (p q : RecordingPhase) : bool :=
  match p, q with
  | idle, idle | intro, intro | recording, recording => true
  | _, _ => false
  end.

(** The effect on [[isPlaying, recordingPhase]]: outside a session the
    audio element follows the play flag. *)
Definition sync_effect (before after : App) : App :=
  if Bool.eqb (isPlaying (react before)) (isPlaying (react after))
     && phase_eqb (recordingPhase (react before)) (recordingPhase (react after))
  then after
  else if phase_eqb (recordingPhase (react after)) idle && audioRef after
  then set_audio (audioCurrentTime (browser after)) (negb (isPlaying (react after))) after
  else after.

(** An exception that leaves a handler is reported and dropped; the
    effects before it stay. *)
Definition dispatch (build : Build) (ev : Event) (st : App) : App :=
  sync_effect st (snd (handler build ev st st)).

Definition init : App :=
  {| react := {| audioUrl := None; lyrics := []; introDuration := 3;
                 isPlaying := false; isRecording := false;
                 recordingPhase := idle; downloadUrl := None |};
     refs := {| canvasRef := true; mediaRecorderRef := None; chunksRef := [];
                audioContextRef := false; audioSourceNodeRef := false;
                audioDestNodeRef := false; silenceOscRef := None;
                smoothIndexRef := 0; introStartTimeRef := 0;
                requestRef := {| seen_recordingPhase := idle; seen_introDuration := 3;
                                 seen_lyrics := [] |} |};
     browser := {| audioCurrentTime := 0; audioPaused := true; recorders := [];
                   oscillators := []; alerts := []; console := [] |};
     awaiting := [] |}.

Inductive reachable (build : Build) : App -> Prop :=
| reachable_init : reachable build init
| reachable_step ev st :
    reachable build st -> reachable build (dispatch build ev st).

(** A recording session is active while its recorder has not delivered
    its [stop] event. *)
Definition active (s : RecorderState) : bool :=
  match s with Inactive => false | _ => true end.

(** *** The vocabulary of the properties of the controller *)

(** [events] one after the other. *)
Definition run (build : Build) (events : list Event) (st : App) : App :=
  fold_left (fun s ev => dispatch build ev s) events st.

(** A component with a track and one cue loaded, in either build. *)
Definition ready (build : Build) : App :=
  dispatch build (UploadLrc (lit "[00:01.00]la"))
    (dispatch build (UploadAudio (lit "blob:track")) init).

(** The browser lets every step through, ... *)
Definition env_fine : StartEnv :=
  {| contextSuspended := false; resumeRejects := false; sourceThrows := false;
     captureThrows := false; recorderThrows := false; startThrows := false;
     now := 1000 |}.

(** ... refuses to resume the suspended audio context, ... *)
Definition env_resume_rejected : StartEnv :=
  {| contextSuspended := true; resumeRejects := true; sourceThrows := false;
     captureThrows := false; recorderThrows := false; startThrows := false;
     now := 1000 |}.

(** ... or has no recorder for the stream. *)
Definition env_no_recorder : StartEnv :=
  {| contextSuspended := false; resumeRejects := false; sourceThrows := false;
     captureThrows := false; recorderThrows := true; startThrows := false;
     now := 1000 |}.

(** The audio context is suspended and resumes. *)
Definition env_suspended : StartEnv :=
  {| contextSuspended := true; resumeRejects := false; sourceThrows := false;
     captureThrows := false; recorderThrows := false; startThrows := false;
     now := 1000 |}.

(** Record is clicked twice before the first [resume()] settles. *)
Definition double_click : list Event :=
  [ClickRecord env_suspended; ClickRecord env_suspended; ResumeSettled; ResumeSettled].

(** The claim as it is worded: some step of the start fails, and the
    attempt is aborted with a message, without a change of phase and
    without a running oscillator. *)
Definition a_step_fails (env : StartEnv) : bool :=
  (contextSuspended env && resumeRejects env) || sourceThrows env
  || captureThrows env || recorderThrows env || startThrows env.

Definition aborted_cleanly (build : Build) (env : StartEnv) (st : App) : Prop :=
  let st' := snd (startRecording build env st) in
  recordingPhase (react st') = recordingPhase (react st) /\
  alerts (browser st') <> alerts (browser st) /\
  Forall (fun running => running = false) (oscillators (browser st')).

(** The answers of the browser with a resume that succeeds. *)
Definition resumed (env : StartEnv) : StartEnv :=
  {| contextSuspended := contextSuspended env; resumeRejects := false;
     sourceThrows := sourceThrows env; captureThrows := captureThrows env;
     recorderThrows := recorderThrows env; startThrows := startThrows env;
     now := now env |}.

(** The state without what was written to the console. *)
Definition without_console (st : App) : App :=
  set_messages (alerts (browser st)) [] st.

(** The canvas cannot be captured. *)
Definition env_no_capture : StartEnv :=
  {| contextSuspended := false; resumeRejects := false; sourceThrows := false;
     captureThrows := true; recorderThrows := false; startThrows := false;
     now := 1000 |}.

(** What the invariant is about: the phase, the recording flag, the
    recorder the ref holds and the recorders there are. *)
Definition view (st : App) : RecordingPhase * bool * option nat * list RecorderState :=
  (recordingPhase (react st), isRecording (react st),
   mediaRecorderRef (refs st), recorders (browser st)).

(** Outside [idle] the recording flag is set, and a recorder that has not
    delivered its [stop] event is the one the ref holds, with the flag
    set. *)
Definition Inv_on (v : RecordingPhase * bool * option nat * list RecorderState) : Prop :=
  let '(phase, rec, ref, rs) := v in
  (phase <> idle -> rec = true) /\
  (forall id, active (nth id rs Inactive) = true -> rec = true /\ ref = Some id).

Definition Inv (st : App) : Prop := Inv_on (view st).

(** A frame in step with the state: its callback is of a render with
    the phase the state has. *)
Definition frame_in_step (ev : Event) (st : App) : Prop :=
  match ev with
  | Tick now => seen_recordingPhase (requestRef (refs st)) = recordingPhase (react st)
  | _ => True
  end.

(** An event that does not leave a call of [startRecording] waiting at
    its [await], and is not a frame of an earlier phase: every event of
    the build of [src/App.tsx] but such a frame, and in the build of
    [src/index.tsx] every event but such a frame and a click on Record
    that finds the audio context suspended. *)
Definition synchronous (build : Build) (ev : Event) (st : App) : Prop :=
  frame_in_step ev st /\
  match ev with
  | ClickRecord env => build = AppTsx \/ contextSuspended env = false
  | _ => True
  end.

Definition Inv_sync (st : App) : Prop := Inv st /\ awaiting st = [].

(** The states that synchronous events reach. *)
Inductive reachable_sync (build : Build) : App -> Prop :=
| reachable_sync_init : reachable_sync build init
| reachable_sync_step ev st :
    reachable_sync build st -> synchronous build ev st ->
    reachable_sync build (dispatch build ev st).

End Recorder.

(** ** The vocabulary of further properties of the parser *)

Module LrcFile.
Import Js Binary64 Lrc.

(** The cues of a file in file order, before the sort. *)
Definition file_cues (lrcContent : jsstring) : list LyricLine :=
  flat_map line_cues (split 10%N lrcContent).

(** A cue at time [t]. *)
Definition at_time (t : number) (c : LyricLine) : bool := (time c =? t)%float.

(** The characters of a tag with groups [g] and separator [sep]. *)
Definition tag_of (g : TimeMatch) (sep : char) : jsstring :=
  [91%N] ++ mm g ++ [58%N] ++ ss g ++ [sep] ++ frac g ++ [93%N].

(** A line that holds a well-formed tag somewhere: an opening bracket,
    two digits, a colon, two digits, a dot or a colon, two or three
    digits and a closing bracket. *)
Definition has_tag (line : jsstring) : Prop :=
  exists before g sep after,
    line = before ++ tag_of g sep ++ after /\
    digit_groups g /\ (sep = 46%N \/ sep = 58%N).

(** A text that neither begins nor ends with white space. *)
Definition trimmed (s : jsstring) : Prop :=
  (forall c rest, s = c :: rest -> is_white_space c = false) /\
  (forall c init, s = init ++ [c] -> is_white_space c = false).

(** The line ends of a file written on Windows. *)
Definition crlf : jsstring := [13; 10]%N.
Definition lf : jsstring := [10%N].

(** Inputs of the examples. *)
Definition ordered_lrc : jsstring :=
  lit "[00:01.00]a" ++ [10%N] ++ lit "[00:02.50]b".

Definition two_lines : list jsstring := [lit "[00:01.00]a"; lit "[00:02.50]b"].

End LrcFile.

(** ** The vocabulary of the properties of the colours *)

Module Colours.
Import Js Binary64 Lrc Types Renderer.

Definition white : RGB := {| r := 255; g := 255; b := 255 |}.

(** A colour whose channels are the integers [x], [y] and [z]. *)
Definition rgb_of (x y z : Z) : RGB := {| r := of_Z x; g := of_Z y; b := of_Z z |}.

Definition byte (z : Z) : Prop := (0 <= z <= 255)%Z.

(** [#RGB], [RGB], [#RRGGBB] or [RRGGBB] in hexadecimal digits. *)
Definition hex_colour (hex : jsstring) : bool :=
  forallb is_hex_digit (strip_hash hex)
  && ((List.length (strip_hash hex) =? 3)%nat || (List.length (strip_hash hex) =? 6)%nat).

(** Upper case for the letters [a] to [f]. *)
Definition upper_hex (c : char) : char :=
  if (97 <=? c)%N && (c <=? 102)%N then (c - 32)%N else c.

(** Two numbers with the same binary64 datum. *)
Definition same_number (a b : number) : bool :=
  match Prim2SF a, Prim2SF b with
  | S754_zero s, S754_zero s' => Bool.eqb s s'
  | S754_infinity s, S754_infinity s' => Bool.eqb s s'
  | S754_nan, S754_nan => true
  | S754_finite s m e, S754_finite s' m' e' => Bool.eqb s s' && Pos.eqb m m' && Z.eqb e e'
  | _, _ => false
  end.

(** One channel of [interpolateColor], from [x] to [y] at the clamped
    factor [f]. *)
Definition channel (x y : Z) (f : number) : number :=
  Math_round (of_Z x + (of_Z y - of_Z x) * f).

(** The channel at the factors 0 and 1, for all [y] from 0 to 255. *)
Definition channel_ends (x : Z) : bool :=
  all_from 256 0 (fun y =>
    same_number (channel x y 0) (of_Z x) && same_number (channel x y 1) (of_Z y)).

(** [Math.max(0, Math.min(1, factor))] *)
Definition clamp (factor : number) : number := Math_max 0 (Math_min 1 factor).

(** The colour as [interpolateColor] writes it. *)
Definition rgb_string (c : RGB) : css_color := Rgb (r c) (g c) (b c).

End Colours.

(** ** The vocabulary of further properties of the word wrap *)

Module Wrap.
Import Js Types Renderer.

Section Tight.
Variable measureText : jsstring -> number.
Variable maxWidth : number.

(** The word [w] does not go on the line of the words [g]. *)
Definition overflows (g : list jsstring) (w : jsstring) : Prop :=
  (measureText (join space (g ++ [w])) <? maxWidth)%float = false.

(** Every line break was forced: the first word of a line did not go on
    the line before it. [g] is the line before [groups]. *)
Fixpoint tight_from (g : list jsstring) (groups : list (list jsstring)) : Prop :=
  match groups with
  | [] => True
  | g' :: rest =>
      (forall w h, g' = w :: h -> overflows g w) /\ tight_from g' rest
  end.

Definition tight (groups : list (list jsstring)) : Prop :=
  match groups with
  | [] => True
  | g :: rest => tight_from g rest
  end.

End Tight.

(** A prefix of [text] that ends where a word ends. *)
Definition word_prefix (text p : jsstring) : Prop :=
  p = text \/ exists rest, text = p ++ 32%N :: rest.

End Wrap.

(** ** The names of an uploaded audio file ([handleFileUpload],
    [src/index.tsx] lines 499-509 and [src/App.tsx] lines 56-66; the
    download link at line 771 and the title of the intro at line 348) *)

Module Files.
Import Js.

(** [[^/.]] *)
Definition ext_char (c : char) : bool := negb ((c =? 47)%N || (c =? 46)%N).

(** [/\.[^/.]+$/] tried at the start of [s]: a dot and then, up to the
    end, one or more characters that are neither [/] nor [.]. *)
Definition extReg_at (s : jsstring) : bool :=
  match s with
  | c :: rest => (c =? 46)%N && truthy rest && forallb ext_char rest
  | [] => false
  end.

(** [name.replace(/\.[^/.]+$/, "")]: the leftmost match is removed. *)
Fixpoint strip_extension (name : jsstring) : jsstring :=
  if extReg_at name then []
  else match name with
       | [] => []
       | c :: rest => c :: strip_extension rest
       end.

(** What the upload of an audio file named [name] sets, in
    [handleFileUpload]: the base name for the export and the title. *)
Record AudioUpload := { fileName : jsstring; songTitle : jsstring }.

Definition upload_audio (name : jsstring) : AudioUpload :=
  let fileName := strip_extension name in
  {| fileName := fileName; songTitle := fileName |}.

(** [download={`${media.fileName}.webm`}] *)
Definition download_name (fileName : jsstring) : jsstring := fileName ++ lit ".webm".

(** [settings.songTitle || "Unknown Track"], the title of the intro. *)
Definition title_text (songTitle : jsstring) : jsstring :=
  if truthy songTitle then songTitle else lit "Unknown Track".

End Files.

(** ** The vocabulary of the end of a recording session *)

Module Session.
Import Js Lrc Recorder.

(** The [dataavailable] events of recorder [id], one per blob. *)
Definition deliveries (id : nat) (blobs : list Chunk) : list Event :=
  map (RecorderData id) blobs.

(** The blobs that [ondataavailable] keeps. *)
Definition kept (blobs : list Chunk) : list Chunk := filter (fun d => (0 <? d)%N) blobs.

(** The three ways a session is stopped: the Stop button, the play
    button, and the end of the track. *)
Definition stop_events : list Event := [ClickStop; ClickPlay; AudioEnded].

(** The oscillator of the session is stopped and forgotten. *)
Definition oscillator_released (before after : App) : Prop :=
  silenceOscRef (refs after) = None /\
  forall osc, silenceOscRef (refs before) = Some osc ->
    (osc < List.length (oscillators (browser before)))%nat ->
    nth osc (oscillators (browser after)) true = false.

(** Inputs of the examples: a session in its intro, with the frame of
    the intro requested, and the same session after the frame that ends
    the intro. *)
Definition intro_session : App :=
  run IndexTsx [ClickRecord env_fine; AnimateChanged] (ready IndexTsx).

Definition recording_session : App :=
  run IndexTsx [Tick 5000; AnimateChanged] intro_session.

End Session.

(** ** Integers among the numbers ([Math.floor], [Math.ceil] and the
    counter of a [for] loop) *)

Module Integers.
Import Js.

(** [Math.floor] and [Math.ceil]: NaN, the infinities, the zeros and the
    integers are returned unchanged; a zero result has the sign of the
    argument. *)
Definition Math_floor (x : number) : number :=
  match Prim2SF x with
  | S754_finite s m e =>
      if (0 <=? e)%Z then x
      else
        let M := if s then Zneg m else Zpos m in
        let n := (M / 2 ^ (- e))%Z in
        if (n =? 0)%Z then zero else of_Z n
  | _ => x
  end.

Definition Math_ceil (x : number) : number :=
  match Prim2SF x with
  | S754_finite s m e =>
      if (0 <=? e)%Z then x
      else
        let M := if s then Zneg m else Zpos m in
        let n := (- ((- M) / 2 ^ (- e)))%Z in
        if (n =? 0)%Z then neg_zero else of_Z n
  | _ => x
  end.

(** The integer a binary64 datum is, if it is one. *)
Definition integer_sf (x : spec_float) : option Z :=
  match x with
  | S754_zero _ => Some 0%Z
  | S754_finite s m e =>
      let M := if s then Zneg m else Zpos m in
      if (0 <=? e)%Z then Some (M * 2 ^ e)%Z
      else if (M mod 2 ^ (- e) =? 0)%Z then Some (M / 2 ^ (- e))%Z
      else None
  | _ => None
  end.

Definition integer_of (x : number) : option Z := integer_sf (Prim2SF x).

End Integers.

(** ** The 2D context of the frame ([renderFrame], [drawRoundedImage] and
    [drawBokeh], [src/index.tsx] lines 140-445)

    The context records what it is asked to do. An attribute holds the
    value last assigned to it, whatever the value; [save] and [restore]
    push and pop the attributes, the transform and the clip; a drawing
    call is logged with the values of the attributes that bear on it.
    Only the attributes the sources assign are kept, and the exceptions
    of the canvas (a negative radius, a number that is not finite) are
    not part of this. *)

Module Canvas2D.
Import Js Types Renderer.

(** *** Attributes and their values *)

Inductive Attr :=
| fillStyle | strokeStyle | globalAlpha | filter | globalCompositeOperation
| shadowColor | shadowBlur | shadowOffsetY | lineWidth
| font | textAlign | textBaseline
| transform | clip.

Definition Attr_eqb (a b : Attr) : bool :=
  match a, b with
  | fillStyle, fillStyle | strokeStyle, strokeStyle | globalAlpha, globalAlpha
  | filter, filter | globalCompositeOperation, globalCompositeOperation
  | shadowColor, shadowColor | shadowBlur, shadowBlur
  | shadowOffsetY, shadowOffsetY | lineWidth, lineWidth
  | font, font | textAlign, textAlign | textBaseline, textBaseline
  | transform, transform | clip, clip => true
  | _, _ => false
  end.

Inductive Transform :=
| Translate (x y : number)
| Scale (x y : number).

(** A piece of a path, with the transform it was added under. *)
Inductive Shape :=
| Arc (x y radius startAngle endAngle : number)
| RoundRect (x y w h radii : number)
| ClosePath.

Definition Path := list (Shape * list Transform).

(** [ctx.createLinearGradient(x0, y0, x1, y1)] with its colour stops. *)
Record LinearGradient := {
  lx0 : number; ly0 : number; lx1 : number; ly1 : number;
  lstops : list (number * css_color)
}.

(** The values of the attributes. A template literal is kept as the
    values it interpolates: [FontPx w px f] is [`${w} ${px}px ${f}`] and
    [Blur px] is [`blur(${px}px)`]. *)
Inductive Value :=
| Number (x : number)
| String (s : jsstring)
| Color (c : css_color)
| Linear (g : LinearGradient)
| Radial (g : Bokeh.Gradient)
| FontPx (weight : jsstring) (px : number) (family : jsstring)
| Blur (px : number)
| Transforms (ts : list Transform)
| Clips (paths : list Path).

Definition DrawState := Attr -> Value.

Definition set_attr (a : Attr) (v : Value) (st : DrawState) : DrawState :=
  fun b => if Attr_eqb b a then v else st b.

(** The transform and the clip of a state. *)
Definition transform_of (st : DrawState) : list Transform :=
  match st transform with Transforms ts => ts | _ => [] end.

Definition clip_of (st : DrawState) : list Path :=
  match st clip with Clips ps => ps | _ => [] end.

(** *** Drawing calls *)

Record Image := { img_width : number; img_height : number }.

Inductive Draw :=
| ClearRect (x y w h : number)
| FillRect (x y w h : number)
| DrawImage (img : Image) (x y w h : number)
| Fill (p : Path)
| Stroke (p : Path)
| FillText (text : jsstring) (x y : number).

(** What every drawing call but [clearRect] is composed under. *)
Definition compositing : list Attr :=
  [globalAlpha; globalCompositeOperation; filter;
   shadowColor; shadowBlur; shadowOffsetY; transform; clip].

(** The attributes that bear on a drawing call. *)
Definition bearing (d : Draw) : list Attr :=
  match d with
  | ClearRect _ _ _ _ => [transform; clip]
  | FillRect _ _ _ _ | Fill _ => fillStyle :: compositing
  | DrawImage _ _ _ _ _ => compositing
  | Stroke _ => strokeStyle :: lineWidth :: compositing
  | FillText _ _ _ => fillStyle :: font :: textAlign :: textBaseline :: compositing
  end.

(** A drawing call as it was made: the call and the values of the
    attributes that bear on it. *)
Record Drawn := { call : Draw; under : list (Attr * Value) }.

Record Context := {
  state : DrawState;
  stack : list DrawState;
  path : Path;
  drawn : list Drawn
}.

Definition assign (a : Attr) (v : Value) (ctx : Context) : Context :=
  {| state := set_attr a v (state ctx); stack := stack ctx;
     path := path ctx; drawn := drawn ctx |}.

Definition save (ctx : Context) : Context :=
  {| state := state ctx; stack := state ctx :: stack ctx;
     path := path ctx; drawn := drawn ctx |}.

(** [restore] with an empty stack does nothing. *)
Definition restore (ctx : Context) : Context :=
  match stack ctx with
  | [] => ctx
  | s :: rest => {| state := s; stack := rest; path := path ctx; drawn := drawn ctx |}
  end.

Definition draw (d : Draw) (ctx : Context) : Context :=
  {| state := state ctx; stack := stack ctx; path := path ctx;
     drawn := drawn ctx
              ++ [{| call := d; under := map (fun a => (a, state ctx a)) (bearing d) |}] |}.

Definition translate (x y : number) (ctx : Context) : Context :=
  assign transform (Transforms (transform_of (state ctx) ++ [Translate x y])) ctx.

Definition scale (x y : number) (ctx : Context) : Context :=
  assign transform (Transforms (transform_of (state ctx) ++ [Scale x y])) ctx.

Definition beginPath (ctx : Context) : Context :=
  {| state := state ctx; stack := stack ctx; path := []; drawn := drawn ctx |}.

Definition add_shape (s : Shape) (ctx : Context) : Context :=
  {| state := state ctx; stack := stack ctx;
     path := path ctx ++ [(s, transform_of (state ctx))]; drawn := drawn ctx |}.

Definition arc (x y radius startAngle endAngle : number) : Context -> Context :=
  add_shape (Arc x y radius startAngle endAngle).
Definition roundRect (x y w h radii : number) : Context -> Context :=
  add_shape (RoundRect x y w h radii).
Definition closePath : Context -> Context := add_shape ClosePath.

(** [ctx.clip()]: the current path is added to the clip. *)
Definition do_clip (ctx : Context) : Context :=
  assign clip (Clips (clip_of (state ctx) ++ [path ctx])) ctx.

Definition clearRect (x y w h : number) : Context -> Context := draw (ClearRect x y w h).
Definition fillRect (x y w h : number) : Context -> Context := draw (FillRect x y w h).
Definition drawImage (img : Image) (x y w h : number) : Context -> Context :=
  draw (DrawImage img x y w h).
Definition fill (ctx : Context) : Context := draw (Fill (path ctx)) ctx.
Definition stroke (ctx : Context) : Context := draw (Stroke (path ctx)) ctx.
Definition fillText (text : jsstring) (x y : number) : Context -> Context :=
  draw (FillText text x y).

Definition css (s : string) : Value := Color (Css (lit s)).

End Canvas2D.

(** ** The frame ([renderFrame], [src/index.tsx] lines 259-440, and
    [src/unnamed/part_000] lines 200-374) *)

Module Frame.
Import Js Lrc Types Renderer Integers Canvas2D.

(** The parameter of [renderFrame]. The copy of [src/unnamed/part_000]
    has neither [titleOpacity] nor [lyricsOpacity]: they are [None]. *)
Record RenderContext := {
  width : number;
  height : number;
  image : option Image;
  lyrics : list LyricLine;
  currentTime : number;
  smoothActiveIndex : number;
  absoluteTime : number;
  isIntro : bool;
  titleOpacity : option number;
  lyricsOpacity : option number;
  settings : AppSettings
}.

(** [l.length] as a number. *)
Definition length_of {A} (l : list A) : number := of_Z (Z.of_nat (List.length l)).

(** [l[i]]: [undefined], here [None], outside the array. *)
Definition item {A} (l : list A) (i : Z) : option A :=
  if (i <? 0)%Z then None else nth_error l (Z.to_nat i).

(** [l.forEach((x, idx) => f)] on the context. *)
Fixpoint forEach {A} (f : A -> Z -> Context -> Context) (l : list A) (idx : Z)
  (ctx : Context) : Context :=
  match l with
  | [] => ctx
  | x :: rest => forEach f rest (idx + 1) (f x idx ctx)
  end.

Section Render.

(** [Math.sin] and [Math.cos], and [ctx.measureText(s).width] as a
    function of the font the context holds. *)
Variable Math_sin Math_cos : number -> number.
Variable measureText : Value -> jsstring -> number.

Definition wrapped (ctx : Context) (text : jsstring) (maxWidth : number) : list jsstring :=
  getWrappedLines (measureText (state ctx font)) maxWidth text.

Definition drawRoundedImage (img : Image) (x y width height radius : number)
  (ctx : Context) : Context :=
  let ctx := save ctx in
  let ctx := beginPath ctx in
  let ctx := roundRect x y width height radius ctx in
  let ctx := closePath ctx in
  let ctx := do_clip ctx in
  let imgRatio := (img_width img / img_height img)%float in
  let areaRatio := (width / height)%float in
  let '(drawWidth, drawHeight, offsetX, offsetY) :=
    if gtb imgRatio areaRatio then
      let drawHeight := height in
      let drawWidth := (height * imgRatio)%float in
      (drawWidth, drawHeight, (x - (drawWidth - width) / 2)%float, y)
    else
      let drawWidth := width in
      let drawHeight := (width / imgRatio)%float in
      (drawWidth, drawHeight, x, (y - (drawHeight - height) / 2)%float) in
  let ctx := drawImage img offsetX offsetY drawWidth drawHeight ctx in
  let ctx := restore ctx in
  let ctx := save ctx in
  let ctx := beginPath ctx in
  let ctx := assign lineWidth (Number 4) ctx in
  let ctx := assign strokeStyle (css "rgba(255, 255, 255, 0.15)") ctx in
  let ctx := roundRect x y width height radius ctx in
  let ctx := stroke ctx in
  restore ctx.

(** [drawBokeh] on this context; the numbers of a particle are those of
    [Bokeh.particle]. [placeholder] is the copy of [src/unnamed/part_000]. *)
Definition draw_particle (width height time : number) (settings : AppSettings)
  (placeholder : bool) (ctx : Context) (i : Z) : Context :=
  let p := Bokeh.particle Math_sin Math_cos width height time settings i in
  let ctx :=
    if placeholder && bokehAutoColor settings
    then assign fillStyle (Color (Hsla (Bokeh.phue p) 70 60 0)) ctx
    else ctx in
  let ctx := assign fillStyle (Radial (Bokeh.pgradient p)) ctx in
  let ctx := beginPath ctx in
  let ctx := arc (Bokeh.px p) (Bokeh.py p) (Bokeh.pradius p) 0 (Bokeh.Math_PI * 2) ctx in
  fill ctx.

Definition drawBokeh (width height time : number) (settings : AppSettings)
  (placeholder : bool) (ctx : Context) : Context :=
  let ctx := save ctx in
  let ctx := assign globalCompositeOperation (String (lit "screen")) ctx in
  let ctx :=
    fold_left (draw_particle width height time settings placeholder)
      (Bokeh.indices 0 Bokeh.particleCount) ctx in
  restore ctx.

Section OneFrame.
Variable p : RenderContext.
Variable placeholder : bool.

Local Open Scope float_scope.

(** Layout constants *)
Definition leftPanelWidth : number := width p * 0.4.
Definition rightPanelStart : number := width p * (lyricsXOffset (settings p) / 100).
Definition rightPanelWidth : number := width p - rightPanelStart - 50.
Definition verticalCenter : number := height p / 2.

Definition imgSize : number := Math_min (leftPanelWidth * 0.75) (height p * 0.55).
Definition imgX : number := (leftPanelWidth - imgSize) / 2 + 60.
Definition imgY : number := (height p - imgSize) / 2.

(** Steps 1 and 2: the screen is cleared and the background filled. *)
Definition draw_background (ctx : Context) : Context :=
  let ctx := clearRect 0 0 (width p) (height p) ctx in
  let gradient :=
    {| lx0 := 0; ly0 := 0; lx1 := width p; ly1 := height p;
       lstops := [(0, Css (backgroundColor (settings p))); (1, Css (lit "#020617"))] |} in
  let ctx := assign fillStyle (Linear gradient) ctx in
  fillRect 0 0 (width p) (height p) ctx.

(** Step 3: the blurred image behind everything. *)
Definition draw_backdrop (ctx : Context) : Context :=
  match image p with
  | Some img =>
      let ctx := save ctx in
      let ctx := assign globalAlpha (Number 0.15) ctx in
      let ctx := assign filter (String (lit "blur(60px) saturate(150%)")) ctx in
      let ctx := drawImage img (- width p * 0.2) (- height p * 0.2)
                   (width p * 1.4) (height p * 1.4) ctx in
      restore ctx
  | None => ctx
  end.

(** Step 4 *)
Definition draw_bokeh_layer (ctx : Context) : Context :=
  if bokehEnabled (settings p)
  then drawBokeh (width p) (height p) (absoluteTime p) (settings p) placeholder ctx
  else ctx.

(** Step 5: the album art, or its placeholder. *)
Definition draw_art (ctx : Context) : Context :=
  match image p with
  | Some img =>
      let ctx := save ctx in
      let ctx := assign shadowColor (css "rgba(0,0,0,0.6)") ctx in
      let ctx := assign shadowBlur (Number 40) ctx in
      let ctx := assign shadowOffsetY (Number 20) ctx in
      let ctx := drawRoundedImage img imgX imgY imgSize imgSize 24 ctx in
      restore ctx
  | None =>
      let ctx := assign fillStyle (css "rgba(255,255,255,0.05)") ctx in
      let ctx := beginPath ctx in
      let ctx := roundRect imgX imgY imgSize imgSize 24 ctx in
      let ctx := fill ctx in
      let ctx := assign fillStyle (css "rgba(255,255,255,0.3)") ctx in
      let ctx := assign font (String (lit "500 32px Inter")) ctx in
      let ctx := assign textAlign (String (lit "center")) ctx in
      let ctx := assign textBaseline (String (lit "middle")) ctx in
      fillText (lit "No Cover Art") (imgX + imgSize / 2) (imgY + imgSize / 2) ctx
  end.

(** [settings.songTitle || "Unknown Track"] *)
Definition title (s : AppSettings) : jsstring := Files.title_text (songTitle s).

(** [`bold ${settings.fontSize * 1.5}px Inter, sans-serif`] *)
Definition title_font : Value :=
  FontPx (lit "bold") (fontSize (settings p) * 1.5) (lit "Inter, sans-serif").

(** Step 6: the title of the intro. *)
Definition draw_title (ctx : Context) : Context :=
  let ctx := assign textAlign (String (lit "left")) ctx in
  let ctx := assign textBaseline (String (lit "middle")) ctx in
  let titleX := rightPanelStart in
  let titleY := verticalCenter in
  let ctx := save ctx in
  let ctx :=
    match titleOpacity p with
    | Some titleOpacity => assign globalAlpha (Number titleOpacity) ctx
    | None => ctx
    end in
  let ctx := assign font title_font ctx in
  let ctx := assign fillStyle (Color (Css (primaryColor (settings p)))) ctx in
  let ctx := assign shadowColor (Color (Css (primaryColor (settings p)))) ctx in
  let ctx := assign shadowBlur (Number (glowIntensity (settings p) * 1.5)) ctx in
  let titleLines := wrapped ctx (title (settings p)) rightPanelWidth in
  let ctx :=
    forEach (fun line idx ctx =>
      let yOff := (of_Z idx - (length_of titleLines - 1) / 2)
                  * (fontSize (settings p) * 1.8) in
      fillText line titleX (titleY + yOff) ctx) titleLines 0 ctx in
  restore ctx.

(** Step 7, the body of the loop: the line of the cue at index [i].
    [None] is the [TypeError] of reading [line.text] of [undefined]. *)
Definition draw_line (ctx : Context) (i : Z) : option Context :=
  let line := item (lyrics p) i in
  let baseFontSize := fontSize (settings p) in
  let lineHeight := baseFontSize * 2.2 in
  let distance := of_Z i - smoothActiveIndex p in
  let yPos := verticalCenter + distance * lineHeight in
  let absDist := Math_abs distance in
  let scale_ :=
    if absDist <? 1.0
    then
      let ease := (1 + Math_cos (Bokeh.Math_PI * absDist)) / 2 in
      1.0 + 0.15 * ease
    else 1.0 in
  match line_style (settings p) (lyricsOpacity p) (smoothActiveIndex p) i with
  | None => Some ctx
  | Some style =>
      let ctx := save ctx in
      let ctx := translate rightPanelStart yPos ctx in
      let ctx := scale scale_ scale_ ctx in
      let ctx :=
        if gtb (blur style) 0 then assign filter (Blur (blur style)) ctx else ctx in
      let ctx := assign globalAlpha (Number (Renderer.globalAlpha style)) ctx in
      let ctx := assign fillStyle (Color (Renderer.fill style)) ctx in
      let fontWeight := if absDist <? 0.4 then lit "700" else lit "600" in
      let ctx := assign font (FontPx fontWeight baseFontSize (lit "Inter, sans-serif")) ctx in
      let ctx :=
        if absDist <? 0.4
        then
          let ctx := assign shadowColor (Color (Css (primaryColor (settings p)))) ctx in
          assign shadowBlur (Number (glowIntensity (settings p) * (1 - absDist / 0.4))) ctx
        else ctx in
      match line with
      | None => None
      | Some line =>
          let wrappedLines := wrapped ctx (text line) (rightPanelWidth / scale_) in
          let totalHeight := (length_of wrappedLines - 1) * (baseFontSize * 1.1) in
          let startY := - totalHeight / 2 in
          let ctx :=
            forEach (fun txt lineIdx ctx =>
              let lineY := startY + of_Z lineIdx * (baseFontSize * 1.1) in
              fillText txt 0 lineY ctx) wrappedLines 0 ctx in
          Some (restore ctx)
      end
  end.

(** [for (let i = startIndex; i <= endIndex; i++)], over the integers
    [todo]. *)
Fixpoint lines_loop (todo : list Z) (ctx : Context) : option Context :=
  match todo with
  | [] => Some ctx
  | i :: rest =>
      match draw_line ctx i with
      | Some ctx => lines_loop rest ctx
      | None => None
      end
  end.

Definition maxVisibleDist : number := 5.

Definition startIndex : number :=
  Math_max 0 (Math_floor (smoothActiveIndex p - maxVisibleDist)).

Definition endIndex : number :=
  Math_min (length_of (lyrics p) - 1) (Math_ceil (smoothActiveIndex p + maxVisibleDist)).

(** The integers the loop visits: none unless both bounds are integers
    (a bound that is NaN or infinite makes [i <= endIndex] false at
    once). *)
Definition visited : list Z :=
  match integer_of startIndex, integer_of endIndex with
  | Some s, Some e => Bokeh.indices s (Z.to_nat (e - s + 1))
  | _, _ => []
  end.

(** Step 7: the stack of lyric lines. *)
Definition draw_lyrics (ctx : Context) : option Context :=
  let ctx := assign textAlign (String (lit "left")) ctx in
  let ctx := assign textBaseline (String (lit "middle")) ctx in
  lines_loop visited ctx.

Definition renderFrame (ctx : Context) : option Context :=
  let ctx := draw_background ctx in
  let ctx := draw_backdrop ctx in
  let ctx := draw_bokeh_layer ctx in
  let ctx := draw_art ctx in
  if isIntro p then Some (draw_title ctx) else draw_lyrics ctx.

End OneFrame.
End Render.

(** *** Inputs of the examples *)

(** A context as a canvas hands it out. *)
Definition initial : DrawState := fun a =>
  match a with
  | fillStyle | strokeStyle => css "#000000"
  | globalAlpha => Number 1
  | filter => String (lit "none")
  | globalCompositeOperation => String (lit "source-over")
  | shadowColor => css "rgba(0, 0, 0, 0)"
  | shadowBlur | shadowOffsetY => Number 0
  | lineWidth => Number 1
  | font => String (lit "10px sans-serif")
  | textAlign => String (lit "start")
  | textBaseline => String (lit "alphabetic")
  | transform => Transforms []
  | clip => Clips []
  end.

Definition new_context : Context :=
  {| state := initial; stack := []; path := []; drawn := [] |}.

(** A measure that ignores the font: ten units a character. *)
Definition ten_wide (font : Value) (s : jsstring) : number := ten_per_char s.

(** A frame of the lyrics, between the two cues of [two_cues], ... *)
Definition lyric_frame : RenderContext :=
  {| width := 1920; height := 1080; image := None; lyrics := Timeline.two_cues;
     currentTime := 1.5; smoothActiveIndex := 0.5; absoluteTime := 0;
     isIntro := false; titleOpacity := Some 0%float; lyricsOpacity := Some 1%float;
     settings := black_on_white |}.

(** ... and a frame of the intro. *)
Definition intro_frame : RenderContext :=
  {| width := 1920; height := 1080; image := None; lyrics := Timeline.two_cues;
     currentTime := 0; smoothActiveIndex := 0; absoluteTime := 0;
     isIntro := true; titleOpacity := Some 1%float; lyricsOpacity := Some 0%float;
     settings := black_on_white |}.

End Frame.

(** ** The vocabulary of the properties of a frame *)

Module FrameLocal.
Import Js Lrc Types Renderer Canvas2D Frame.

(** The attributes a frame leaves as it found them: all but the fill
    style, the font and the alignment of text. *)
Definition kept : list Attr :=
  [globalAlpha; globalCompositeOperation; filter; shadowColor; shadowBlur;
   shadowOffsetY; transform; clip; strokeStyle; lineWidth].

(** What the lines of the lyric stack are drawn under. *)
Definition for_lines : list Attr := kept ++ [textAlign; textBaseline].

(** The values of the attributes [attrs] in a state. *)
Definition view (attrs : list Attr) (st : DrawState) : list Value := map st attrs.

Fixpoint lookup (a : Attr) (l : list (Attr * Value)) : Value :=
  match l with
  | [] => Number 0
  | (b, v) :: rest => if Attr_eqb a b then v else lookup a rest
  end.

(** A context with nothing saved and nothing drawn. *)
Definition blank (st : DrawState) : Context :=
  {| state := st; stack := []; path := []; drawn := [] |}.

(** A blank context whose attributes [attrs] have the values [k]. *)
Definition fresh (attrs : list Attr) (k : list Value) : Context :=
  blank (fun a => lookup a (combine attrs k)).

(** The context [c] with the drawing calls [ds] added. *)
Definition onto (c : Context) (ds : list Drawn) : Context :=
  {| state := state c; stack := stack c; path := path c; drawn := drawn c ++ ds |}.

(** The drawing calls of [forEach] with a body that draws. *)
Fixpoint draws {A} (d : A -> Z -> Draw) (l : list A) (idx : Z) (st : DrawState)
  : list Drawn :=
  match l with
  | [] => []
  | x :: rest =>
      {| call := d x idx; under := map (fun a => (a, st a)) (bearing (d x idx)) |}
      :: draws d rest (idx + 1) st
  end.

(** What a step adds to the drawing calls of a context. *)
Definition added (before after : Context) : list Drawn :=
  skipn (List.length (drawn before)) (drawn after).

(** A step that leaves the stack and the kept attributes alone, and whose
    drawing calls are those it makes on a blank context with the same
    kept attributes; a step that fails, fails on both. *)
Definition step_local (f : Context -> option Context) : Prop :=
  forall c,
    match f c, f (fresh kept (view kept (state c))) with
    | Some c', Some c0 =>
        stack c' = stack c /\
        view kept (state c') = view kept (state c) /\
        drawn c' = drawn c ++ drawn c0
    | None, None => True
    | _, _ => False
    end.

(** The texts of the [fillText] calls. *)
Definition texts (ds : list Drawn) : list jsstring :=
  flat_map (fun d => match call d with FillText t _ _ => [t] | _ => [] end) ds.

End FrameLocal.

(** ** The vocabulary of the invariants of the controller *)

Module Silence.
Import Js Lrc Recorder.

(** The audio element is paused while the intro runs. *)
Definition silent_intro (st : App) : Prop :=
  recordingPhase (react st) = intro -> audioPaused (browser st) = true.

(** What a handler may do to the phase and the audio element. *)
Definition quiet (st st' : App) : Prop :=
  (recordingPhase (react st') = recordingPhase (react st) /\
   (audioPaused (browser st) = true -> audioPaused (browser st') = true)) \/
  recordingPhase (react st') <> intro \/
  audioPaused (browser st') = true.

End Silence.

Module Buttons.
Import Js Lrc Recorder.

(** The Stop button is shown instead of the Record button. *)
Definition stop_button_rendered (st : App) : bool := isRecording (react st).

(** [{downloadUrl && <a ...>Download Video</a>}] *)
Definition download_link_rendered (st : App) : bool :=
  match downloadUrl (react st) with Some _ => true | None => false end.

(** Outside [idle] the Stop button is shown, and while it is shown no
    download is offered. *)
Definition buttons_agree (st : App) : Prop :=
  (recordingPhase (react st) <> idle -> stop_button_rendered st = true) /\
  (stop_button_rendered st = true -> download_link_rendered st = false).

(** While the Stop button is shown no download is offered. *)
Definition stop_hides_download (st : App) : Prop :=
  stop_button_rendered st = true -> download_link_rendered st = false.

(** What a handler may do to the phase, the recording flag and the
    download: leave the flag and the download and move the phase from
    [intro] to [recording] at most; start a session; or end one. *)
Definition session_step (st st' : App) : Prop :=
  (isRecording (react st') = isRecording (react st) /\
   downloadUrl (react st') = downloadUrl (react st) /\
   (recordingPhase (react st') = recordingPhase (react st) \/
    recordingPhase (react st) = intro)) \/
  (isRecording (react st') = true /\ downloadUrl (react st') = None) \/
  (recordingPhase (react st') = idle /\ isRecording (react st') = false).

(** The same without the phase. *)
Definition flag_step (st st' : App) : Prop :=
  (isRecording (react st') = isRecording (react st) /\
   downloadUrl (react st') = downloadUrl (react st)) \/
  (isRecording (react st') = true /\ downloadUrl (react st') = None) \/
  isRecording (react st') = false.

(** The states the component reaches while every frame is of the phase
    the state has. *)
Inductive reachable_in_step (build : Build) : App -> Prop :=
| reachable_in_step_init : reachable_in_step build init
| reachable_in_step_step ev st :
    reachable_in_step build st -> frame_in_step ev st ->
    reachable_in_step build (dispatch build ev st).

(** A session is stopped in its intro, and the frame of the intro runs
    once more, past the end of the intro, before the effect on
    [[animate]] has replaced it. *)
Definition stale_frame : list Event :=
  [ClickRecord env_fine; AnimateChanged; ClickStop; RecorderStop 0; Tick 5000].

End Buttons.

(** ** The vocabulary of wrapping again *)

Module Rewrap.
Import Js Types Renderer.

Section Grown.
Variable measureText : jsstring -> number.
Variable maxWidth : number.

(** Every word of a line but the first was added because the line with
    it measured less than the width. *)
Definition grown (g : list jsstring) : Prop :=
  forall h w t, g = h ++ w :: t -> h <> [] ->
    (measureText (join space (h ++ [w])) <? maxWidth)%float = true.

End Grown.

End Rewrap.

(** ** The two copies of the renderer *)

Module Copies.
Import Js Lrc Types Renderer Canvas2D Frame.

(** The parameter of a frame as the copy of [src/unnamed/part_000] takes
    it: without the fades. *)
Definition without_fades (p : RenderContext) : RenderContext :=
  {| width := width p; height := height p; image := image p; lyrics := lyrics p;
     currentTime := currentTime p; smoothActiveIndex := smoothActiveIndex p;
     absoluteTime := absoluteTime p; isIntro := isIntro p;
     titleOpacity := None; lyricsOpacity := None; settings := settings p |}.

End Copies.

(* ================================================================== *)
(** * Part II: properties *)
(* ================================================================== *)

(** ** Facts about binary64 arithmetic

    Derived from the Standard Library's specification of the primitive
    operations ([FloatAxioms]) over [SpecFloat]: rounding keeps the sign
    of a non-zero result, and so the sign of [x - y] is the order of [x]
    and [y]. *)

Module NumberFacts.
Import Js Binary64.
Local Open Scope Z_scope.

Lemma shr_1_m r : 0 <= shr_m r -> shr_m (shr_1 r) = Z.div2 (shr_m r).
Proof.
  destruct r as [m b s]; simpl; intros H.
  destruct m as [|p|p]; [reflexivity| |lia].
  destruct p; reflexivity.
Qed.

Lemma iter_pos_shr_m p : forall r, 0 <= shr_m r ->
  shr_m (iter_pos shr_1 p r) = Z.shiftr (shr_m r) (Zpos p).
Proof.
  induction p as [p IH|p IH|]; intros r Hr; simpl iter_pos.
  - assert (H1 : 0 <= shr_m (shr_1 r)).
    { rewrite shr_1_m by assumption. apply Z.div2_nonneg; assumption. }
    assert (H2 : 0 <= shr_m (iter_pos shr_1 p (shr_1 r))).
    { rewrite IH by assumption. apply Z.shiftr_nonneg; assumption. }
    rewrite IH, IH, shr_1_m by assumption.
    rewrite Z.div2_spec, !Z.shiftr_shiftr by lia.
    f_equal; lia.
  - assert (H2 : 0 <= shr_m (iter_pos shr_1 p r)).
    { rewrite IH by assumption. apply Z.shiftr_nonneg; assumption. }
    rewrite IH, IH by assumption.
    rewrite Z.shiftr_shiftr by lia. f_equal; lia.
  - rewrite shr_1_m by assumption. apply Z.div2_spec.
Qed.

Lemma digits2_size m : digits2_pos m = Pos.size m.
Proof. induction m; simpl; congruence. Qed.

Lemma digits2_log2 m : Zpos (digits2_pos m) = Z.log2 (Zpos m) + 1.
Proof. rewrite digits2_size. destruct m; simpl; lia. Qed.

Lemma digits2_bounds m :
  2 ^ (Zpos (digits2_pos m) - 1) <= Zpos m < 2 ^ Zpos (digits2_pos m).
Proof.
  rewrite digits2_log2.
  replace (Z.log2 (Z.pos m) + 1 - 1) with (Z.log2 (Zpos m)) by lia.
  replace (Z.log2 (Z.pos m) + 1) with (Z.succ (Z.log2 (Zpos m))) by lia.
  apply Z.log2_spec. lia.
Qed.

(** Shifting out fewer bits than the mantissa has leaves a positive
    mantissa. *)
Lemma shiftr_keeps_top m n :
  0 <= n <= Zpos (digits2_pos m) - 1 -> 1 <= Z.shiftr (Zpos m) n.
Proof.
  intros Hn. rewrite Z.shiftr_div_pow2 by lia.
  apply Z.div_le_lower_bound; [apply Z.pow_pos_nonneg; lia|].
  rewrite Z.mul_1_r.
  transitivity (2 ^ (Zpos (digits2_pos m) - 1)).
  - apply Z.pow_le_mono_r; lia.
  - apply digits2_bounds.
Qed.

Lemma shr_record_of_loc_m m l : shr_m (shr_record_of_loc m l) = m.
Proof. destruct l as [|[]]; reflexivity. Qed.

Lemma shr_fexp_pos m e l :
  emin <= e ->
  1 <= shr_m (fst (shr_fexp prec emax (Zpos m) e l)) /\
  emin <= snd (shr_fexp prec emax (Zpos m) e l).
Proof.
  intros He. unfold shr_fexp, shr, fexp. simpl Zdigits2.
  fold emin.
  destruct (Z.max (Zpos (digits2_pos m) + e - prec) emin - e) as [|p|p] eqn:En;
    simpl fst; simpl snd; rewrite ?shr_record_of_loc_m; try lia.
  rewrite iter_pos_shr_m by (rewrite shr_record_of_loc_m; lia).
  rewrite shr_record_of_loc_m.
  unfold prec in *. split; [|lia].
  apply shiftr_keeps_top. lia.
Qed.

Lemma round_nearest_even_ge m l : 1 <= m -> 1 <= round_nearest_even m l.
Proof.
  intros H. destruct l as [|[]]; simpl; try lia.
  destruct (Z.even m); lia.
Qed.

Lemma binary_round_aux_signed s m e l :
  emin <= e -> signed_nonzero s (binary_round_aux prec emax s (Zpos m) e l).
Proof.
  intros He. unfold binary_round_aux.
  destruct (shr_fexp_pos m e l He) as [H1 H2].
  destruct (shr_fexp prec emax (Zpos m) e l) as [r1 e1]. simpl in H1, H2.
  pose proof (round_nearest_even_ge (shr_m r1) (loc_of_shr_record r1) H1) as H3.
  destruct (round_nearest_even (shr_m r1) (loc_of_shr_record r1)) as [|q|q]; try lia.
  destruct (shr_fexp_pos q e1 loc_Exact H2) as [H4 H5].
  destruct (shr_fexp prec emax (Zpos q) e1 loc_Exact) as [r2 e2]. simpl in H4, H5.
  destruct (shr_m r2) as [|q2|q2]; try lia.
  destruct (e2 <=? emax - prec); constructor.
Qed.

Lemma binary_round_signed s m e :
  emin <= e -> signed_nonzero s (binary_round prec emax s m e).
Proof.
  intros He. unfold binary_round, shl_align.
  destruct (fexp prec emax (Z.pos (digits2_pos m) + e) - e) eqn:Ed;
    try (apply binary_round_aux_signed; assumption).
  apply binary_round_aux_signed. unfold fexp. fold emin. lia.
Qed.

Lemma iter_xO_val m d : Zpos (Pos.iter xO m d) = Zpos m * 2 ^ Zpos d.
Proof.
  induction d as [|d IH] using Pos.peano_ind.
  - simpl. lia.
  - rewrite Pos.iter_succ, Pos2Z.inj_xO, IH, Pos2Z.inj_succ, Z.pow_succ_r by lia. lia.
Qed.

Lemma shl_align_val m e e' :
  e' <= e -> Zpos (fst (shl_align m e e')) = Zpos m * 2 ^ (e - e').
Proof.
  intros H. unfold shl_align.
  destruct (e' - e) as [|p|p] eqn:E; simpl fst.
  - replace (e - e') with 0 by lia. lia.
  - lia.
  - rewrite iter_xO_val. f_equal. f_equal. lia.
Qed.

Lemma canonical_emin m e : canonical m e -> emin <= e.
Proof.
  unfold canonical, canonical_mantissa, fexp. fold emin. intros H.
  apply Z.eqb_eq in H. lia.
Qed.

(** Of two canonical mantissas the one with the larger exponent is the
    larger number. *)
Lemma canonical_lt m1 e1 m2 e2 :
  canonical m1 e1 -> canonical m2 e2 -> e1 < e2 ->
  Zpos m1 < Zpos m2 * 2 ^ (e2 - e1).
Proof.
  unfold canonical, canonical_mantissa, fexp. fold emin.
  intros H1 H2 Hlt. apply Z.eqb_eq in H1, H2.
  pose proof (digits2_bounds m1) as B1. pose proof (digits2_bounds m2) as B2.
  unfold prec in *.
  assert (D2 : Zpos (digits2_pos m2) = 53) by lia.
  assert (D1 : Zpos (digits2_pos m1) <= 53) by lia.
  rewrite D2 in B2.
  assert (P1 : Zpos m1 < 2 ^ 53).
  { eapply Z.lt_le_trans; [apply B1|]. apply Z.pow_le_mono_r; lia. }
  assert (P2 : 2 ^ 1 <= 2 ^ (e2 - e1)) by (apply Z.pow_le_mono_r; lia).
  change (2 ^ 1) with 2 in P2. change (2 ^ (53 - 1)) with 4503599627370496 in B2.
  change (2 ^ 53) with 9007199254740992 in P1.
  nia.
Qed.

Lemma compare_finite_aligned sx mx ex sy my ey :
  canonical mx ex -> canonical my ey ->
  SFcompare (S754_finite sx mx ex) (S754_finite sy my ey) =
  Some (aligned sx mx ex (Z.min ex ey) ?= aligned sy my ey (Z.min ex ey)).
Proof.
  intros Cx Cy. unfold aligned.
  rewrite !shl_align_val by lia.
  assert (Px : 0 < 2 ^ (ex - Z.min ex ey)) by (apply Z.pow_pos_nonneg; lia).
  assert (Py : 0 < 2 ^ (ey - Z.min ex ey)) by (apply Z.pow_pos_nonneg; lia).
  unfold SFcompare. f_equal.
  destruct (Z.compare_spec ex ey) as [E|L|G].
  - subst ey. rewrite Z.min_id, Z.sub_diag. change (2 ^ 0) with 1. rewrite !Z.mul_1_r.
    destruct sx, sy; reflexivity.
  - pose proof (canonical_lt _ _ _ _ Cx Cy L) as Hlt.
    rewrite Z.min_l in * by lia. rewrite Z.sub_diag. change (2 ^ 0) with 1.
    rewrite Z.mul_1_r.
    destruct sx, sy; cbv [cond_Zopp]; symmetry;
      first [apply Z.compare_lt_iff | apply Z.compare_gt_iff]; lia.
  - pose proof (canonical_lt _ _ _ _ Cy Cx ltac:(lia)) as Hlt.
    rewrite Z.min_r in * by lia. rewrite Z.sub_diag. change (2 ^ 0) with 1.
    rewrite Z.mul_1_r.
    destruct sx, sy; cbv [cond_Zopp]; symmetry;
      first [apply Z.compare_lt_iff | apply Z.compare_gt_iff]; lia.
Qed.

Lemma signed_nonzero_compare_zero s x :
  signed_nonzero s x ->
  SFcompare x (S754_zero false) = Some (if s then Lt else Gt).
Proof. intros []; reflexivity. Qed.

Lemma binary_normalize_compare_zero d e :
  emin <= e ->
  SFcompare (binary_normalize prec emax d e false) (S754_zero false) = Some (d ?= 0).
Proof.
  intros He. destruct d as [|p|p]; simpl binary_normalize.
  - reflexivity.
  - rewrite (signed_nonzero_compare_zero false) by (apply binary_round_signed; assumption).
    reflexivity.
  - rewrite (signed_nonzero_compare_zero true) by (apply binary_round_signed; assumption).
    reflexivity.
Qed.

(** The difference of two finite numbers compares with zero as the
    numbers compare with each other. *)
Lemma SFsub_compare_zero x y :
  valid_binary x = true -> valid_binary y = true ->
  finite_sf x = true -> finite_sf y = true ->
  SFcompare (SFsub prec emax x y) (S754_zero false) = SFcompare x y.
Proof.
  intros Vx Vy Fx Fy.
  destruct x as [sx|sx| |sx mx ex]; try discriminate;
  destruct y as [sy|sy| |sy my ey]; try discriminate.
  - destruct sx, sy; reflexivity.
  - destruct sx, sy; reflexivity.
  - destruct sx; reflexivity.
  - unfold valid_binary in Vx, Vy. simpl in Vx, Vy. unfold bounded in Vx, Vy.
    apply andb_prop in Vx, Vy. destruct Vx as [Cx _], Vy as [Cy _].
    rewrite (compare_finite_aligned _ _ _ _ _ _ Cx Cy).
    unfold SFsub. fold (aligned sx mx ex (Z.min ex ey)). fold (aligned sy my ey (Z.min ex ey)).
    rewrite binary_normalize_compare_zero.
    + f_equal. symmetry. apply Z.compare_sub.
    + apply canonical_emin in Cx, Cy. lia.
Qed.

Lemma SFcompare_antisym x y :
  SFcompare y x = option_map CompOpp (SFcompare x y).
Proof.
  destruct x as [sx|sx| |sx mx ex], y as [sy|sy| |sy my ey];
    try destruct sx; try destruct sy; try reflexivity; simpl;
    rewrite (Z.compare_antisym ex ey); destruct (ex ?= ey)%Z; simpl; try reflexivity;
    change Eq with (CompOpp Eq) at 1; rewrite Pos.compare_cont_antisym;
    rewrite ?CompOpp_involutive; reflexivity.
Qed.

Ltac cmp_cases :=
  repeat match goal with
  | H : context [Z.compare ?a ?b] |- _ => destruct (Z.compare_spec a b)
  | |- context [Z.compare ?a ?b] => destruct (Z.compare_spec a b)
  | H : context [Pos.compare_cont Eq ?a ?b] |- _ =>
      change (Pos.compare_cont Eq a b) with (Pos.compare a b) in *;
      destruct (Pos.compare_spec a b)
  | |- context [Pos.compare_cont Eq ?a ?b] =>
      change (Pos.compare_cont Eq a b) with (Pos.compare a b) in *;
      destruct (Pos.compare_spec a b)
  end.

Lemma SFleb_trans x y z :
  SFleb x y = true -> SFleb y z = true -> SFleb x z = true.
Proof.
  unfold SFleb, SFcompare.
  destruct x as [sx|sx| |sx mx ex], y as [sy|sy| |sy my ey], z as [sz|sz| |sz mz ez];
    try destruct sx; try destruct sy; try destruct sz;
    try reflexivity; try discriminate;
    intros H1 H2; cmp_cases; simpl in *; subst;
    try reflexivity; try discriminate; try lia.
Qed.

(** *** Sums of small non-negative numbers do not overflow *)

Lemma Zdigits2_digits m : Zdigits2 (Zpos m) = digits (Zpos m).
Proof. simpl. apply digits2_log2. Qed.

Lemma digits_shiftr m n :
  0 < m -> 0 <= n -> 1 <= Z.shiftr m n -> digits (Z.shiftr m n) = digits m - n.
Proof.
  intros Hm Hn H1. unfold digits. rewrite Z.log2_shiftr by lia.
  assert (0 <= Z.log2 m - n); [|lia].
  destruct (Z_lt_le_dec (Z.log2 m) n) as [Hlt|Hle]; [|lia].
  exfalso. rewrite Z.shiftr_eq_0 in H1; lia.
Qed.

Lemma digits_succ m : 0 < m -> digits (m + 1) <= digits m + 1.
Proof.
  intros Hm. unfold digits. pose proof (Z.log2_succ_le m).
  replace (m + 1) with (Z.succ m) by lia. lia.
Qed.

Lemma digits_round m l : 1 <= m -> digits (round_nearest_even m l) <= digits m + 1.
Proof.
  intros H. pose proof (digits_succ m ltac:(lia)).
  destruct l as [|[]]; simpl; try lia.
  destruct (Z.even m); lia.
Qed.

Lemma digits_mul_pow2 m k : 0 < m -> 0 <= k -> digits (m * 2 ^ k) = digits m + k.
Proof. intros. unfold digits. rewrite Z.log2_mul_pow2 by lia. lia. Qed.

Lemma digits_add a b k :
  0 < a -> 0 < b -> digits a <= k -> digits b <= k -> digits (a + b) <= k + 1.
Proof.
  unfold digits. intros Ha Hb Ka Kb. pose proof (Z.log2_nonneg a).
  assert (a < 2 ^ k) by (apply Z.log2_lt_pow2; lia).
  assert (b < 2 ^ k) by (apply Z.log2_lt_pow2; lia).
  assert (a + b < 2 ^ (k + 1)).
  { rewrite Z.pow_add_r by lia. change (2 ^ 1) with 2. lia. }
  assert (Z.log2 (a + b) < k + 1) by (apply Z.log2_lt_pow2; lia).
  lia.
Qed.

(** [shr_fexp] keeps the magnitude [digits m + e] and fixes the exponent. *)
Lemma shr_fexp_mag m e l :
  emin <= e ->
  digits (shr_m (fst (shr_fexp prec emax (Zpos m) e l)))
    + snd (shr_fexp prec emax (Zpos m) e l) = digits (Zpos m) + e /\
  snd (shr_fexp prec emax (Zpos m) e l) = Z.max e (digits (Zpos m) + e - prec).
Proof.
  intros He. unfold shr_fexp, shr, fexp. rewrite Zdigits2_digits.
  fold emin.
  pose proof (digits2_log2 m) as Hd. fold (digits (Zpos m)) in Hd.
  destruct (Z.max (digits (Zpos m) + e - prec) emin - e) as [|p|p] eqn:En;
    simpl fst; simpl snd; rewrite ?shr_record_of_loc_m; try (unfold prec in *; lia).
  rewrite iter_pos_shr_m by (rewrite shr_record_of_loc_m; lia).
  rewrite shr_record_of_loc_m.
  assert (Hp : Zpos p = digits (Zpos m) - prec) by lia.
  assert (Hs : 1 <= Z.shiftr (Zpos m) (Zpos p)).
  { apply shiftr_keeps_top. unfold prec in *. lia. }
  rewrite digits_shiftr by lia.
  unfold prec in *; lia.
Qed.

Lemma binary_round_aux_finite s m e l :
  emin <= e -> e <= emax - prec -> digits (Zpos m) + e + 1 <= emax ->
  exists m' e', binary_round_aux prec emax s (Zpos m) e l = S754_finite s m' e'.
Proof.
  intros He He' Hmag. unfold binary_round_aux.
  destruct (shr_fexp_pos m e l He) as [H1 H2].
  destruct (shr_fexp_mag m e l He) as [G1 G2].
  destruct (shr_fexp prec emax (Zpos m) e l) as [r1 e1]. simpl in H1, H2, G1, G2.
  pose proof (round_nearest_even_ge (shr_m r1) (loc_of_shr_record r1) H1) as H3.
  pose proof (digits_round (shr_m r1) (loc_of_shr_record r1) H1) as G3.
  destruct (round_nearest_even (shr_m r1) (loc_of_shr_record r1)) as [|q|q]; try lia.
  destruct (shr_fexp_pos q e1 loc_Exact H2) as [H4 H5].
  destruct (shr_fexp_mag q e1 loc_Exact H2) as [G4 G5].
  destruct (shr_fexp prec emax (Zpos q) e1 loc_Exact) as [r2 e2]. simpl in H4, H5, G4, G5.
  destruct (shr_m r2) as [|q2|q2]; try lia.
  destruct (Z.leb_spec e2 (emax - prec)) as [Hle|Hgt].
  - eauto.
  - exfalso. unfold prec, emax in *. lia.
Qed.

Lemma binary_round_finite s m e :
  emin <= e -> e <= emax - prec -> digits (Zpos m) + e + 1 <= emax ->
  exists m' e', binary_round prec emax s m e = S754_finite s m' e'.
Proof.
  intros He He' Hmag. unfold binary_round.
  pose proof (shl_align_val m e (fexp prec emax (Z.pos (digits2_pos m) + e))) as Hv.
  unfold shl_align in *.
  destruct (fexp prec emax (Z.pos (digits2_pos m) + e) - e) eqn:Ed;
    try (apply binary_round_aux_finite; assumption).
  simpl fst in Hv.
  assert (Hfe : emin <= fexp prec emax (Z.pos (digits2_pos m) + e))
    by (unfold fexp; fold emin; lia).
  apply binary_round_aux_finite; try lia.
  rewrite Hv by lia. rewrite digits_mul_pow2 by lia. lia.
Qed.

Lemma aligned_digits m e ez :
  ez <= e -> digits (Zpos (fst (shl_align m e ez))) + ez = digits (Zpos m) + e.
Proof.
  intros H. rewrite shl_align_val by lia. rewrite digits_mul_pow2 by lia. lia.
Qed.

Lemma SFadd_small k x y :
  k + 2 <= emax ->
  valid_binary x = true -> valid_binary y = true ->
  small_sf k x = true -> small_sf k y = true ->
  nonneg_sf (SFadd prec emax x y) = true.
Proof.
  intros Hk Vx Vy Sx Sy.
  destruct x as [[]|[]| |[] mx ex]; try discriminate;
    destruct y as [[]|[]| |[] my ey]; try discriminate; try reflexivity.
  unfold valid_binary in Vx, Vy. simpl in Vx, Vy. unfold bounded in Vx, Vy.
  apply andb_prop in Vx, Vy. destruct Vx as [Cx Bx], Vy as [Cy By].
  apply canonical_emin in Cx, Cy. apply Z.leb_le in Bx, By.
  unfold small_sf in Sx, Sy. apply Z.leb_le in Sx, Sy.
  rewrite digits2_log2 in Sx, Sy.
  fold (digits (Zpos mx)) in Sx. fold (digits (Zpos my)) in Sy.
  unfold SFadd. cbv [cond_Zopp].
  pose proof (aligned_digits mx ex (Z.min ex ey) ltac:(lia)) as Dx.
  pose proof (aligned_digits my ey (Z.min ex ey) ltac:(lia)) as Dy.
  set (Mx := fst (shl_align mx ex (Z.min ex ey))) in *.
  set (My := fst (shl_align my ey (Z.min ex ey))) in *.
  change (Zpos Mx + Zpos My) with (Zpos (Mx + My)).
  simpl binary_normalize.
  destruct (binary_round_finite false (Mx + My) (Z.min ex ey)) as [m' [e' E]]; try lia.
  - pose proof (digits_add (Zpos Mx) (Zpos My) (k - Z.min ex ey) ltac:(lia) ltac:(lia)
                  ltac:(lia) ltac:(lia)) as Hd.
    rewrite Pos2Z.inj_add. lia.
  - rewrite E. reflexivity.
Qed.

(** *** The same facts on numbers *)

Local Open Scope float_scope.

Lemma leb_trans x y z : (x <=? y) = true -> (y <=? z) = true -> (x <=? z) = true.
Proof. rewrite !leb_spec. apply SFleb_trans. Qed.

Lemma ltb_leb x y : (x <? y) = true -> (x <=? y) = true.
Proof.
  rewrite ltb_spec, leb_spec. unfold SFltb, SFleb.
  destruct (SFcompare (Prim2SF x) (Prim2SF y)) as [[]|]; congruence.
Qed.

(** Two finite numbers are comparable. *)
Lemma not_ltb_leb x y : finite x -> finite y -> (y <? x) = false -> (x <=? y) = true.
Proof.
  unfold finite. rewrite ltb_spec, leb_spec. unfold SFltb, SFleb.
  rewrite (SFcompare_antisym (Prim2SF x) (Prim2SF y)).
  destruct (Prim2SF x) as [sx|sx| |sx mx ex]; try discriminate;
    destruct (Prim2SF y) as [sy|sy| |sy my ey]; try discriminate;
    intros _ _; destruct (SFcompare _ _) as [[]|] eqn:E; simpl; try congruence;
    simpl in E; try discriminate;
    destruct sx, sy; discriminate.
Qed.

(** [x - y > 0] exactly when [x > y], for finite numbers. *)
Lemma sub_gtb_zero x y : finite x -> finite y -> gtb (x - y) 0 = (y <? x).
Proof.
  intros Fx Fy. unfold gtb. rewrite !ltb_spec, sub_spec. unfold SFltb.
  change (Prim2SF 0) with (S754_zero false).
  rewrite (SFcompare_antisym (SF64sub (Prim2SF x) (Prim2SF y)) (S754_zero false)).
  unfold SF64sub. rewrite SFsub_compare_zero by (auto using Prim2SF_valid).
  rewrite (SFcompare_antisym (Prim2SF x) (Prim2SF y)). reflexivity.
Qed.

(** A number between two finite bounds is finite. *)
Lemma between_finite lo hi x :
  finite lo -> finite hi -> (lo <=? x) = true -> (x <=? hi) = true -> finite x.
Proof.
  unfold finite. rewrite !leb_spec. unfold SFleb.
  destruct (Prim2SF lo) as [sl|sl| |sl ml el]; try discriminate;
    destruct (Prim2SF hi) as [sh|sh| |sh mh eh]; try discriminate;
    destruct (Prim2SF x) as [s|s| |s m e]; try reflexivity; intros _ _;
    simpl; try destruct s; try destruct sl; try destruct sh; simpl; congruence.
Qed.

Lemma add_small a b :
  small a = true -> small b = true -> (0 <=? a + b) = true /\ finite (a + b).
Proof.
  unfold small, finite. intros Ha Hb.
  pose proof (SFadd_small 13 (Prim2SF a) (Prim2SF b) ltac:(unfold emax; lia)
                (Prim2SF_valid a) (Prim2SF_valid b) Ha Hb) as H.
  rewrite leb_spec, add_spec. unfold SF64add.
  change (Prim2SF 0) with (S754_zero false).
  destruct (SFadd prec emax (Prim2SF a) (Prim2SF b)) as [[]|[]| |[] m e];
    try discriminate; split; reflexivity.
Qed.

End NumberFacts.

(** ** The scroll interpolator *)

Section ScrollInterpolator.
Import Js Timeline.
Local Open Scope float_scope.

Lemma scroll_ticks_add n k a s :
  scroll_ticks (n + k) a s = scroll_ticks k a (scroll_ticks n a s).
Proof.
  revert s. induction n as [|n IH]; intros s; simpl; [reflexivity|apply IH].
Qed.

(** Once the smoothed index is the target it stays there. *)
Lemma scroll_ticks_rest k : scroll_ticks k 3 3 = 3.
Proof.
  induction k as [|k IH]; [reflexivity|].
  simpl. replace (scroll_step 3 3) with 3 by (vm_compute; reflexivity). exact IH.
Qed.

(** From 0 towards 3 the damped steps need 76 ticks to come within 0.001
    and not fewer; the 77th tick is the micro snap. *)
Lemma scroll_ticks_0_3 :
  (Math_abs (3 - scroll_ticks 75 3 0) <? 0.001) = false /\
  (Math_abs (3 - scroll_ticks 76 3 0) <? 0.001) = true /\
  scroll_ticks 77 3 0 = 3.
Proof. vm_compute. repeat split. Qed.

(** C4. The step snaps to the target when it is more than 10 away or
    less than 0.001 away and moves a tenth of the way otherwise; from 0
    with target 3 every tick from the 76th on is within 0.001 of 3 (from
    the 77th on the smoothed index is 3); a step whose difference is 15
    snaps. *)
Theorem scroll_step_spec :
  (forall a s, gtb (Math_abs (of_Z a - s)) 10 = true -> scroll_step a s = of_Z a) /\
  (forall a s, (Math_abs (of_Z a - s) <? 0.001) = true -> scroll_step a s = of_Z a) /\
  (forall a s, gtb (Math_abs (of_Z a - s)) 10 = false ->
               (Math_abs (of_Z a - s) <? 0.001) = false ->
               scroll_step a s = s + (of_Z a - s) * 0.1) /\
  (forall n, (76 <= n)%nat ->
             (Math_abs (of_Z 3 - scroll_ticks n 3 0) <? 0.001) = true) /\
  (forall n, (77 <= n)%nat -> scroll_ticks n 3 0 = of_Z 3) /\
  (forall a s, of_Z a - s = 15 -> scroll_step a s = of_Z a).
Proof.
  repeat split.
  - intros a s H. unfold scroll_step. rewrite H. reflexivity.
  - intros a s H. unfold scroll_step. rewrite H. destruct (gtb _ _); reflexivity.
  - intros a s H1 H2. unfold scroll_step. rewrite H1, H2. reflexivity.
  - intros n Hn. destruct (Nat.eq_dec n 76) as [->|Hne].
    + apply scroll_ticks_0_3.
    + replace n with (77 + (n - 77))%nat by lia.
      rewrite scroll_ticks_add.
      replace (scroll_ticks 77 3 0) with 3 by (symmetry; apply scroll_ticks_0_3).
      rewrite scroll_ticks_rest. vm_compute. reflexivity.
  - intros n Hn. replace n with (77 + (n - 77))%nat by lia.
    rewrite scroll_ticks_add.
    replace (scroll_ticks 77 3 0) with 3 by (symmetry; apply scroll_ticks_0_3).
    apply scroll_ticks_rest.
  - intros a s H. unfold scroll_step. rewrite H. reflexivity.
Qed.

Lemma scroll_step_spec_witness :
  of_Z 15 - 0 = 15 /\ scroll_step 15 0 = of_Z 15 /\
  scroll_ticks 80 3 0 = of_Z 3.
Proof.
  split; [reflexivity|]. split.
  - apply (proj2 (proj2 (proj2 (proj2 (proj2 scroll_step_spec)))) 15%Z 0).
    reflexivity.
  - apply (proj1 (proj2 (proj2 (proj2 (proj2 scroll_step_spec)))) 80%nat).
    repeat constructor.
Defined.

End ScrollInterpolator.

(** ** The active index *)

Section ActiveIndex.
Import Js Binary64 Lrc Timeline NumberFacts.
Local Open Scope Z_scope.

Lemma activeIndex_loop_passed t lyrics : forall i act,
  activeIndex_loop t lyrics i act =
  match passed t lyrics with
  | O => act
  | S k => i + Z.of_nat k
  end.
Proof.
  induction lyrics as [|l rest IH]; intros i act; simpl; [reflexivity|].
  destruct (geb t (time l)); [|reflexivity].
  rewrite IH. destruct (passed t rest); lia.
Qed.

Lemma activeIndex_passed t lyrics :
  activeIndex t lyrics = Z.of_nat (Nat.pred (passed t lyrics)).
Proof.
  unfold activeIndex. rewrite activeIndex_loop_passed.
  destruct (passed t lyrics); simpl; lia.
Qed.

Lemma passed_length t lyrics : (passed t lyrics <= List.length lyrics)%nat.
Proof.
  induction lyrics as [|l rest IH]; simpl; [lia|].
  destruct (geb t (time l)); lia.
Qed.

(** Every cue the scan passed is at or before [t]. *)
Lemma passed_qualify t lyrics : forall j c,
  (j < passed t lyrics)%nat -> nth_error lyrics j = Some c -> geb t (time c) = true.
Proof.
  induction lyrics as [|l rest IH]; intros j c Hj Hc; simpl in *; [lia|].
  destruct (geb t (time l)) eqn:E; [|lia].
  destruct j as [|j]; simpl in Hc.
  - injection Hc as <-. exact E.
  - apply (IH j); [lia|exact Hc].
Qed.

(** In a sorted timeline no cue behind the break is at or before [t]. *)
Lemma passed_rest_fail t lyrics : time_sorted lyrics -> forall j c,
  (passed t lyrics <= j)%nat -> nth_error lyrics j = Some c -> geb t (time c) = false.
Proof.
  induction 1 as [|l rest Hs IH Hl]; intros j c Hj Hc.
  - destruct j; discriminate.
  - simpl in Hj. destruct (geb t (time l)) eqn:E.
    + destruct j as [|j]; [lia|]. simpl in Hc. apply (IH j); [lia|exact Hc].
    + destruct j as [|j]; simpl in Hc.
      * injection Hc as <-. exact E.
      * apply nth_error_In in Hc.
        rewrite Forall_forall in Hl. specialize (Hl c Hc).
        destruct (geb t (time c)) eqn:Ec; [|reflexivity].
        unfold geb in *. rewrite (leb_trans _ _ _ Hl Ec) in E. discriminate.
Qed.

Lemma passed_mono t t' lyrics :
  (t <=? t')%float = true -> (passed t lyrics <= passed t' lyrics)%nat.
Proof.
  intros Ht. induction lyrics as [|l rest IH]; simpl; [lia|].
  destruct (geb t (time l)) eqn:E; [|lia].
  unfold geb in *. rewrite (leb_trans _ _ _ E Ht). lia.
Qed.

Lemma passed_none t lyrics :
  (forall c, In c lyrics -> geb t (time c) = false) -> passed t lyrics = O.
Proof.
  destruct lyrics as [|l rest]; intros H; simpl; [reflexivity|].
  rewrite (H l) by (left; reflexivity). reflexivity.
Qed.

Lemma passed_some t lyrics :
  time_sorted lyrics -> (exists c, In c lyrics /\ geb t (time c) = true) ->
  (0 < passed t lyrics)%nat.
Proof.
  intros Hs [c [Hin Hc]].
  destruct (passed t lyrics) eqn:E; [|lia].
  apply In_nth_error in Hin. destruct Hin as [j Hj].
  rewrite (passed_rest_fail t lyrics Hs j c) in Hc; [discriminate|lia|exact Hj].
Qed.

(** C1, as the code has it. The lookup never yields a negative index: on
    the empty timeline, and whenever no cue is at or before [t], it yields
    0. On a sorted timeline with a cue at or before [t] it yields the
    index of the last such cue. It is monotone in [t] on every timeline. *)
Theorem activeIndex_spec : forall (lyrics : list LyricLine) (t : number),
  0 <= activeIndex t lyrics /\
  activeIndex t [] = 0 /\
  ((forall c, In c lyrics -> geb t (time c) = false) -> activeIndex t lyrics = 0) /\
  (time_sorted lyrics ->
   (exists c, In c lyrics /\ geb t (time c) = true) ->
   exists c, nth_error lyrics (Z.to_nat (activeIndex t lyrics)) = Some c /\
     geb t (time c) = true /\
     forall j c', (Z.to_nat (activeIndex t lyrics) < j)%nat ->
       nth_error lyrics j = Some c' -> geb t (time c') = false) /\
  (forall t', (t <=? t')%float = true -> activeIndex t lyrics <= activeIndex t' lyrics).
Proof.
  intros lyrics t. rewrite !activeIndex_passed. repeat split.
  - lia.
  - intros H. rewrite (passed_none t lyrics H). reflexivity.
  - intros Hs Hex. pose proof (passed_some t lyrics Hs Hex) as Hp.
    pose proof (passed_length t lyrics) as Hl.
    rewrite Nat2Z.id.
    destruct (nth_error lyrics (Nat.pred (passed t lyrics))) as [c|] eqn:Hc.
    + exists c. repeat split.
      * apply (passed_qualify t lyrics (Nat.pred (passed t lyrics)) c); [lia|exact Hc].
      * intros j c' Hj Hc'. apply (passed_rest_fail t lyrics Hs j c'); [lia|exact Hc'].
    + apply nth_error_None in Hc. lia.
  - intros t' Ht. rewrite activeIndex_passed. pose proof (passed_mono t t' lyrics Ht). lia.
Qed.

Lemma activeIndex_spec_witness :
  exists c, nth_error two_cues (Z.to_nat (activeIndex 5 two_cues)) = Some c /\
    geb 5 (time c) = true.
Proof.
  destruct (proj1 (proj2 (proj2 (proj2 (activeIndex_spec two_cues 5%float)))))
    as [c [H1 [H2 _]]].
  - repeat constructor.
  - exists {| time := 1; text := lit "a" |}. split; [left; reflexivity|reflexivity].
  - exists c. split; assumption.
Defined.

(** The claim's sentinel: the lookup on the empty timeline is 0, not -1. *)
Lemma activeIndex_empty_is_not_sentinel :
  activeIndex 0 [] = 0 /\
  ~ (activeIndex 0 [] = -1 <-> @nil LyricLine = []).
Proof.
  split; [reflexivity|]. intros [_ H]. specialize (H eq_refl). discriminate H.
Qed.

End ActiveIndex.

(** ** The parser *)

Section Parser.
Import Js Binary64 Lrc NumberFacts.

Lemma split_no_sep sep s : ~ In sep s -> split sep s = [s].
Proof.
  induction s as [|c s IH]; intros H; simpl; [reflexivity|].
  destruct (N.eqb_spec c sep) as [->|Hne].
  - exfalso. apply H. left. reflexivity.
  - rewrite IH; [reflexivity|]. intros Hin. apply H. right. exact Hin.
Qed.

Lemma parse_line_app result line : parse_line result line = result ++ line_cues line.
Proof.
  unfold line_cues, parse_line.
  destruct (timeReg_exec line) as [[[before g] after]|]; [|symmetry; apply app_nil_r].
  destruct (truthy _); [reflexivity|symmetry; apply app_nil_r].
Qed.

Lemma fold_parse_line lines : forall result,
  fold_left parse_line lines result = result ++ flat_map line_cues lines.
Proof.
  induction lines as [|line lines IH]; intros result; simpl.
  - symmetry. apply app_nil_r.
  - rewrite IH, parse_line_app, <- app_assoc. reflexivity.
Qed.

Lemma truthy_nonempty (s : jsstring) : s <> [] -> truthy s = true.
Proof. destruct s; [congruence|reflexivity]. Qed.

Lemma timeReg_exec_tagged m1 m2 s1 s2 sep f rest :
  is_digit m1 = true -> is_digit m2 = true ->
  is_digit s1 = true -> is_digit s2 = true ->
  sep = 46%N \/ sep = 58%N ->
  forallb is_digit f = true -> List.length f = 2%nat \/ List.length f = 3%nat ->
  timeReg_exec (tagged m1 m2 s1 s2 sep f rest) =
  Some ([], {| mm := [m1; m2]; ss := [s1; s2]; frac := f |}, rest).
Proof.
  intros Hm1 Hm2 Hs1 Hs2 Hsep Hf Hlen.
  assert (Esep : ((sep =? 46) || (sep =? 58))%N = true).
  { destruct Hsep as [-> | ->]; reflexivity. }
  destruct f as [|f1 [|f2 [|f3 [|f4 f]]]]; simpl in Hlen; try (exfalso; lia).
  - simpl in Hf. apply andb_prop in Hf. destruct Hf as [Hf1 Hf].
    apply andb_prop in Hf. destruct Hf as [Hf2 _].
    unfold tagged. cbn [app timeReg_exec timeReg_at].
    rewrite Hm1, Hm2, Hs1, Hs2, Esep, Hf1, Hf2. reflexivity.
  - simpl in Hf. apply andb_prop in Hf. destruct Hf as [Hf1 Hf].
    apply andb_prop in Hf. destruct Hf as [Hf2 Hf].
    apply andb_prop in Hf. destruct Hf as [Hf3 _].
    unfold tagged. cbn [app timeReg_exec timeReg_at].
    rewrite Hm1, Hm2, Hs1, Hs2, Esep, Hf1, Hf2, Hf3. reflexivity.
Qed.

End Parser.

(** *** Every time the parser builds is finite and not negative

    The groups of a match are two, two and two or three decimal digits.
    The whole seconds and the fraction are evaluated for all of them; the
    sum of the two cannot overflow. *)

Section ParserTimes.
Import Js Binary64 Lrc NumberFacts.
Local Open Scope Z_scope.

Lemma all_from_spec n : forall z p, all_from n z p = true ->
  forall k, z <= k < z + Z.of_nat n -> p k = true.
Proof.
  induction n as [|n IH]; intros z p H k Hk; [lia|].
  simpl in H. apply andb_prop in H. destruct H as [Hz Hrest].
  destruct (Z.eq_dec k z) as [->|Hne]; [exact Hz|].
  apply (IH (z + 1) p Hrest). lia.
Qed.

Lemma whole_check : all_from 100 0 whole_row = true.
Proof. vm_compute. reflexivity. Qed.

Lemma part_check : forall three, all_from 1000 0 (fun f => small (part three f)) = true.
Proof. intros []; vm_compute; reflexivity. Qed.

Lemma whole_small m s : 0 <= m < 100 -> 0 <= s < 100 -> small (whole m s) = true.
Proof.
  intros Hm Hs.
  pose proof (all_from_spec 100 0 whole_row whole_check m ltac:(lia)) as H.
  exact (all_from_spec 100 0 (fun s => small (whole m s)) H s ltac:(lia)).
Qed.

Lemma part_small three f : 0 <= f < 1000 -> small (part three f) = true.
Proof.
  intros Hf.
  exact (all_from_spec 1000 0 (fun f => small (part three f)) (part_check three) f
           ltac:(lia)).
Qed.

Lemma is_digit_val c : is_digit c = true -> 0 <= Z.of_N (c - 48) <= 9.
Proof.
  unfold is_digit. intros H. apply andb_prop in H. destruct H as [H1 H2].
  apply N.leb_le in H1, H2. lia.
Qed.

Lemma timeReg_at_groups s g rest : timeReg_at s = Some (g, rest) -> digit_groups g.
Proof.
  unfold timeReg_at.
  destruct s as [|lb [|m1 [|m2 [|c1 [|s1 [|s2 [|sep [|f1 [|f2 r]]]]]]]]]; try discriminate.
  destruct (_ && _) eqn:E; [|discriminate].
  repeat (apply andb_prop in E; destruct E as [E ?]).
  destruct r as [|f3 r']; [discriminate|].
  destruct (is_digit f3) eqn:E3.
  - destruct r' as [|rb r'']; [discriminate|].
    destruct (rb =? 93)%N; [|discriminate].
    intros [= <- <-]. exists m1, m2, s1, s2. simpl.
    rewrite E3. repeat split; try assumption.
    + rewrite H, H0. reflexivity.
    + right. reflexivity.
  - destruct (f3 =? 93)%N; [|discriminate].
    intros [= <- <-]. exists m1, m2, s1, s2. simpl.
    repeat split; try assumption.
    + rewrite H, H0. reflexivity.
    + left. reflexivity.
Qed.

Lemma timeReg_exec_cons c line :
  timeReg_exec (c :: line) =
  match timeReg_at (c :: line) with
  | Some (g, after) => Some ([], g, after)
  | None =>
      match timeReg_exec line with
      | Some (before, g, after) => Some (c :: before, g, after)
      | None => None
      end
  end.
Proof. reflexivity. Qed.

Lemma timeReg_exec_groups line : forall before g after,
  timeReg_exec line = Some (before, g, after) -> digit_groups g.
Proof.
  induction line as [|c line IH]; intros before g after H.
  - simpl in H. discriminate.
  - rewrite timeReg_exec_cons in H.
    destruct (timeReg_at (c :: line)) as [[g' after']|] eqn:E.
    + assert (g' = g) by congruence. subst g'. exact (timeReg_at_groups _ _ _ E).
    + destruct (timeReg_exec line) as [[[b' g'] a']|]; [|discriminate].
      assert (g' = g) by congruence. subst g'. exact (IH _ _ _ eq_refl).
Qed.

Lemma totalSeconds_nonneg_finite g :
  digit_groups g -> (0 <=? totalSeconds g)%float = true /\ finite (totalSeconds g).
Proof.
  intros (m1 & m2 & s1 & s2 & Em & Es & Hm1 & Hm2 & Hs1 & Hs2 & Hf & Hlen).
  unfold totalSeconds. rewrite Em, Es.
  apply is_digit_val in Hm1, Hm2, Hs1, Hs2.
  fold (whole (parseInt10 [m1; m2]) (parseInt10 [s1; s2])).
  fold (part (List.length (frac g) =? 3)%nat (parseInt10 (frac g))).
  apply add_small.
  - apply whole_small; unfold parseInt10; simpl; lia.
  - apply part_small.
    destruct (frac g) as [|f1 [|f2 [|f3 [|f4 f]]]]; simpl in Hlen; try (exfalso; lia).
    + simpl in Hf. apply andb_prop in Hf. destruct Hf as [Hf1 Hf].
      apply andb_prop in Hf. destruct Hf as [Hf2 _].
      apply is_digit_val in Hf1, Hf2. unfold parseInt10; simpl; lia.
    + simpl in Hf. apply andb_prop in Hf. destruct Hf as [Hf1 Hf].
      apply andb_prop in Hf. destruct Hf as [Hf2 Hf].
      apply andb_prop in Hf. destruct Hf as [Hf3 _].
      apply is_digit_val in Hf1, Hf2, Hf3. unfold parseInt10; simpl; lia.
Qed.

End ParserTimes.

(** *** The sort *)

Section Sorting.
Import Js Binary64 Lrc NumberFacts.

Lemma sort_insert_perm {A} (compareFn : A -> A -> number) x l :
  Permutation (sort_insert compareFn x l) (x :: l).
Proof.
  induction l as [|y l IH]; simpl; [reflexivity|].
  destruct (gtb (compareFn x y) 0); [|reflexivity].
  rewrite IH. apply perm_swap.
Qed.

Lemma Array_sort_perm {A} (compareFn : A -> A -> number) l :
  Permutation (Array_sort compareFn l) l.
Proof.
  induction l as [|x l IH]; simpl; [reflexivity|].
  rewrite sort_insert_perm. apply perm_skip. exact IH.
Qed.

Lemma Forall_perm {A} (P : A -> Prop) l l' :
  Permutation l l' -> Forall P l -> Forall P l'.
Proof.
  intros Hp H. apply Forall_forall. intros x Hx.
  rewrite Forall_forall in H. apply H.
  exact (Permutation_in _ (Permutation_sym Hp) Hx).
Qed.

Lemma le_time_trans a b c : le_time a b -> le_time b c -> le_time a c.
Proof. unfold le_time. apply leb_trans. Qed.

Lemma sort_insert_sorted x l :
  finite_time x -> Forall finite_time l -> time_sorted l ->
  time_sorted (sort_insert by_time x l).
Proof.
  intros Fx Fl Hs. induction Hs as [|y l Hs IH Hy]; simpl.
  - repeat constructor.
  - apply Forall_cons_iff in Fl. destruct Fl as [Fy Fl].
    unfold by_time at 1. rewrite sub_gtb_zero by assumption.
    destruct (time y <? time x)%float eqn:E.
    + constructor; [exact (IH Fl)|].
      apply (Forall_perm _ (x :: l)).
      * symmetry. apply sort_insert_perm.
      * constructor; [exact (ltb_leb _ _ E)|exact Hy].
    + assert (Hxy : le_time x y) by (apply not_ltb_leb; assumption).
      constructor; [constructor; assumption|].
      constructor; [exact Hxy|].
      eapply Forall_impl; [|exact Hy].
      intros c Hc. exact (le_time_trans _ _ _ Hxy Hc).
Qed.

Lemma Array_sort_sorted l :
  Forall finite_time l -> time_sorted (Array_sort by_time l).
Proof.
  induction l as [|x l IH]; intros Fl; simpl; [constructor|].
  apply Forall_cons_iff in Fl. destruct Fl as [Fx Fl].
  apply sort_insert_sorted; [exact Fx| |exact (IH Fl)].
  apply (Forall_perm _ l); [symmetry; apply Array_sort_perm|exact Fl].
Qed.

(** What one line contributes. *)
Lemma line_cues_cases line :
  match timeReg_exec line with
  | None => line_cues line = []
  | Some (before, g, after) =>
      digit_groups g /\
      (trim (before ++ after) = [] -> line_cues line = []) /\
      (trim (before ++ after) <> [] ->
       line_cues line = [{| time := totalSeconds g; text := trim (before ++ after) |}])
  end.
Proof.
  unfold line_cues, parse_line.
  destruct (timeReg_exec line) as [[[before g] after]|] eqn:E; [|reflexivity].
  split; [exact (timeReg_exec_groups _ _ _ _ E)|].
  destruct (trim (before ++ after)); simpl; split; congruence.
Qed.

Lemma line_cues_good line c :
  In c (line_cues line) ->
  text c <> [] /\ (0 <=? time c)%float = true /\ finite (time c).
Proof.
  pose proof (line_cues_cases line) as H.
  destruct (timeReg_exec line) as [[[before g] after]|].
  - destruct H as [Hg [H0 H1]].
    destruct (trim (before ++ after)) as [|ch t] eqn:Et.
    + rewrite H0 by reflexivity. intros [].
    + rewrite H1 by discriminate. intros [<-|[]]. simpl.
      split; [discriminate|]. apply totalSeconds_nonneg_finite. exact Hg.
  - rewrite H. intros [].
Qed.

Lemma parseLrc_perm lrcContent :
  Permutation (parseLrc lrcContent) (flat_map line_cues (split 10%N lrcContent)).
Proof.
  unfold parseLrc. rewrite fold_parse_line. simpl app. apply Array_sort_perm.
Qed.

Lemma parseLrc_good lrcContent c :
  In c (parseLrc lrcContent) ->
  text c <> [] /\ (0 <=? time c)%float = true /\ finite (time c).
Proof.
  intros Hin. apply (Permutation_in _ (parseLrc_perm lrcContent)) in Hin.
  apply in_flat_map in Hin. destruct Hin as [line [_ Hc]].
  exact (line_cues_good line c Hc).
Qed.

End Sorting.

(** ** The colour of a lyric line *)

Section LineColour.
Import Js Types Renderer.
Local Open Scope float_scope.

(** C7 fails in both copies of [renderFrame]. The factor of the blend is
    [|distance| * 1.66], which is 0.996 and not 1 where the blend ends:
    a line that is drawn at a distance below 0.6 is filled with the
    blend by that factor, and from 0.6 on with the secondary colour.
    Between black and white, the line at distance 0.5 is drawn in
    [rgb(212, 212, 212)] where the normalised factor of the claim, and
    the division by 0.6, give [rgb(213, 213, 213)]; and at the last
    distance below 0.6 the line is drawn in [rgb(254, 254, 254)], where
    the claim has the secondary colour reached, so that the colour
    jumps at 0.6. *)
Theorem line_style_fill_not_normalized :
  (forall settings lyricsOpacity smoothActiveIndex i st,
     line_style settings lyricsOpacity smoothActiveIndex i = Some st ->
     let absDist := Math_abs (of_Z i - smoothActiveIndex) in
     fill st = if absDist <? 0.6
               then interpolateColor (primaryColor settings) (secondaryColor settings)
                      (absDist * 1.66)
               else Css (secondaryColor settings)) /\
  (0.6 * 1.66 <? 1) = true /\ (1 <=? 0.6 * 1.667) = true /\
  drawn_fill black_on_white (Some 1) 0.5 1 = Some (Rgb 212 212 212) /\
  normalized_fill black_on_white 0.5 1 = Rgb 213 213 213 /\
  normalized_fill_by_division black_on_white 0.5 1 = Rgb 213 213 213 /\
  next_up below_0_6 = 0.6 /\
  drawn_fill black_on_white (Some 1) below_0_6 0 = Some (Rgb 254 254 254) /\
  normalized_fill black_on_white below_0_6 0 = Rgb 255 255 255 /\
  normalized_fill_by_division black_on_white below_0_6 0 = Rgb 255 255 255 /\
  drawn_fill black_on_white (Some 1) 0.6 0 = Some (Css (lit "#ffffff")).
Proof.
  split.
  - intros settings lyricsOpacity s i st. unfold line_style.
    destruct (_ <=? 0.01); [discriminate|].
    intros [= <-]. reflexivity.
  - repeat split; vm_compute; reflexivity.
Qed.

End LineColour.

(** ** Word wrap *)

Section WordWrap.
Import Js Renderer.

Lemma split_nonempty sep s : split sep s <> [].
Proof.
  destruct s as [|c s]; simpl; [discriminate|].
  destruct (c =? sep)%N; [discriminate|].
  destruct (split sep s); discriminate.
Qed.

(** Joining the words of a split with the separator gives the string
    back. *)
Lemma join_split s : join space (split 32%N s) = s.
Proof.
  induction s as [|c s IH]; [reflexivity|].
  simpl split. destruct (N.eqb_spec c 32) as [->|Hne].
  - pose proof (split_nonempty 32%N s) as Hn.
    destruct (split 32%N s) as [|w ws] eqn:E; [congruence|].
    change (join space ([] :: w :: ws)) with (32%N :: join space (w :: ws)).
    rewrite IH. reflexivity.
  - pose proof (split_nonempty 32%N s) as Hn.
    destruct (split 32%N s) as [|w ws] eqn:E; [congruence|].
    rewrite <- IH. destruct ws; reflexivity.
Qed.

Lemma join_snoc g w : g <> [] -> join space (g ++ [w]) = join space g ++ space ++ w.
Proof.
  induction g as [|x g IH]; intros Hg; [congruence|].
  destruct g as [|y g]; [reflexivity|].
  change (join space ((x :: y :: g) ++ [w]))
    with (x ++ space ++ join space ((y :: g) ++ [w])).
  rewrite IH by discriminate.
  change (join space (x :: y :: g)) with (x ++ space ++ join space (y :: g)).
  rewrite <- !app_assoc. reflexivity.
Qed.

Lemma join_app g h :
  g <> [] -> h <> [] -> join space (g ++ h) = join space g ++ space ++ join space h.
Proof.
  induction g as [|x g IH]; intros Hg Hh; [congruence|].
  destruct g as [|y g].
  - destruct h; [congruence|reflexivity].
  - change (join space ((x :: y :: g) ++ h))
      with (x ++ space ++ join space ((y :: g) ++ h)).
    rewrite IH by (assumption || discriminate).
    change (join space (x :: y :: g)) with (x ++ space ++ join space (y :: g)).
    rewrite <- !app_assoc. reflexivity.
Qed.

Lemma join_concat groups :
  Forall (fun g => g <> []) groups ->
  join space (map (join space) groups) = join space (List.concat groups).
Proof.
  induction 1 as [|g groups Hg Hgs IH]; [reflexivity|].
  destruct groups as [|h groups]; simpl List.concat.
  - rewrite app_nil_r. reflexivity.
  - change (join space (map (join space) (g :: h :: groups)))
      with (join space g ++ space ++ join space (map (join space) (h :: groups))).
    rewrite IH. rewrite join_app; [reflexivity|assumption|].
    apply Forall_inv in Hgs. simpl. destruct h; [congruence|discriminate].
Qed.

Variable measureText : jsstring -> number.
Variable maxWidth : number.

Local Abbreviation group_loop := (group_loop measureText maxWidth).
Local Abbreviation fits := (fits measureText maxWidth).

Lemma wrap_loop_groups words : forall groups current,
  current <> [] ->
  wrap_loop measureText maxWidth words (map (join space) groups) (join space current)
  = map (join space) (group_loop words groups current).
Proof.
  induction words as [|word rest IH]; intros groups current Hc;
    cbn [wrap_loop group_loop].
  - rewrite map_app. reflexivity.
  - change (lit " ") with space. rewrite <- (join_snoc current word Hc).
    destruct (_ <? _)%float.
    + apply IH. destruct current; discriminate.
    + rewrite <- (IH (groups ++ [current]) [word]) by discriminate.
      rewrite map_app. reflexivity.
Qed.

Lemma group_loop_concat words : forall groups current,
  List.concat (group_loop words groups current) = List.concat groups ++ current ++ words.
Proof.
  induction words as [|word rest IH]; intros groups current; simpl.
  - rewrite concat_app. simpl. rewrite !app_nil_r. reflexivity.
  - destruct (_ <? _)%float; rewrite IH.
    + rewrite <- app_assoc. reflexivity.
    + rewrite concat_app. simpl. rewrite app_nil_r, <- app_assoc. reflexivity.
Qed.

Lemma group_loop_fits words : forall groups current,
  Forall fits groups -> fits current ->
  Forall fits (group_loop words groups current).
Proof.
  induction words as [|word rest IH]; intros groups current Hg Hc; simpl.
  - apply Forall_app. split; [assumption|]. constructor; [assumption|constructor].
  - destruct (_ <? _)%float eqn:E.
    + apply IH; [assumption|left; exact E].
    + apply IH.
      * apply Forall_app. split; [assumption|]. constructor; [assumption|constructor].
      * right. exists word. reflexivity.
Qed.

Lemma group_loop_nonempty words : forall groups current,
  Forall (fun g => g <> []) groups -> current <> [] ->
  Forall (fun g => g <> []) (group_loop words groups current).
Proof.
  induction words as [|word rest IH]; intros groups current Hg Hc; simpl.
  - apply Forall_app. split; [assumption|]. constructor; [assumption|constructor].
  - destruct (_ <? _)%float.
    + apply IH; [assumption|destruct current; discriminate].
    + apply IH; [|discriminate].
      apply Forall_app. split; [assumption|]. constructor; [assumption|constructor].
Qed.

(** The lines are the joined groups of the words of the text. *)
Lemma getWrappedLines_groups text :
  exists groups,
    getWrappedLines measureText maxWidth text = map (join space) groups /\
    List.concat groups = split 32%N text /\
    Forall (fun g => g <> []) groups /\
    Forall fits groups.
Proof.
  unfold getWrappedLines.
  pose proof (split_nonempty 32%N text) as Hn.
  destruct (split 32%N text) as [|first rest]; [congruence|].
  exists (group_loop rest [] [first]). repeat split.
  - apply (wrap_loop_groups rest [] [first]). discriminate.
  - rewrite group_loop_concat. reflexivity.
  - apply group_loop_nonempty; [constructor|discriminate].
  - apply group_loop_fits; [constructor|]. right. exists first. reflexivity.
Qed.

End WordWrap.

Section WordWrapClaims.
Import Js Renderer.

(** C8. For every text, width and measure (monotone or not), the lines
    are the words of the text in order, cut into non-empty runs and each
    run joined by single spaces, so no word is split; and a line that
    does not measure less than the width is a single word of the text. *)
Theorem getWrappedLines_widths :
  forall (measureText : jsstring -> number) (maxWidth : number) (text : jsstring),
  (exists groups,
     getWrappedLines measureText maxWidth text = map (join space) groups /\
     List.concat groups = split 32%N text /\
     Forall (fun g => g <> []) groups /\
     Forall (fun g => (measureText (join space g) <? maxWidth)%float = true \/
                      exists w, g = [w]) groups) /\
  (forall line, In line (getWrappedLines measureText maxWidth text) ->
     (measureText line <? maxWidth)%float = false ->
     In line (split 32%N text)).
Proof.
  intros measureText maxWidth text.
  destruct (getWrappedLines_groups measureText maxWidth text)
    as [groups [Hl [Hc [Hn Hf]]]].
  split; [exists groups; repeat split; assumption|].
  intros line Hin Hw. rewrite Hl in Hin. apply in_map_iff in Hin.
  destruct Hin as [g [<- Hg]].
  rewrite Forall_forall in Hf. destruct (Hf g Hg) as [Hlt|[w ->]].
  - rewrite Hlt in Hw. discriminate.
  - rewrite <- Hc. apply in_concat. exists [w]. split; [exact Hg|left; reflexivity].
Qed.

Lemma getWrappedLines_widths_witness :
  getWrappedLines ten_per_char 50 (lit "aa bbbbbbbb c d")
  = [lit "aa"; lit "bbbbbbbb"; lit "c d"] /\
  In (lit "bbbbbbbb") (split 32%N (lit "aa bbbbbbbb c d")).
Proof.
  split; [vm_compute; reflexivity|].
  apply (proj2 (getWrappedLines_widths ten_per_char 50 (lit "aa bbbbbbbb c d"))).
  - vm_compute. right. left. reflexivity.
  - vm_compute. reflexivity.
Defined.

(** C10. The word wrap returns at least one line, and the lines joined
    by single spaces are the text. *)
Theorem getWrappedLines_join :
  forall (measureText : jsstring -> number) (maxWidth : number) (text : jsstring),
  getWrappedLines measureText maxWidth text <> [] /\
  join space (getWrappedLines measureText maxWidth text) = text.
Proof.
  intros measureText maxWidth text.
  destruct (getWrappedLines_groups measureText maxWidth text)
    as [groups [Hl [Hc [Hn Hf]]]].
  pose proof (split_nonempty 32%N text) as Hs.
  rewrite Hl. split.
  - destruct groups; [simpl in Hc; congruence|discriminate].
  - rewrite (join_concat groups Hn), Hc. apply join_split.
Qed.

End WordWrapClaims.

(** ** The bokeh overlay *)

Section BokehDeterminism.
Import Js Types Renderer Bokeh.

Variable Math_sin Math_cos : number -> number.
Variables (width height time : number) (settings : AppSettings).
Variable placeholder : bool.

Local Abbreviation particle := (particle Math_sin Math_cos width height time settings).
Local Abbreviation draw_particle :=
  (draw_particle Math_sin Math_cos width height time settings placeholder).
Local Abbreviation bokeh_loop :=
  (bokeh_loop Math_sin Math_cos width height time settings placeholder).
Local Abbreviation drawBokeh :=
  (drawBokeh Math_sin Math_cos width height time settings placeholder).
Local Abbreviation particle_paint :=
  (particle_paint Math_sin Math_cos width height time settings).
Local Abbreviation new_paints :=
  (new_paints Math_sin Math_cos width height time settings placeholder).

(** One turn of the loop adds one fill and leaves the rest of the context
    but the fill style; the placeholder is overwritten before the fill. *)
Lemma draw_particle_spec i ctx :
  globalCompositeOperation (state ctx) = lit "screen" ->
  painted (draw_particle i ctx)
  = painted ctx
    ++ [particle_paint (Bokeh.globalAlpha (state ctx)) (filter (state ctx)) i] /\
  stack (draw_particle i ctx) = stack ctx /\
  globalCompositeOperation (state (draw_particle i ctx)) = lit "screen" /\
  Bokeh.globalAlpha (state (draw_particle i ctx)) = Bokeh.globalAlpha (state ctx) /\
  filter (state (draw_particle i ctx)) = filter (state ctx).
Proof.
  intros Hop. unfold Bokeh.draw_particle, Bokeh.particle_paint.
  destruct (placeholder && bokehAutoColor settings);
    cbn [painted stack state fill beginPath arc set_fillStyle path
         globalCompositeOperation Bokeh.globalAlpha filter fillStyle];
    rewrite Hop; repeat split.
Qed.

Lemma bokeh_loop_spec n : forall i ctx,
  globalCompositeOperation (state ctx) = lit "screen" ->
  painted (bokeh_loop n i ctx)
  = painted ctx
    ++ map (particle_paint (Bokeh.globalAlpha (state ctx)) (filter (state ctx)))
         (indices i n) /\
  stack (bokeh_loop n i ctx) = stack ctx.
Proof.
  induction n as [|n IH]; intros i ctx Hop; simpl.
  - rewrite app_nil_r. split; reflexivity.
  - destruct (draw_particle_spec i ctx Hop) as (Hd & Hk & Hop' & Ha & Hf).
    destruct (IH (i + 1)%Z (draw_particle i ctx) Hop') as [Hp Hs].
    rewrite Hp, Hs, Hd, Hk, Ha, Hf, <- app_assoc. split; reflexivity.
Qed.

(** What one call paints, and that it leaves the drawing state and the
    stack of saved states as it found them. *)
Lemma restore_pushed c s rest :
  stack c = s :: rest ->
  restore c = {| state := s; stack := rest; path := path c; painted := painted c |}.
Proof. unfold restore. intros ->. reflexivity. Qed.

Lemma drawBokeh_paints ctx :
  painted (drawBokeh ctx)
  = painted ctx
    ++ map (particle_paint (Bokeh.globalAlpha (state ctx)) (filter (state ctx)))
         (indices 0 particleCount) /\
  state (drawBokeh ctx) = state ctx /\
  stack (drawBokeh ctx) = stack ctx.
Proof.
  unfold Bokeh.drawBokeh.
  pose proof (bokeh_loop_spec particleCount 0
                (set_globalCompositeOperation (lit "screen") (save ctx)) eq_refl)
    as [Hp Hs].
  generalize dependent (bokeh_loop particleCount 0
                          (set_globalCompositeOperation (lit "screen") (save ctx))).
  intros c Hp Hs.
  rewrite (restore_pushed c (state ctx) (stack ctx) Hs).
  cbn [painted state stack]. split; [exact Hp|]. split; reflexivity.
Qed.

Lemma new_paints_spec ctx :
  new_paints ctx
  = map (particle_paint (Bokeh.globalAlpha (state ctx)) (filter (state ctx)))
      (indices 0 particleCount).
Proof.
  unfold new_paints. rewrite (proj1 (drawBokeh_paints ctx)).
  rewrite skipn_app, Nat.sub_diag, skipn_all. reflexivity.
Qed.

End BokehDeterminism.

(** The two copies paint the same fills. *)
Remark drawBokeh_copies_paint_alike :
  forall (Math_sin Math_cos : Js.number -> Js.number) (width height time : Js.number)
         (settings : Types.AppSettings) (ctx : Bokeh.Canvas),
  Bokeh.new_paints Math_sin Math_cos width height time settings true ctx
  = Bokeh.new_paints Math_sin Math_cos width height time settings false ctx.
Proof. intros. rewrite !new_paints_spec. reflexivity. Qed.

(** C9. With the same width, height, time and settings, and the same
    sine and cosine, a call of [drawBokeh] (either copy) paints 15 discs
    whose centres, radii, gradients (colours and alphas) and composite
    operation are the same on every context; the call leaves the drawing
    state and the saved states as they were, so a second call on the same
    context paints the very same 15 fills again, as does a call on any
    context with the same alpha and filter. *)
Theorem drawBokeh_deterministic :
  forall (Math_sin Math_cos : Js.number -> Js.number) (width height time : Js.number)
         (settings : Types.AppSettings) (placeholder : bool)
         (ctx1 ctx2 : Bokeh.Canvas),
  let draw := Bokeh.drawBokeh Math_sin Math_cos width height time settings placeholder in
  let fresh := Bokeh.new_paints Math_sin Math_cos width height time settings placeholder in
  List.length (fresh ctx1) = 15%nat /\
  Bokeh.painted (draw ctx1) = Bokeh.painted ctx1 ++ fresh ctx1 /\
  Bokeh.state (draw ctx1) = Bokeh.state ctx1 /\
  Bokeh.stack (draw ctx1) = Bokeh.stack ctx1 /\
  map Bokeh.spot (fresh ctx1) = map Bokeh.spot (fresh ctx2) /\
  fresh (draw ctx1) = fresh ctx1 /\
  Bokeh.painted (draw (draw ctx1)) = Bokeh.painted ctx1 ++ fresh ctx1 ++ fresh ctx1 /\
  (Bokeh.globalAlpha (Bokeh.state ctx1) = Bokeh.globalAlpha (Bokeh.state ctx2) ->
   Bokeh.filter (Bokeh.state ctx1) = Bokeh.filter (Bokeh.state ctx2) ->
   fresh ctx1 = fresh ctx2).
Proof.
  intros Math_sin Math_cos width height time settings placeholder ctx1 ctx2 draw fresh.
  subst draw fresh.
  pose proof (drawBokeh_paints Math_sin Math_cos width height time settings placeholder
                ctx1) as [Hp [Hst Hsk]].
  pose proof (drawBokeh_paints Math_sin Math_cos width height time settings placeholder
                (Bokeh.drawBokeh Math_sin Math_cos width height time settings
                   placeholder ctx1))
    as [Hp2 _].
  rewrite !new_paints_spec.
  refine (conj _ (conj _ (conj _ (conj _ (conj _ (conj _ (conj _ _))))))).
  - rewrite length_map. reflexivity.
  - exact Hp.
  - exact Hst.
  - exact Hsk.
  - rewrite !map_map. reflexivity.
  - rewrite Hst. reflexivity.
  - rewrite Hp2, Hp, Hst, <- app_assoc. reflexivity.
  - intros Ha Hf. rewrite Ha, Hf. reflexivity.
Qed.

Section BokehExample.
Import Js Types Renderer Bokeh.

Lemma drawBokeh_deterministic_witness :
  new_paints flat_wave flat_wave 1920 1080 0 black_on_white false blank_canvas
  = new_paints flat_wave flat_wave 1920 1080 0 black_on_white false used_canvas.
Proof.
  apply (drawBokeh_deterministic flat_wave flat_wave 1920 1080 0 black_on_white false
           blank_canvas used_canvas); reflexivity.
Defined.

End BokehExample.

(** ** Starting a recording *)

Section StartRecording.
Import Js Lrc Recorder.

(** C5, as the code has it. When the canvas and the audio element are
    there and the canvas can be captured: if making or starting the
    [MediaRecorder] throws, the call ends normally with one alert that
    begins "Could not start recording. ", and the phase, the recording
    flag and the download link are as before, with no recorder
    recording that was not before; if neither throws the phase becomes
    [intro] and the recording flag is set, and nothing is alerted. A
    resume of the audio context that is rejected does not abort the
    start: it is written to the console, and the call goes on and ends
    as the call with a resume that succeeds does, in the same state but
    for that line of the console; so does the continuation of a call
    that has waited for the resume, whatever the state has become. *)
Theorem startRecording_failure : forall build env st,
  canvasRef (refs st) = true -> audioRef st = true ->
  let res := fst (startRecording build env st) in
  let st' := snd (startRecording build env st) in
  (captureThrows env = false ->
   recorderThrows env = true \/ startThrows env = true ->
   res = inl tt /\
   (exists e, alerts (browser st')
              = alerts (browser st) ++ [lit "Could not start recording. " ++ e]) /\
   recordingPhase (react st') = recordingPhase (react st) /\
   isRecording (react st') = isRecording (react st) /\
   downloadUrl (react st') = downloadUrl (react st) /\
   (recorders (browser st') = recorders (browser st) \/
    recorders (browser st') = recorders (browser st) ++ [Inactive])) /\
  (captureThrows env = false ->
   recorderThrows env = false -> startThrows env = false ->
   res = inl tt /\
   recordingPhase (react st') = intro /\ isRecording (react st') = true /\
   alerts (browser st') = alerts (browser st)) /\
  (build = IndexTsx -> contextSuspended env = true -> resumeRejects env = true ->
   res = fst (startRecording build (resumed env) st) /\
   without_console st' = without_console (snd (startRecording build (resumed env) st)) /\
   exists later,
     console (browser (snd (startRecording build (resumed env) st)))
     = console (browser st) ++ later /\
     console (browser st')
     = console (browser st) ++ lit "Could not resume audio context" :: later) /\
  (forall calls, awaiting st = env :: calls -> resumeRejects env = true ->
   let resumes := set_awaiting (resumed env :: calls) st in
   fst (startRecording_continue st) = fst (startRecording_continue resumes) /\
   without_console (snd (startRecording_continue st))
   = without_console (snd (startRecording_continue resumes)) /\
   exists later,
     console (browser (snd (startRecording_continue resumes)))
     = console (browser st) ++ later /\
     console (browser (snd (startRecording_continue st)))
     = console (browser st) ++ lit "Could not resume audio context" :: later).
Proof.
  intros build env st Hcanvas Haudio.
  destruct st as [[url ly dur playing rec phase dl]
                    [canvas mrec chunks actx src dest osc smooth t0 req]
                    [at_ paused rs os al co] calls].
  unfold audioRef in Haudio. simpl in Hcanvas, Haudio. subst canvas.
  destruct url as [[|ch url]|]; try discriminate.
  destruct env as [sus rej srcT cap recT sta nw].
  cbn [captureThrows recorderThrows startThrows contextSuspended resumeRejects awaiting].
  unfold startRecording, startRecording_continue, after_resume, create_context,
    resume_context,
    connect_and_silence, capture_and_record, new_MediaRecorder, createOscillator,
    set_oscillator, set_recorder_state, console_log, alert, may_throw, when,
    try_catch, bind, ret, throw, get, modify, audioRef, resumed, without_console.
  cbn [set_awaiting awaiting react refs browser].
  repeat apply conj.
  4: { intros calls' Hc Hr. subst calls rej.
       destruct srcT, src, cap, recT, sta;
         cbn -[lit update app];
         (repeat apply conj; try reflexivity;
          try (rewrite <- ?app_assoc; cbn [app]; eexists; split; reflexivity);
          try (exists []; split; [symmetry; apply app_nil_r|reflexivity])). }
  all: destruct build, sus, rej, srcT, src, cap, recT, sta;
    cbn -[lit update app];
    (repeat apply conj; intros; try discriminate; try reflexivity;
     try match goal with H : _ \/ _ |- _ => destruct H; discriminate end;
     try (repeat apply conj;
          first [reflexivity | eexists; reflexivity | left; reflexivity
                | right; reflexivity | idtac]);
     try (rewrite <- ?app_assoc; cbn [app]; eexists; split; reflexivity);
     try (exists []; split; [symmetry; apply app_nil_r|reflexivity])).
Qed.

Lemma startRecording_failure_witness :
  recordingPhase (react (snd (startRecording IndexTsx env_no_recorder (ready IndexTsx))))
  = recordingPhase (react (ready IndexTsx)) /\
  recordingPhase (react (snd (startRecording IndexTsx env_resume_rejected (ready IndexTsx))))
  = intro /\
  without_console (snd (startRecording IndexTsx env_resume_rejected (ready IndexTsx)))
  = without_console (snd (startRecording IndexTsx env_suspended (ready IndexTsx))) /\
  without_console
    (snd (startRecording_continue
            (snd (startRecording_until_await env_resume_rejected (ready IndexTsx)))))
  = without_console
      (snd (startRecording_continue
              (snd (startRecording_until_await env_suspended (ready IndexTsx))))).
Proof.
  split; [|split; [|split]].
  - apply (proj1 (startRecording_failure IndexTsx env_no_recorder (ready IndexTsx)
                    eq_refl eq_refl) eq_refl (or_introl eq_refl)).
  - apply (proj1 (proj2 (startRecording_failure IndexTsx env_resume_rejected
                           (ready IndexTsx) eq_refl eq_refl))
             eq_refl eq_refl eq_refl).
  - apply (proj1 (proj2 (proj2 (startRecording_failure IndexTsx env_resume_rejected
                                  (ready IndexTsx) eq_refl eq_refl)))
             eq_refl eq_refl eq_refl).
  - apply (proj2 (proj2 (proj2 (startRecording_failure IndexTsx env_resume_rejected
                                  (snd (startRecording_until_await env_resume_rejected
                                          (ready IndexTsx)))
                                  eq_refl eq_refl)))
             [] eq_refl eq_refl).
Defined.

(** When the audio context cannot be resumed the start goes on: the
    phase becomes [intro], the recorder records, nothing is alerted. *)
Lemma startRecording_resume_rejected_proceeds :
  a_step_fails env_resume_rejected = true /\
  recordingPhase (react (ready IndexTsx)) = idle /\
  recordingPhase (react (snd (startRecording IndexTsx env_resume_rejected (ready IndexTsx))))
  = intro /\
  recorders (browser (snd (startRecording IndexTsx env_resume_rejected (ready IndexTsx))))
  = [Recording] /\
  alerts (browser (snd (startRecording IndexTsx env_resume_rejected (ready IndexTsx)))) = [] /\
  ~ aborted_cleanly IndexTsx env_resume_rejected (ready IndexTsx).
Proof.
  repeat (split; [vm_compute; reflexivity|]).
  unfold aborted_cleanly. intros [H _]. vm_compute in H. discriminate H.
Qed.

(** When the browser has no recorder for the stream the oscillator that
    step 5 started is still running after the alert: only [onstop] stops
    it. *)
Remark startRecording_failure_keeps_oscillator :
  oscillators (browser (snd (startRecording IndexTsx env_no_recorder (ready IndexTsx))))
  = [true] /\
  silenceOscRef (refs (snd (startRecording IndexTsx env_no_recorder (ready IndexTsx))))
  = Some 0%nat /\
  recordingPhase (react (snd (startRecording IndexTsx env_no_recorder (ready IndexTsx))))
  = idle.
Proof. vm_compute. repeat split. Qed.

(** The capture of the canvas stands before the [try]: when it throws
    the exception leaves [startRecording], and nothing is alerted. *)
Remark startRecording_capture_not_caught :
  fst (startRecording IndexTsx env_no_capture (ready IndexTsx))
  = inr (Error (lit "captureStream failed")) /\
  alerts (browser (snd (startRecording IndexTsx env_no_capture (ready IndexTsx)))) = [] /\
  recordingPhase (react (snd (startRecording IndexTsx env_no_capture (ready IndexTsx))))
  = idle.
Proof. vm_compute. repeat split. Qed.

End StartRecording.

(** ** One session at a time *)

Section Sessions.
Import Js Lrc Recorder.

Lemma nth_update {A} (l : list A) : forall i j v d,
  nth j (update i v l) d
  = if (i =? j)%nat && (i <? List.length l)%nat then v else nth j l d.
Proof.
  induction l as [|x l IH]; intros i j v d.
  - simpl. destruct i; rewrite andb_false_r; reflexivity.
  - destruct i as [|i], j as [|j]; simpl; try reflexivity.
    rewrite IH. reflexivity.
Qed.

Lemma update_app_last {A} (l : list A) x v :
  update (List.length l) v (l ++ [x]) = l ++ [v].
Proof. induction l as [|y l IH]; simpl; [reflexivity|rewrite IH; reflexivity]. Qed.

Lemma nth_app_last {A} (l : list A) v d j :
  nth j (l ++ [v]) d = if (j =? List.length l)%nat then v else nth j l d.
Proof.
  revert j. induction l as [|y l IH]; intros j; simpl.
  - destruct j as [|[|j]]; reflexivity.
  - destruct j as [|j]; [reflexivity|]. simpl. apply IH.
Qed.

Lemma Inv_init : Inv init.
Proof.
  split; [intros H; exfalso; apply H; reflexivity|].
  intros id H. simpl in H. destruct id; discriminate.
Qed.

Lemma Inv_sync_effect before after : Inv after -> Inv (sync_effect before after).
Proof.
  unfold sync_effect.
  destruct (_ && _); [exact (fun H => H)|].
  destruct (_ && _); exact (fun H => H).
Qed.

(** The three ways [startRecording] can leave the view. *)
Lemma startRecording_view build env st :
  let st' := snd (startRecording build env st) in
  let '(phase, rec, ref, rs) := view st in
  view st' = view st \/
  view st' = (phase, rec, Some (List.length rs), rs ++ [Inactive]) \/
  view st' = (intro, true, Some (List.length rs), rs ++ [Recording]).
Proof.
  destruct st as [[url ly dur playing rec phase dl]
                    [canvas mrec chunks actx src dest osc smooth t0 req]
                    [at_ paused rs os al co] calls].
  destruct env as [sus rej srcT cap recT sta nw].
  unfold startRecording, after_resume, create_context, resume_context,
    connect_and_silence, capture_and_record, new_MediaRecorder, createOscillator,
    set_oscillator, set_recorder_state, console_log, alert, may_throw, when,
    try_catch, bind, ret, throw, get, modify, audioRef, view.
  destruct url as [[|ch url]|], canvas;
    try (cbn -[lit update app]; left; reflexivity).
  destruct build, sus, rej, srcT, src, cap, recT, sta;
    cbn -[lit update app]; rewrite ?update_app_last;
    first [left; reflexivity | right; left; reflexivity | right; right; reflexivity].
Qed.

Lemma stopRecording_view st :
  let st' := snd (stopRecording st) in
  let '(phase, rec, ref, rs) := view st in
  view st' = view st \/
  exists id, ref = Some id /\ nth id rs Inactive = Recording /\
             view st' = (phase, rec, ref, update id Stopping rs).
Proof.
  destruct st as [[url ly dur playing rec phase dl]
                    [canvas mrec chunks actx src dest osc smooth t0 req]
                    [at_ paused rs os al co] calls].
  unfold stopRecording, set_recorder_state, when, bind, ret, get, modify,
    audioRef, view, recorder_state.
  cbn [react refs browser mediaRecorderRef recorders].
  destruct mrec as [id|]; [|left; reflexivity].
  destruct (nth id rs Inactive) eqn:E; try (left; reflexivity).
  right. exists id. split; [reflexivity|]. split; [exact E|].
  destruct url as [[|ch url]|]; reflexivity.
Qed.

Lemma Inv_on_started phase rec ref rs :
  Inv_on (phase, rec, ref, rs) -> rec = false ->
  Inv_on (phase, rec, Some (List.length rs), rs ++ [Inactive]) /\
  Inv_on (intro, true, Some (List.length rs), rs ++ [Recording]).
Proof.
  intros [H1 H2] ->.
  assert (Hall : forall id, active (nth id rs Inactive) = false).
  { intros id. destruct (active (nth id rs Inactive)) eqn:E; [|reflexivity].
    destruct (H2 id E) as [H _]. discriminate H. }
  split; (split; [try exact H1; intros _; reflexivity|]);
    intros id; rewrite nth_app_last;
    destruct (Nat.eqb_spec id (List.length rs)) as [->|Hne]; intros H;
    try discriminate H; try (rewrite Hall in H; discriminate H).
  split; reflexivity.
Qed.

Lemma Inv_on_stopping phase rec ref rs id :
  Inv_on (phase, rec, ref, rs) -> ref = Some id -> nth id rs Inactive = Recording ->
  Inv_on (phase, rec, ref, update id Stopping rs).
Proof.
  intros [H1 H2] Href Hid. split; [exact H1|].
  intros id'. rewrite nth_update.
  destruct (Nat.eqb_spec id id') as [<-|Hne]; simpl.
  - intros _. apply H2. rewrite Hid. reflexivity.
  - apply H2.
Qed.

Lemma Inv_on_stopped phase rec ref rs id :
  Inv_on (phase, rec, ref, rs) -> active (nth id rs Inactive) = true ->
  Inv_on (idle, false, ref, update id Inactive rs).
Proof.
  intros [H1 H2] Hid.
  split; [intros H; exfalso; apply H; reflexivity|].
  intros id'. rewrite nth_update.
  destruct (Nat.eqb_spec id id') as [<-|Hne]; simpl.
  - destruct (id <? List.length rs)%nat eqn:El; [discriminate|].
    apply Nat.ltb_ge in El. rewrite nth_overflow in Hid by exact El. discriminate Hid.
  - intros H. exfalso. apply Hne.
    destruct (H2 id Hid) as [_ Ha]. destruct (H2 id' H) as [_ Hb]. congruence.
Qed.

Lemma Inv_startRecording build env st :
  Inv st -> isRecording (react st) = false -> Inv (snd (startRecording build env st)).
Proof.
  intros HI Hrec. unfold Inv in *.
  pose proof (startRecording_view build env st) as Hv. cbv zeta in Hv.
  destruct (view st) as [[[phase rec] ref] rs] eqn:Ev.
  assert (rec = false) by (unfold view in Ev; congruence).
  destruct (Inv_on_started phase rec ref rs HI H) as [Ha Hb].
  destruct Hv as [-> | [-> | ->]]; assumption.
Qed.

Lemma Inv_stopRecording st : Inv st -> Inv (snd (stopRecording st)).
Proof.
  intros HI. unfold Inv in *.
  pose proof (stopRecording_view st) as Hv. cbv zeta in Hv.
  destruct (view st) as [[[phase rec] ref] rs] eqn:Ev.
  destruct Hv as [-> | [id [Href [Hid ->]]]]; [assumption|].
  exact (Inv_on_stopping phase rec ref rs id HI Href Hid).
Qed.

(** A handler that leaves the view alone keeps the invariant. *)
Lemma Inv_same_view st st' : view st' = view st -> Inv st -> Inv st'.
Proof. unfold Inv. intros ->. exact (fun H => H). Qed.

Lemma Inv_onstop build st id :
  Inv st -> active (recorder_state st id) = true ->
  Inv (snd ((set_recorder_state id Inactive ;; onstop build) st)).
Proof.
  intros HI Hid. unfold Inv in *.
  destruct st as [[url ly dur playing rec phase dl]
                    [canvas mrec chunks actx src dest osc smooth t0 req]
                    [at_ paused rs os al co] calls].
  unfold recorder_state in Hid. cbn [browser recorders] in Hid.
  pose proof (Inv_on_stopped phase rec mrec rs id HI Hid) as H.
  unfold onstop, set_recorder_state, set_oscillator, bind, ret, get, modify, view.
  destruct build; [destruct osc|]; exact H.
Qed.

(** A frame whose callback has the phase of the state keeps the
    invariant. *)
Lemma Inv_animate self now st :
  seen_recordingPhase self = recordingPhase (react st) ->
  Inv st -> Inv (snd (animate self now st)).
Proof.
  unfold Inv. intros Hstep HI.
  destruct st as [[url ly dur playing rec phase dl]
                    [canvas mrec chunks actx src dest osc smooth t0 req]
                    [at_ paused rs os al co] calls].
  destruct self as [phase' dur' ly'].
  cbn [seen_recordingPhase react recordingPhase] in Hstep. subst phase'.
  unfold animate, handleIntroComplete, when, bind, ret, get, modify, audioRef, view.
  cbn [react refs browser canvasRef recordingPhase introStartTimeRef introDuration
       audioUrl seen_recordingPhase seen_introDuration seen_lyrics].
  destruct canvas; [|exact HI].
  destruct phase; try (destruct url as [[|ch url]|]; exact HI).
  destruct (gtb _ dur'); [|exact HI].
  destruct HI as [H1 H2].
  destruct url as [[|ch url]|]; (split; [intros _; apply H1; discriminate|exact H2]).
Qed.

Lemma awaits_resume_synchronous build env st :
  synchronous build (ClickRecord env) st -> awaits_resume build env st = false.
Proof.
  intros [_ [-> | H]]; [reflexivity|].
  unfold awaits_resume. rewrite H. destruct build; [apply andb_false_r|reflexivity].
Qed.

(** [startRecording] and the other handlers leave the waiting calls
    alone. *)
Lemma startRecording_awaiting build env st :
  awaiting (snd (startRecording build env st)) = awaiting st.
Proof.
  destruct st as [[url ly dur playing rec phase dl]
                    [canvas mrec chunks actx src dest osc smooth t0 req]
                    [at_ paused rs os al co] calls].
  destruct env as [sus rej srcT cap recT sta nw].
  unfold startRecording, after_resume, create_context, resume_context,
    connect_and_silence, capture_and_record, new_MediaRecorder, createOscillator,
    set_oscillator, set_recorder_state, console_log, alert, may_throw, when,
    try_catch, bind, ret, throw, get, modify, audioRef.
  destruct url as [[|ch url]|], canvas; try reflexivity.
  destruct build, sus, rej, srcT, src, cap, recT, sta; reflexivity.
Qed.

Lemma stopRecording_awaiting st : awaiting (snd (stopRecording st)) = awaiting st.
Proof.
  unfold stopRecording, set_recorder_state, when, bind, ret, get, modify.
  cbn [fst snd].
  destruct (mediaRecorderRef (refs st)) as [id|]; [|reflexivity].
  destruct (recorder_state st id); try reflexivity.
  destruct (audioRef st); reflexivity.
Qed.

Lemma Inv_dispatch build ev st :
  synchronous build ev st -> Inv_sync st -> Inv_sync (dispatch build ev st).
Proof.
  intros Hsync [HI Hw]. unfold dispatch.
  assert (Hsame : forall after, Inv_sync after -> Inv_sync (sync_effect st after)).
  { intros after [Ha Hb]. split; [apply Inv_sync_effect; exact Ha|].
    unfold sync_effect. destruct (_ && _); [exact Hb|].
    destruct (_ && _); exact Hb. }
  apply Hsame.
  destruct ev as [env| | | |id data|id| |t|now|url|lrcContent|seconds|]; cbn [handler].
  - unfold record_button_rendered.
    destruct (isRecording (react st)) eqn:Er; cbn [negb andb]; [split; assumption|].
    destruct (negb (record_button_disabled st)); [|split; assumption].
    rewrite (awaits_resume_synchronous build env st Hsync).
    split; [apply Inv_startRecording; assumption|].
    rewrite startRecording_awaiting. exact Hw.
  - unfold startRecording_continue, bind, get. cbn [fst snd]. rewrite Hw.
    split; assumption.
  - destruct (isRecording (react st)); [|split; assumption].
    split; [apply Inv_stopRecording; exact HI|].
    rewrite stopRecording_awaiting. exact Hw.
  - unfold togglePlay, bind, get. cbn [fst snd].
    destruct (isRecording (react st)); [|split; assumption].
    split; [apply Inv_stopRecording; exact HI|].
    rewrite stopRecording_awaiting. exact Hw.
  - destruct (recorder_state st id); try (split; assumption);
      unfold ondataavailable, when; destruct (0 <? data)%N; split; assumption.
  - destruct (recorder_state st id) eqn:E; try (split; assumption);
      (split; [apply Inv_onstop; try exact HI; rewrite E; reflexivity|]);
      unfold onstop, set_recorder_state, set_oscillator, bind, ret, get, modify;
      cbn [fst snd]; destruct build; try exact Hw;
      destruct (silenceOscRef _); exact Hw.
  - destruct (audioRef st); [|split; assumption].
    unfold bind, modify, when. cbn [fst snd].
    destruct (isRecording (react st)); [|split; assumption].
    split; [apply Inv_stopRecording; exact HI|].
    rewrite stopRecording_awaiting. exact Hw.
  - unfold when. destruct (_ && _); split; assumption.
  - split; [apply Inv_animate; [exact (proj1 Hsync)|exact HI]|].
    unfold animate, handleIntroComplete, when, bind, ret, get, modify. cbn [fst snd].
    destruct (canvasRef _); [|exact Hw].
    destruct (seen_recordingPhase _); try (destruct (audioRef st); exact Hw).
    destruct (gtb _ _); [|exact Hw]. cbn [fst snd].
    match goal with |- context [if ?b then _ else _] => destruct b end; exact Hw.
  - split; assumption.
  - split; assumption.
  - split; assumption.
  - split; assumption.
Qed.

Lemma reachable_sync_reachable build st : reachable_sync build st -> reachable build st.
Proof. induction 1; [constructor|constructor; assumption]. Qed.

Lemma reachable_sync_Inv build st : reachable_sync build st -> Inv_sync st.
Proof.
  induction 1 as [|ev st _ IH Hs]; [split; [exact Inv_init|reflexivity]|].
  apply Inv_dispatch; assumption.
Qed.

Lemma sync_effect_same st : sync_effect st st = st.
Proof.
  unfold sync_effect. rewrite Bool.eqb_reflx.
  destruct (recordingPhase (react st)); reflexivity.
Qed.

Lemma reachable_run build events : forall st,
  reachable build st -> reachable build (run build events st).
Proof.
  induction events as [|ev events IH]; intros st H; [exact H|].
  apply IH. constructor. exact H.
Qed.

(** The two pieces of a call that waits are the call: when nothing
    comes between the [await] and the continuation the state is the one
    [startRecording] gives. *)
Lemma startRecording_continue_after_await env st :
  awaits_resume IndexTsx env st = true -> awaiting st = [] ->
  snd (startRecording_continue (snd (startRecording_until_await env st)))
  = snd (startRecording IndexTsx env st).
Proof.
  destruct st as [[url ly dur playing rec phase dl]
                    [canvas mrec chunks actx src dest osc smooth t0 req]
                    [at_ paused rs os al co] calls].
  destruct env as [sus rej srcT cap recT sta nw].
  unfold awaits_resume, guard_passes, audioRef.
  cbn [react refs canvasRef audioUrl contextSuspended awaiting].
  intros Hg ->. apply andb_prop in Hg. destruct Hg as [Hg ->].
  apply andb_prop in Hg. destruct Hg as [-> Hurl].
  destruct url as [[|ch url]|]; try discriminate.
  unfold startRecording_continue, startRecording_until_await, startRecording,
    after_resume, create_context, resume_context,
    connect_and_silence, capture_and_record, new_MediaRecorder, createOscillator,
    set_oscillator, set_recorder_state, console_log, alert, may_throw, when,
    try_catch, bind, ret, throw, get, modify, audioRef.
  destruct rej, srcT, src, cap, recT, sta; reflexivity.
Qed.

(** Where no call waits at its [await] and every frame is of the phase
    the state has, the claim holds: a click on Record changes nothing
    unless the phase is [idle] and a track and a cue are loaded, and at
    most one recorder has not delivered its [stop] event. *)
Theorem one_session_when_synchronous : forall build st,
  reachable_sync build st ->
  (forall env,
     recordingPhase (react st) <> idle \/ audioRef st = false \/ lyrics (react st) = [] ->
     dispatch build (ClickRecord env) st = st) /\
  (forall i j,
     active (recorder_state st i) = true -> active (recorder_state st j) = true ->
     i = j).
Proof.
  intros build st Hr. destruct (reachable_sync_Inv build st Hr) as [[H1 H2] Hw].
  split.
  - intros env Hno. unfold dispatch. cbn [handler].
    assert (Hgate : record_button_rendered st && negb (record_button_disabled st) = false).
    { unfold record_button_rendered, record_button_disabled.
      destruct Hno as [Hp | [Ha | Hl]].
      - unfold view in H1. rewrite (H1 Hp). reflexivity.
      - rewrite Ha. apply andb_false_r.
      - rewrite Hl. cbn. rewrite orb_true_r. apply andb_false_r. }
    rewrite Hgate. apply sync_effect_same.
  - intros i j Hi Hj.
    destruct (H2 i Hi) as [_ Ei]. destruct (H2 j Hj) as [_ Ej]. congruence.
Qed.

Lemma one_session_when_synchronous_witness :
  dispatch IndexTsx (ClickRecord env_fine) init = init.
Proof.
  apply (proj1 (one_session_when_synchronous IndexTsx init (reachable_sync_init IndexTsx))).
  right. left. reflexivity.
Defined.

(** C6 fails in the build of [src/index.tsx]. With a track and a cue
    loaded and the audio context suspended, a second click on Record
    before the first [resume()] has settled is taken, since
    [isRecording] is only set behind the [await]: both calls go on, two
    recorders record at once, and the ref holds the second only, so
    that Stop leaves the first one recording in phase [idle]. The same
    clicks start one recorder in the build of [src/App.tsx], whose
    [startRecording] has no [await]. *)
Theorem double_click_starts_two_sessions :
  reachable IndexTsx (run IndexTsx double_click (ready IndexTsx)) /\
  recordingPhase (react (run IndexTsx [ClickRecord env_suspended] (ready IndexTsx))) = idle /\
  isRecording (react (run IndexTsx [ClickRecord env_suspended] (ready IndexTsx))) = false /\
  recorders (browser (run IndexTsx double_click (ready IndexTsx))) = [Recording; Recording] /\
  mediaRecorderRef (refs (run IndexTsx double_click (ready IndexTsx))) = Some 1%nat /\
  view (run IndexTsx (double_click ++ [ClickStop; RecorderStop 1]) (ready IndexTsx))
  = (idle, false, Some 1%nat, [Recording; Inactive]) /\
  recorders (browser (run AppTsx double_click (ready AppTsx))) = [Recording].
Proof.
  split.
  - apply reachable_run. unfold ready. repeat constructor.
  - vm_compute. repeat split.
Qed.

End Sessions.

(** ** The order of the cues *)

Section ParserOrder.
Import Js Binary64 Lrc LrcFile NumberFacts.
Local Open Scope float_scope.

Lemma SFcompare_eq_not_lt x y t :
  SFcompare x t = Some Eq -> SFcompare y t = Some Eq -> SFcompare y x <> Some Lt.
Proof.
  unfold SFcompare.
  destruct x as [sx|sx| |sx mx ex], y as [sy|sy| |sy my ey], t as [st|st| |st mt et];
    try destruct sx; try destruct sy; try destruct st;
    try discriminate; intros H1 H2; try discriminate;
    cmp_cases; simpl in *; subst; try discriminate; try lia.
Qed.

Lemma eqb_not_ltb x y t : (x =? t) = true -> (y =? t) = true -> (y <? x) = false.
Proof.
  rewrite !eqb_spec, ltb_spec. unfold SFeqb, SFltb. intros Hx Hy.
  destruct (SFcompare (Prim2SF x) (Prim2SF t)) as [[]|] eqn:Ex; try discriminate.
  destruct (SFcompare (Prim2SF y) (Prim2SF t)) as [[]|] eqn:Ey; try discriminate.
  pose proof (SFcompare_eq_not_lt _ _ _ Ex Ey) as H.
  destruct (SFcompare (Prim2SF y) (Prim2SF x)) as [[]|]; congruence.
Qed.

Lemma leb_not_ltb x y : (x <=? y) = true -> (y <? x) = false.
Proof.
  rewrite leb_spec, ltb_spec. unfold SFleb, SFltb.
  rewrite (SFcompare_antisym (Prim2SF x) (Prim2SF y)).
  destruct (SFcompare (Prim2SF x) (Prim2SF y)) as [[]|]; simpl; congruence.
Qed.

Lemma filter_sort_insert t x l :
  finite_time x -> Forall finite_time l ->
  filter (at_time t) (sort_insert by_time x l) = filter (at_time t) (x :: l).
Proof.
  intros Fx Fl. induction l as [|y l IH]; [reflexivity|].
  apply Forall_cons_iff in Fl. destruct Fl as [Fy Fl].
  cbn [sort_insert]. unfold by_time at 1. rewrite sub_gtb_zero by assumption.
  destruct (time y <? time x) eqn:E; [|reflexivity].
  cbn [filter]. rewrite (IH Fl). cbn [filter].
  destruct (at_time t x) eqn:Px, (at_time t y) eqn:Py; try reflexivity.
  unfold at_time in Px, Py. rewrite (eqb_not_ltb _ _ _ Px Py) in E. discriminate.
Qed.

Lemma filter_Array_sort t l :
  Forall finite_time l ->
  filter (at_time t) (Array_sort by_time l) = filter (at_time t) l.
Proof.
  induction l as [|x l IH]; intros Fl; [reflexivity|].
  apply Forall_cons_iff in Fl. destruct Fl as [Fx Fl].
  cbn [Array_sort]. rewrite filter_sort_insert.
  - cbn [filter]. rewrite (IH Fl). reflexivity.
  - exact Fx.
  - apply (Forall_perm _ l); [symmetry; apply Array_sort_perm|exact Fl].
Qed.

Lemma Array_sort_of_sorted l :
  Forall finite_time l -> time_sorted l -> Array_sort by_time l = l.
Proof.
  intros Fl Hs. induction Hs as [|x l Hs IH Hx]; [reflexivity|].
  apply Forall_cons_iff in Fl. destruct Fl as [Fx Fl].
  cbn [Array_sort]. rewrite (IH Fl).
  destruct l as [|y l]; [reflexivity|].
  apply Forall_cons_iff in Hx. destruct Hx as [Hxy _].
  apply Forall_cons_iff in Fl. destruct Fl as [Fy _].
  cbn [sort_insert]. unfold by_time. rewrite sub_gtb_zero by assumption.
  rewrite (leb_not_ltb _ _ Hxy). reflexivity.
Qed.

Lemma file_cues_finite lrcContent : Forall finite_time (file_cues lrcContent).
Proof.
  apply Forall_forall. intros c Hin. apply in_flat_map in Hin.
  destruct Hin as [line [_ Hc]]. apply (line_cues_good line c Hc).
Qed.

Lemma parseLrc_file_cues lrcContent :
  parseLrc lrcContent = Array_sort by_time (file_cues lrcContent).
Proof. unfold parseLrc, file_cues. rewrite fold_parse_line. reflexivity. Qed.

(** X1. The sort is stable: the cues that share a time come out in the
    order the file has them. *)
Theorem parseLrc_stable : forall lrcContent t,
  filter (at_time t) (parseLrc lrcContent) = filter (at_time t) (file_cues lrcContent).
Proof.
  intros lrcContent t. rewrite parseLrc_file_cues.
  apply filter_Array_sort. apply file_cues_finite.
Qed.

(** X2. A file whose tags are in order is returned in file order. *)
Theorem parseLrc_ordered_file : forall lrcContent,
  time_sorted (file_cues lrcContent) -> parseLrc lrcContent = file_cues lrcContent.
Proof.
  intros lrcContent Hs. rewrite parseLrc_file_cues.
  apply Array_sort_of_sorted; [apply file_cues_finite|exact Hs].
Qed.

Lemma parseLrc_ordered_file_witness :
  time_sorted (file_cues ordered_lrc) /\ parseLrc ordered_lrc = file_cues ordered_lrc.
Proof.
  assert (H : time_sorted (file_cues ordered_lrc)) by (vm_compute; repeat constructor).
  split; [exact H|apply (parseLrc_ordered_file ordered_lrc H)].
Defined.

End ParserOrder.

(** ** The text of the cues and the line ends *)

Section ParserText.
Import Js Binary64 Lrc LrcFile.

Lemma timeReg_at_shape s g rest :
  timeReg_at s = Some (g, rest) ->
  exists sep, s = tag_of g sep ++ rest.
Proof.
  unfold timeReg_at.
  destruct s as [|lb [|m1 [|m2 [|c1 [|s1 [|s2 [|sep [|f1 [|f2 r]]]]]]]]]; try discriminate.
  destruct (_ && _) eqn:E; [|discriminate].
  repeat (apply andb_prop in E; destruct E as [E ?]).
  apply N.eqb_eq in E. subst lb.
  match goal with H : (c1 =? 58)%N = true |- _ => apply N.eqb_eq in H; subst c1 end.
  destruct r as [|f3 r']; [discriminate|].
  destruct (is_digit f3).
  - destruct r' as [|rb r'']; [discriminate|].
    destruct (N.eqb_spec rb 93); [|discriminate].
    intros [= <- <-]. subst rb. exists sep. reflexivity.
  - destruct (N.eqb_spec f3 93); [|discriminate].
    intros [= <- <-]. subst f3. exists sep. reflexivity.
Qed.

(** A match is a tag between the text before it and the text after it. *)
Lemma timeReg_exec_parts line : forall before g after,
  timeReg_exec line = Some (before, g, after) ->
  exists sep, line = before ++ tag_of g sep ++ after.
Proof.
  induction line as [|c line IH]; intros before g after.
  - simpl. discriminate.
  - rewrite timeReg_exec_cons.
    destruct (timeReg_at (c :: line)) as [[g' after']|] eqn:E.
    + intros [= <- <- <-]. apply timeReg_at_shape in E. exact E.
    + destruct (timeReg_exec line) as [[[b g'] a]|]; [|discriminate].
      intros [= <- <- <-]. destruct (IH b g' a eq_refl) as [sep ->].
      exists sep. reflexivity.
Qed.

Lemma timeReg_at_bracket c s : c <> 91%N -> timeReg_at (c :: s) = None.
Proof.
  intros Hc. unfold timeReg_at.
  destruct s as [|m1 [|m2 [|c1 [|s1 [|s2 [|sep [|f1 [|f2 r]]]]]]]]; try reflexivity.
  destruct (N.eqb_spec c 91); [contradiction|]. reflexivity.
Qed.

(** No match begins in a text without ['[']. *)
Lemma timeReg_exec_after before : forall line g after,
  ~ In 91%N before ->
  timeReg_exec line = Some ([], g, after) ->
  timeReg_exec (before ++ line) = Some (before, g, after).
Proof.
  induction before as [|c before IH]; intros line g after Hb H; [exact H|].
  simpl app. rewrite timeReg_exec_cons.
  rewrite timeReg_at_bracket by (intros ->; apply Hb; left; reflexivity).
  rewrite (IH line g after); [reflexivity| |exact H].
  intros Hin. apply Hb. right. exact Hin.
Qed.

(** *** [trim] *)

Lemma trimStart_cases s :
  trimStart s = [] \/
  exists c rest, trimStart s = c :: rest /\ is_white_space c = false.
Proof.
  induction s as [|c s IH]; [left; reflexivity|].
  simpl. destruct (is_white_space c) eqn:E; [exact IH|].
  right. exists c, s. split; [reflexivity|exact E].
Qed.

Lemma trimStart_snoc s c :
  trimStart (s ++ [c]) =
  if is_white_space c
  then match trimStart s with [] => [] | _ :: _ => trimStart s ++ [c] end
  else trimStart s ++ [c].
Proof.
  induction s as [|d s IH].
  - simpl. destruct (is_white_space c); reflexivity.
  - simpl. destruct (is_white_space d) eqn:E; [exact IH|].
    destruct (is_white_space c); reflexivity.
Qed.

Lemma trimStart_incl s c : In c (trimStart s) -> In c s.
Proof.
  induction s as [|d s IH]; [intros []|].
  simpl. destruct (is_white_space d); [right; apply IH; assumption|intros H; exact H].
Qed.

Lemma trim_incl s c : In c (trim s) -> In c s.
Proof.
  unfold trim, trimEnd. intros H.
  apply in_rev in H. apply trimStart_incl in H. apply in_rev in H.
  apply trimStart_incl in H. exact H.
Qed.

Lemma trimEnd_snoc_blank s c : is_white_space c = true -> trimEnd (s ++ [c]) = trimEnd s.
Proof.
  intros Hc. unfold trimEnd. rewrite rev_app_distr. simpl. rewrite Hc. reflexivity.
Qed.

Lemma trim_snoc_blank s c : is_white_space c = true -> trim (s ++ [c]) = trim s.
Proof.
  intros Hc. unfold trim. rewrite trimStart_snoc, Hc.
  destruct (trimStart s) as [|d t] eqn:E; [reflexivity|].
  apply trimEnd_snoc_blank. exact Hc.
Qed.

Lemma trim_trimmed s : trimmed (trim s).
Proof.
  unfold trim. destruct (trimStart_cases s) as [E|[c [rest [E Hc]]]]; rewrite E.
  - split; intros d x H.
    + discriminate H.
    + destruct x; discriminate H.
  - unfold trimEnd.
    destruct (trimStart_cases (rev (c :: rest))) as [E'|[d [rest' [E' Hd]]]].
    + exfalso. simpl in E'. rewrite trimStart_snoc, Hc in E'.
      destruct (trimStart (rev rest)); discriminate E'.
    + rewrite E'. split.
      * intros x y Hx. simpl rev in E'. rewrite trimStart_snoc, Hc in E'.
        assert (Hr : rev (d :: rest') = c :: rev (trimStart (rev rest))).
        { rewrite <- E', rev_app_distr. reflexivity. }
        rewrite Hr in Hx. injection Hx as <- _. exact Hc.
      * intros x y Hx. simpl rev in Hx. apply app_inj_tail in Hx.
        destruct Hx as [_ <-]. exact Hd.
Qed.

Lemma split_pieces sep s : forall line, In line (split sep s) -> ~ In sep line.
Proof.
  induction s as [|c s IH]; intros line Hin.
  - simpl in Hin. destruct Hin as [<-|[]]. intros [].
  - simpl in Hin. destruct (N.eqb_spec c sep) as [->|Hne].
    + destruct Hin as [<-|Hin]; [intros []|exact (IH line Hin)].
    + destruct (split sep s) as [|w ws] eqn:E.
      * destruct Hin as [<-|[]]. intros [H|[]]. congruence.
      * destruct Hin as [<-|Hin].
        -- intros [H|H]; [congruence|]. apply (IH w); [left; reflexivity|exact H].
        -- apply IH. right. exact Hin.
Qed.

Lemma line_cues_text line c :
  In c (line_cues line) ->
  exists before g sep after,
    line = before ++ tag_of g sep ++ after /\ text c = trim (before ++ after).
Proof.
  pose proof (line_cues_cases line) as H.
  destruct (timeReg_exec line) as [[[before g] after]|] eqn:E.
  - destruct H as [_ [H0 H1]].
    destruct (trim (before ++ after)) as [|ch t] eqn:Et.
    + rewrite H0 by reflexivity. intros [].
    + rewrite H1 by discriminate. intros [<-|[]].
      destruct (timeReg_exec_parts line before g after E) as [sep Hl].
      exists before, g, sep, after. split; [exact Hl|]. simpl. symmetry. exact Et.
  - rewrite H. intros [].
Qed.

(** X4. The text of a cue is trimmed and lies within one line: it neither
    begins nor ends with white space and holds no line feed. *)
Theorem parseLrc_text : forall lrcContent c,
  In c (parseLrc lrcContent) ->
  trimmed (text c) /\ ~ In 10%N (text c).
Proof.
  intros lrcContent c Hin.
  apply (Permutation_in _ (parseLrc_perm lrcContent)) in Hin.
  apply in_flat_map in Hin. destruct Hin as [line [Hline Hc]].
  destruct (line_cues_text line c Hc) as [before [g [sep [after [Hl Ht]]]]].
  rewrite Ht. split; [apply trim_trimmed|].
  intros H10. apply trim_incl in H10.
  apply (split_pieces 10%N lrcContent line Hline).
  rewrite Hl. apply in_app_or in H10.
  destruct H10 as [H|H]; apply in_or_app; [left; exact H|].
  right. apply in_or_app. right. exact H.
Qed.

(** X5. The tag may stand anywhere in its line: the text before it and
    the text after it are joined and trimmed. *)
Theorem parseLrc_tag_within_line :
  forall before m1 m2 s1 s2 sep f after,
    is_digit m1 = true -> is_digit m2 = true ->
    is_digit s1 = true -> is_digit s2 = true ->
    sep = 46%N \/ sep = 58%N ->
    forallb is_digit f = true -> List.length f = 2%nat \/ List.length f = 3%nat ->
    ~ In 91%N before -> ~ In 10%N before -> ~ In 10%N after ->
    trim (before ++ after) <> [] ->
    parseLrc (before ++ tagged m1 m2 s1 s2 sep f after) =
    [{| time := seconds_of m1 m2 s1 s2 f; text := trim (before ++ after) |}].
Proof.
  intros before m1 m2 s1 s2 sep f after Hm1 Hm2 Hs1 Hs2 Hsep Hf Hlen Hb Hnb Hna Htext.
  unfold parseLrc. rewrite split_no_sep.
  - simpl fold_left. unfold parse_line.
    rewrite (timeReg_exec_after before _ _ after Hb
               (timeReg_exec_tagged m1 m2 s1 s2 sep f after Hm1 Hm2 Hs1 Hs2 Hsep Hf Hlen)).
    rewrite truthy_nonempty by assumption. reflexivity.
  - intros Hin. apply in_app_or in Hin. destruct Hin as [Hin|Hin]; [exact (Hnb Hin)|].
    unfold tagged in Hin.
    assert (Hd : forall c, is_digit c = true -> c <> 10%N).
    { intros c Hc ->. discriminate Hc. }
    simpl in Hin.
    repeat (destruct Hin as [Hin|Hin];
            [first [discriminate Hin
                   | symmetry in Hin; revert Hin; apply Hd; assumption
                   | destruct Hsep; subst; discriminate] | ]).
    apply in_app_or in Hin. destruct Hin as [Hin|Hin].
    + rewrite forallb_forall in Hf. apply (Hd 10%N (Hf _ Hin)). reflexivity.
    + simpl in Hin. destruct Hin as [Hin|Hin]; [discriminate Hin|]. exact (Hna Hin).
Qed.

Lemma parseLrc_text_witness :
  In {| time := 5; text := lit "b" |} (parseLrc unsorted_lrc) /\
  trimmed (lit "b") /\ ~ In 10%N (lit "b").
Proof.
  assert (H : In {| time := 5; text := lit "b" |} (parseLrc unsorted_lrc))
    by (vm_compute; right; left; reflexivity).
  split; [exact H|].
  apply (parseLrc_text unsorted_lrc {| time := 5; text := lit "b" |} H).
Defined.

Lemma parseLrc_tag_within_line_witness :
  parseLrc (lit "la " ++ tagged 48 48 48 49 46 (lit "50") (lit " la"))
  = [{| time := seconds_of 48 48 48 49 (lit "50");
        text := trim (lit "la " ++ lit " la") |}] /\
  seconds_of 48 48 48 49 (lit "50") = 1.5%float /\
  trim (lit "la " ++ lit " la") = lit "la  la".
Proof.
  split; [|split; vm_compute; reflexivity].
  apply (parseLrc_tag_within_line (lit "la ") 48 48 48 49 46 (lit "50") (lit " la"));
    try reflexivity; try (left; reflexivity); try discriminate;
    vm_compute; intuition discriminate.
Defined.

(** *** Windows line ends *)

Lemma timeReg_at_cr s :
  timeReg_at (s ++ [13%N]) =
  match timeReg_at s with
  | Some (g, rest) => Some (g, rest ++ [13%N])
  | None => None
  end.
Proof.
  unfold timeReg_at.
  destruct s as [|lb [|m1 [|m2 [|c1 [|s1 [|s2 [|sep [|f1 [|f2 r]]]]]]]]];
    try reflexivity; cbn [app].
  - (* eight characters: the ninth is the carriage return *)
    rewrite !andb_false_r. reflexivity.
  - destruct (_ && _); [|reflexivity].
    destruct r as [|f3 r']; [reflexivity|]. cbn [app].
    destruct (is_digit f3).
    + destruct r' as [|rb r'']; [reflexivity|]. cbn [app].
      destruct (rb =? 93)%N; reflexivity.
    + destruct (f3 =? 93)%N; reflexivity.
Qed.

Lemma timeReg_exec_cr line :
  timeReg_exec (line ++ [13%N]) =
  match timeReg_exec line with
  | Some (before, g, after) => Some (before, g, after ++ [13%N])
  | None => None
  end.
Proof.
  induction line as [|c line IH]; [reflexivity|].
  change ((c :: line) ++ [13%N]) with (c :: (line ++ [13%N])).
  rewrite !timeReg_exec_cons.
  change (c :: (line ++ [13%N])) with ((c :: line) ++ [13%N]).
  rewrite timeReg_at_cr.
  destruct (timeReg_at (c :: line)) as [[g after]|] eqn:E.
  - unfold jsstring, char in *. rewrite E. reflexivity.
  - unfold jsstring, char in *. rewrite E, IH.
    destruct (timeReg_exec line) as [[[b g] a]|]; reflexivity.
Qed.

Lemma line_cues_cr line : line_cues (line ++ [13%N]) = line_cues line.
Proof.
  unfold line_cues, parse_line. rewrite timeReg_exec_cr.
  destruct (timeReg_exec line) as [[[b g] a]|]; [|reflexivity].
  rewrite app_assoc, trim_snoc_blank by reflexivity. reflexivity.
Qed.

Lemma split_app_sep sep w s :
  ~ In sep w -> split sep (w ++ sep :: s) = w :: split sep s.
Proof.
  induction w as [|c w IH]; intros Hw.
  - simpl. rewrite N.eqb_refl. reflexivity.
  - simpl. destruct (N.eqb_spec c sep) as [->|Hne].
    + exfalso. apply Hw. left. reflexivity.
    + rewrite IH; [reflexivity|]. intros H. apply Hw. right. exact H.
Qed.

Lemma cues_crlf lines :
  (forall l, In l lines -> ~ In 10%N l) ->
  flat_map line_cues (split 10%N (join crlf lines))
  = flat_map line_cues (split 10%N (join lf lines)).
Proof.
  induction lines as [|w [|w' ws] IH]; intros Hl; try reflexivity.
  assert (Hw : ~ In 10%N w) by (apply Hl; left; reflexivity).
  change (join crlf (w :: w' :: ws))
    with (w ++ [13%N; 10%N] ++ join crlf (w' :: ws)).
  change (join lf (w :: w' :: ws)) with (w ++ [10%N] ++ join lf (w' :: ws)).
  change (w ++ [13%N; 10%N] ++ join crlf (w' :: ws))
    with (w ++ [13%N] ++ 10%N :: join crlf (w' :: ws)).
  rewrite app_assoc.
  change ([10%N] ++ join lf (w' :: ws)) with (10%N :: join lf (w' :: ws)).
  rewrite !split_app_sep.
  - cbn [flat_map]. rewrite line_cues_cr, IH; [reflexivity|].
    intros l Hin. apply Hl. right. exact Hin.
  - exact Hw.
  - intros H. apply in_app_or in H. destruct H as [H|[H|[]]]; [exact (Hw H)|discriminate H].
Qed.

(** X3. Windows line ends: a file whose lines end in CR LF parses to the
    same cues as the file with LF alone. *)
Theorem parseLrc_crlf : forall lines,
  (forall l, In l lines -> ~ In 10%N l) ->
  parseLrc (join crlf lines) = parseLrc (join lf lines).
Proof.
  intros lines Hl. unfold parseLrc. rewrite !fold_parse_line.
  cbn [app]. rewrite (cues_crlf lines Hl). reflexivity.
Qed.

Lemma parseLrc_crlf_witness :
  parseLrc (join crlf two_lines) = parseLrc (join lf two_lines) /\
  map text (parseLrc (join crlf two_lines)) = [lit "a"; lit "b"].
Proof.
  split; [|vm_compute; reflexivity].
  apply (parseLrc_crlf two_lines).
  intros l [<-|[<-|[]]]; vm_compute; intuition discriminate.
Defined.

End ParserText.

(** ** The lines of a file and their cues *)

Section ParserLines.
Import Js Binary64 Lrc LrcFile.

Lemma tag_of_tagged m1 m2 s1 s2 sep f rest :
  tag_of {| mm := [m1; m2]; ss := [s1; s2]; frac := f |} sep ++ rest
  = tagged m1 m2 s1 s2 sep f rest.
Proof.
  unfold tag_of, tagged. cbn [mm ss frac app]. rewrite <- app_assoc. reflexivity.
Qed.

Lemma timeReg_at_tag g sep after :
  digit_groups g -> sep = 46%N \/ sep = 58%N ->
  timeReg_at (tag_of g sep ++ after) = Some (g, after).
Proof.
  intros (m1 & m2 & s1 & s2 & Hm & Hs & Hm1 & Hm2 & Hs1 & Hs2 & Hf & Hlen) Hsep.
  destruct g as [gm gs gf]. cbn [mm ss frac] in *. subst gm gs.
  pose proof (timeReg_exec_tagged m1 m2 s1 s2 sep gf after Hm1 Hm2 Hs1 Hs2 Hsep Hf Hlen)
    as H.
  rewrite tag_of_tagged.
  remember (tagged m1 m2 s1 s2 sep gf after) as l eqn:El.
  destruct l as [|c l]; [discriminate El|].
  rewrite timeReg_exec_cons in H.
  destruct (timeReg_at (c :: l)) as [[g' a']|].
  - injection H as -> ->. reflexivity.
  - destruct (timeReg_exec l) as [[[b g'] a']|]; discriminate H.
Qed.

(** What [timeReg] matches is a tag. *)
Lemma timeReg_at_sep s g rest :
  timeReg_at s = Some (g, rest) ->
  exists sep, s = tag_of g sep ++ rest /\ (sep = 46%N \/ sep = 58%N).
Proof.
  unfold timeReg_at.
  destruct s as [|lb [|m1 [|m2 [|c1 [|s1 [|s2 [|sep [|f1 [|f2 r]]]]]]]]]; try discriminate.
  destruct (_ && _) eqn:E; [|discriminate].
  repeat (apply andb_prop in E; destruct E as [E ?]).
  apply N.eqb_eq in E. subst lb.
  match goal with H : (c1 =? 58)%N = true |- _ => apply N.eqb_eq in H; subst c1 end.
  assert (Hsep : sep = 46%N \/ sep = 58%N).
  { match goal with
    | H : (_ || _) = true |- _ =>
        apply orb_prop in H; destruct H as [H|H]; apply N.eqb_eq in H;
        [left|right]; exact H
    end. }
  destruct r as [|f3 r']; [discriminate|].
  destruct (is_digit f3).
  - destruct r' as [|rb r'']; [discriminate|].
    destruct (N.eqb_spec rb 93); [|discriminate].
    intros [= <- <-]. subst rb. exists sep. split; [reflexivity|exact Hsep].
  - destruct (N.eqb_spec f3 93); [|discriminate].
    intros [= <- <-]. subst f3. exists sep. split; [reflexivity|exact Hsep].
Qed.

(** No character of a tag after the first is an opening bracket. *)
Lemma tag_of_brackets g sep :
  digit_groups g -> sep = 46%N \/ sep = 58%N ->
  exists body, tag_of g sep = 91%N :: body /\ ~ In 91%N body.
Proof.
  intros (m1 & m2 & s1 & s2 & Hm & Hs & Hm1 & Hm2 & Hs1 & Hs2 & Hf & Hlen) Hsep.
  destruct g as [gm gs gf]. cbn [mm ss frac] in *. subst gm gs.
  unfold tag_of. cbn [mm ss frac app]. eexists. split; [reflexivity|].
  assert (Hd : forall c, is_digit c = true -> 91%N <> c).
  { intros c Hc <-. discriminate Hc. }
  intros Hin. simpl in Hin.
  repeat (destruct Hin as [Hin|Hin];
          [first [discriminate Hin
                 | revert Hin; apply not_eq_sym, not_eq_sym, Hd; assumption
                 | destruct Hsep; subst; discriminate] | ]).
  apply in_app_or in Hin. destruct Hin as [Hin|Hin].
  - rewrite forallb_forall in Hf. apply (Hd 91%N (Hf _ Hin)). reflexivity.
  - simpl in Hin. destruct Hin as [Hin|[]]. discriminate Hin.
Qed.

Lemma has_tag_cons c line : has_tag line -> has_tag (c :: line).
Proof.
  intros (before & g & sep & after & -> & Hg & Hsep).
  exists (c :: before), g, sep, after. repeat split; assumption.
Qed.

(** A tag that begins in [before] ends in it, when a tag follows. *)
Lemma tag_within before g sep after g' sep' after' :
  digit_groups g -> sep = 46%N \/ sep = 58%N ->
  digit_groups g' -> sep' = 46%N \/ sep' = 58%N ->
  before <> [] ->
  before ++ tag_of g sep ++ after = tag_of g' sep' ++ after' ->
  has_tag before.
Proof.
  intros Hg Hsep Hg' Hsep' Hne E.
  destruct (tag_of_brackets g sep Hg Hsep) as [body [Hb _]].
  destruct (tag_of_brackets g' sep' Hg' Hsep') as [body' [Hb' Hn']].
  apply app_eq_app in E. destruct E as [l [[E1 E2]|[E1 E2]]].
  - exists [], g', sep', l. repeat split; assumption.
  - destruct l as [|c l].
    + rewrite app_nil_r in E1. exists [], g', sep', []. rewrite app_nil_r.
      repeat split; try assumption. simpl. symmetry. exact E1.
    + exfalso. rewrite Hb in E2. cbn [app] in E2. injection E2 as <- _.
      destruct before as [|c0 before]; [congruence|].
      rewrite Hb' in E1. cbn [app] in E1. injection E1 as _ E1.
      apply Hn'. rewrite E1. apply in_or_app. right. left. reflexivity.
Qed.

(** The match is at the first tag of the line. *)
Lemma timeReg_exec_first before : forall g sep after,
  digit_groups g -> sep = 46%N \/ sep = 58%N ->
  ~ has_tag before ->
  timeReg_exec (before ++ tag_of g sep ++ after) = Some (before, g, after).
Proof.
  induction before as [|c before IH]; intros g sep after Hg Hsep Hno.
  - cbn [app].
    destruct (tag_of_brackets g sep Hg Hsep) as [body [Hb _]].
    pose proof (timeReg_at_tag g sep after Hg Hsep) as H.
    rewrite Hb in *. cbn [app] in *. rewrite timeReg_exec_cons, H. reflexivity.
  - cbn [app]. rewrite timeReg_exec_cons.
    destruct (timeReg_at (c :: before ++ tag_of g sep ++ after)) as [[g' after']|] eqn:E.
    + exfalso. apply Hno.
      pose proof (timeReg_at_groups _ _ _ E) as Hg'.
      destruct (timeReg_at_sep _ _ _ E) as [sep' [Hs Hsep']].
      apply (tag_within (c :: before) g sep after g' sep' after');
        try assumption; discriminate.
    + rewrite (IH g sep after Hg Hsep); [reflexivity|].
      intros H. apply Hno. apply has_tag_cons. exact H.
Qed.

(** A line has a match exactly when it has a tag. *)
Lemma timeReg_exec_has_tag line :
  (forall before g after, timeReg_exec line = Some (before, g, after) ->
     has_tag line /\ ~ has_tag before) /\
  (timeReg_exec line = None -> ~ has_tag line).
Proof.
  induction line as [|c line [IH1 IH2]].
  - split; [discriminate|]. intros _ (before & g & sep & after & E & Hg & Hsep).
    destruct (tag_of_brackets g sep Hg Hsep) as [body [Hb _]].
    rewrite Hb in E. destruct before; discriminate E.
  - rewrite timeReg_exec_cons.
    destruct (timeReg_at (c :: line)) as [[g' after']|] eqn:E.
    + split; [|discriminate].
      intros before g after [= <- <- <-].
      pose proof (timeReg_at_groups _ _ _ E) as Hg'.
      destruct (timeReg_at_sep _ _ _ E) as [sep' [Hs Hsep']].
      split.
      * exists [], g', sep', after'. repeat split; assumption.
      * intros (before & g & sep & after & E0 & _). 
        destruct before; discriminate E0.
    + destruct (timeReg_exec line) as [[[b g] a]|] eqn:El.
      * split; [|discriminate].
        intros before g0 after [= <- <- <-].
        destruct (IH1 b g a eq_refl) as [Hl Hb]. split; [apply has_tag_cons; exact Hl|].
        intros (before & g1 & sep & after & E0 & Hg & Hsep).
        destruct before as [|c0 before].
        -- cbn [app] in E0.
           destruct (timeReg_exec_parts line b g a El) as [sepl Hline].
           assert (Hat : timeReg_at (c :: line) = Some (g1, after ++ tag_of g sepl ++ a)).
           { rewrite Hline. change (c :: b ++ tag_of g sepl ++ a)
               with ((c :: b) ++ tag_of g sepl ++ a).
             rewrite E0, <- !app_assoc. apply timeReg_at_tag; assumption. }
           congruence.
        -- cbn [app] in E0. injection E0 as _ E0. apply Hb.
           exists before, g1, sep, after. repeat split; assumption.
      * split; [discriminate|]. intros _ (before & g & sep & after & E0 & Hg & Hsep).
        destruct before as [|c0 before].
        -- cbn [app] in E0. rewrite E0, timeReg_at_tag in E by assumption. discriminate E.
        -- cbn [app] in E0. injection E0 as _ E0. apply (IH2 eq_refl).
           exists before, g, sep, after. repeat split; assumption.
Qed.

Lemma timeReg_exec_parts_sep line : forall before g after,
  timeReg_exec line = Some (before, g, after) ->
  exists sep, line = before ++ tag_of g sep ++ after /\ (sep = 46%N \/ sep = 58%N).
Proof.
  induction line as [|c line IH]; intros before g after.
  - simpl. discriminate.
  - rewrite timeReg_exec_cons.
    destruct (timeReg_at (c :: line)) as [[g' after']|] eqn:E.
    + intros [= <- <- <-]. apply timeReg_at_sep in E. exact E.
    + destruct (timeReg_exec line) as [[[b g'] a]|]; [|discriminate].
      intros [= <- <- <-]. destruct (IH b g' a eq_refl) as [sep [-> Hsep]].
      exists sep. split; [reflexivity|exact Hsep].
Qed.

Lemma line_cues_no_tag line : ~ has_tag line -> line_cues line = [].
Proof.
  intros Hno. pose proof (line_cues_cases line) as Hc.
  destruct (timeReg_exec line) as [[[before g] after]|] eqn:E; [|exact Hc].
  exfalso. apply Hno. exact (proj1 (proj1 (timeReg_exec_has_tag line) before g after E)).
Qed.

Lemma line_cues_first_tag before g sep after :
  digit_groups g -> sep = 46%N \/ sep = 58%N -> ~ has_tag before ->
  line_cues (before ++ tag_of g sep ++ after)
  = if truthy (trim (before ++ after))
    then [{| time := totalSeconds g; text := trim (before ++ after) |}]
    else [].
Proof.
  intros Hg Hsep Hno. unfold line_cues, parse_line.
  rewrite (timeReg_exec_first before g sep after Hg Hsep Hno). reflexivity.
Qed.

Lemma has_tag_first line :
  has_tag line ->
  exists before g sep after,
    line = before ++ tag_of g sep ++ after /\
    digit_groups g /\ (sep = 46%N \/ sep = 58%N) /\ ~ has_tag before.
Proof.
  intros Ht.
  destruct (timeReg_exec line) as [[[before g] after]|] eqn:E.
  - destruct (timeReg_exec_parts_sep line before g after E) as [sep [Hl Hsep]].
    exists before, g, sep, after. split; [exact Hl|].
    split; [exact (timeReg_exec_groups _ _ _ _ E)|]. split; [exact Hsep|].
    exact (proj2 (proj1 (timeReg_exec_has_tag line) before g after E)).
  - exfalso. exact (proj2 (timeReg_exec_has_tag line) E Ht).
Qed.

Lemma line_cues_at_most_one line : (List.length (line_cues line) <= 1)%nat.
Proof.
  pose proof (line_cues_cases line) as Hc.
  destruct (timeReg_exec line) as [[[before g] after]|].
  - destruct Hc as [_ [H0 H1]].
    destruct (trim (before ++ after)) as [|ch t] eqn:Et.
    + rewrite H0 by reflexivity. simpl. lia.
    + rewrite H1 by discriminate. simpl. lia.
  - rewrite Hc. simpl. lia.
Qed.

(** C3, as the code has it. [parseLrc] is a function of every string:
    no step of it can raise. Its result is the cues of the lines, one
    line at a time, in time order. A line without a well-formed tag has
    no cue. A line with a tag has the cue of its first tag, with the
    text before the tag joined to the text after it and trimmed, unless
    that text is blank: then it has none. No line has more than one
    cue; the times do not decrease; every cue has a text that is not
    empty and a time that is a finite number not below 0. *)
Theorem parseLrc_spec : forall lrcContent : jsstring,
  Permutation (parseLrc lrcContent) (flat_map line_cues (split 10%N lrcContent)) /\
  (forall line, ~ has_tag line -> line_cues line = []) /\
  (forall before g sep after,
     digit_groups g -> sep = 46%N \/ sep = 58%N -> ~ has_tag before ->
     line_cues (before ++ tag_of g sep ++ after)
     = if truthy (trim (before ++ after))
       then [{| time := totalSeconds g; text := trim (before ++ after) |}]
       else []) /\
  (forall line, has_tag line ->
     exists before g sep after,
       line = before ++ tag_of g sep ++ after /\
       digit_groups g /\ (sep = 46%N \/ sep = 58%N) /\ ~ has_tag before) /\
  (forall line, (List.length (line_cues line) <= 1)%nat) /\
  time_sorted (parseLrc lrcContent) /\
  (forall c, In c (parseLrc lrcContent) ->
     text c <> [] /\ (0 <=? time c)%float = true /\ finite (time c)).
Proof.
  intros lrcContent.
  split; [apply parseLrc_perm|].
  split; [exact line_cues_no_tag|].
  split; [exact line_cues_first_tag|].
  split; [exact has_tag_first|].
  split; [exact line_cues_at_most_one|].
  split; [|exact (parseLrc_good lrcContent)].
  unfold parseLrc. apply Array_sort_sorted.
  rewrite fold_parse_line. simpl app.
  apply Forall_forall. intros c Hin.
  apply in_flat_map in Hin. destruct Hin as [line [_ Hc]].
  apply (line_cues_good line c Hc).
Qed.

Lemma no_tag_example : ~ has_tag (lit "no tag").
Proof.
  apply (proj2 (timeReg_exec_has_tag (lit "no tag"))). vm_compute. reflexivity.
Qed.

Lemma parseLrc_spec_witness :
  map time (parseLrc unsorted_lrc) = [1.5; 5]%float /\
  line_cues (lit "no tag") = [] /\
  line_cues (lit "[00:03.00]  ") = [] /\
  line_cues (lit "la [00:01.50] la")
  = [{| time := 1.5; text := lit "la  la" |}].
Proof.
  split; [vm_compute; reflexivity|]. split; [|split].
  - apply (proj1 (proj2 (parseLrc_spec unsorted_lrc)) (lit "no tag")).
    exact no_tag_example.
  - apply (proj1 (proj2 (proj2 (parseLrc_spec unsorted_lrc)))
             [] {| mm := lit "00"; ss := lit "03"; frac := lit "00" |} 46%N (lit "  ")).
    + exists 48%N, 48%N, 48%N, 51%N. repeat split; try reflexivity. left. reflexivity.
    + left. reflexivity.
    + apply (proj2 (timeReg_exec_has_tag [])). reflexivity.
  - apply (proj1 (proj2 (proj2 (parseLrc_spec unsorted_lrc)))
             (lit "la ") {| mm := lit "00"; ss := lit "01"; frac := lit "50" |} 46%N
             (lit " la")).
    + exists 48%N, 48%N, 48%N, 49%N. repeat split; try reflexivity. left. reflexivity.
    + left. reflexivity.
    + apply (proj2 (timeReg_exec_has_tag (lit "la "))). reflexivity.
Defined.

(** The claim has no cue for a line with an empty trailing text. The
    text before the tag counts as well: the line [a[00:02.50]] has
    nothing behind its tag and has a cue. *)
Lemma parseLrc_text_before_tag :
  lit "a[00:02.50]"
  = lit "a" ++ tag_of {| mm := lit "00"; ss := lit "02"; frac := lit "50" |} 46%N ++ [] /\
  line_cues (lit "a[00:02.50]") = [{| time := 2.5; text := lit "a" |}] /\
  parseLrc (lit "a[00:02.50]") = [{| time := 2.5; text := lit "a" |}].
Proof. vm_compute. repeat split. Qed.

(** *** The lines of a file *)

Lemma cues_of_lines lines :
  (forall l, In l lines -> ~ In 10%N l) ->
  flat_map line_cues (split 10%N (join lf lines)) = flat_map line_cues lines.
Proof.
  induction lines as [|w [|w' ws] IH]; intros Hl.
  - reflexivity.
  - cbn [join]. rewrite split_no_sep by (apply Hl; left; reflexivity). reflexivity.
  - change (join lf (w :: w' :: ws)) with (w ++ 10%N :: join lf (w' :: ws)).
    rewrite split_app_sep by (apply Hl; left; reflexivity).
    cbn [flat_map]. rewrite IH; [reflexivity|].
    intros l Hin. apply Hl. right. exact Hin.
Qed.

Lemma parseLrc_lines lines :
  (forall l, In l lines -> ~ In 10%N l) ->
  parseLrc (join lf lines) = Array_sort by_time (flat_map line_cues lines).
Proof.
  intros Hl. unfold parseLrc. rewrite fold_parse_line. cbn [app].
  rewrite (cues_of_lines lines Hl). reflexivity.
Qed.

Lemma tagged_no_line_feed m1 m2 s1 s2 sep f rest :
  is_digit m1 = true -> is_digit m2 = true ->
  is_digit s1 = true -> is_digit s2 = true ->
  sep = 46%N \/ sep = 58%N ->
  forallb is_digit f = true ->
  ~ In 10%N rest -> ~ In 10%N (tagged m1 m2 s1 s2 sep f rest).
Proof.
  intros Hm1 Hm2 Hs1 Hs2 Hsep Hf Hnl Hin. unfold tagged in Hin.
  assert (Hd : forall c, is_digit c = true -> c <> 10%N).
  { intros c Hc ->. discriminate Hc. }
  simpl in Hin.
  repeat (destruct Hin as [Hin|Hin];
          [first [discriminate Hin
                 | symmetry in Hin; revert Hin; apply Hd; assumption
                 | destruct Hsep; subst; discriminate] | ]).
  apply in_app_or in Hin. destruct Hin as [Hin|Hin].
  - rewrite forallb_forall in Hf. apply (Hd 10%N (Hf _ Hin)). reflexivity.
  - simpl in Hin. destruct Hin as [Hin|Hin]; [discriminate Hin|]. exact (Hnl Hin).
Qed.

Lemma line_cues_tagged m1 m2 s1 s2 sep f rest :
  is_digit m1 = true -> is_digit m2 = true ->
  is_digit s1 = true -> is_digit s2 = true ->
  sep = 46%N \/ sep = 58%N ->
  forallb is_digit f = true -> List.length f = 2%nat \/ List.length f = 3%nat ->
  line_cues (tagged m1 m2 s1 s2 sep f rest)
  = if truthy (trim rest)
    then [{| time := seconds_of m1 m2 s1 s2 f; text := trim rest |}]
    else [].
Proof.
  intros Hm1 Hm2 Hs1 Hs2 Hsep Hf Hlen. unfold line_cues, parse_line.
  rewrite timeReg_exec_tagged by assumption. reflexivity.
Qed.

(** C2, as the code has it. In a file of lines, a line that is a tag
    [[MM:SS.xx]] or [[MM:SS:xxx]] followed by text that is not blank
    adds exactly one cue to the cues of the other lines: at
    [MM*60 + SS + frac/d] seconds, with [d] 1000 for three fractional
    digits and 100 for two, and with the rest of the line trimmed as its
    text; when the line is the whole file that cue is the result. A
    line that is a tag followed by blank text adds nothing. The two
    lines of the design document parse as it says, and a file of two
    tagged lines has two cues. *)
Theorem parseLrc_tagged_line :
  (forall above below m1 m2 s1 s2 sep f rest,
     is_digit m1 = true -> is_digit m2 = true ->
     is_digit s1 = true -> is_digit s2 = true ->
     sep = 46%N \/ sep = 58%N ->
     forallb is_digit f = true -> List.length f = 2%nat \/ List.length f = 3%nat ->
     ~ In 10%N rest ->
     (forall l, In l (above ++ below) -> ~ In 10%N l) ->
     let line := tagged m1 m2 s1 s2 sep f rest in
     let cue := {| time := seconds_of m1 m2 s1 s2 f; text := trim rest |} in
     (trim rest <> [] ->
      Permutation (parseLrc (join lf (above ++ line :: below)))
                  (cue :: parseLrc (join lf (above ++ below))) /\
      parseLrc line = [cue]) /\
     (trim rest = [] ->
      parseLrc (join lf (above ++ line :: below)) = parseLrc (join lf (above ++ below)) /\
      parseLrc line = [])) /\
  parseLrc (lit "[00:01.50]Hello") = [{| time := 1.5; text := lit "Hello" |}] /\
  parseLrc (lit "[00:01:500]Hi") = [{| time := 1.5; text := lit "Hi" |}] /\
  parseLrc (lit "[00:01.00]a" ++ lf ++ lit "[00:02.50]b")
  = [{| time := 1; text := lit "a" |}; {| time := 2.5; text := lit "b" |}].
Proof.
  split; [|repeat split; vm_compute; reflexivity].
  intros above below m1 m2 s1 s2 sep f rest Hm1 Hm2 Hs1 Hs2 Hsep Hf Hlen Hnl Hl line cue.
  assert (Hline : ~ In 10%N line) by (apply tagged_no_line_feed; assumption).
  assert (Hall : forall l, In l (above ++ line :: below) -> ~ In 10%N l).
  { intros l Hin. apply in_app_or in Hin. destruct Hin as [Hin|[<-|Hin]].
    - apply Hl. apply in_or_app. left. exact Hin.
    - exact Hline.
    - apply Hl. apply in_or_app. right. exact Hin. }
  assert (Hone : parseLrc line = Array_sort by_time (line_cues line)).
  { unfold parseLrc. rewrite (split_no_sep 10%N line Hline).
    cbn [fold_left]. rewrite parse_line_app. reflexivity. }
  pose proof (line_cues_tagged m1 m2 s1 s2 sep f rest Hm1 Hm2 Hs1 Hs2 Hsep Hf Hlen) as Hc.
  fold line in Hc.
  rewrite (parseLrc_lines _ Hall), (parseLrc_lines _ Hl), Hone, Hc.
  rewrite !flat_map_app. cbn [flat_map]. rewrite Hc.
  split; intros Ht.
  - rewrite (truthy_nonempty _ Ht). split; [|reflexivity].
    rewrite !Array_sort_perm. cbn [app].
    symmetry. apply Permutation_middle.
  - rewrite Ht. cbn [truthy app]. split; reflexivity.
Qed.

Lemma parseLrc_tagged_line_witness :
  Permutation
    (parseLrc (join lf [lit "[00:05.00]b";
                        tagged 48 49 50 51 46 [52; 53]%N (lit " la la ");
                        lit "no tag"]))
    ({| time := seconds_of 48 49 50 51 [52; 53]%N; text := lit "la la" |}
     :: parseLrc (join lf [lit "[00:05.00]b"; lit "no tag"])) /\
  parseLrc (join lf [lit "[00:05.00]b"; tagged 48 48 48 51 46 [48; 48]%N (lit "  ")])
  = parseLrc (join lf [lit "[00:05.00]b"]).
Proof.
  split.
  - apply (proj1 parseLrc_tagged_line [lit "[00:05.00]b"] [lit "no tag"]
             48%N 49%N 50%N 51%N 46%N [52; 53]%N (lit " la la "));
      try reflexivity; try (left; reflexivity).
    + vm_compute. intuition discriminate.
    + intros l [<-|[<-|[]]]; vm_compute; intuition discriminate.
    + discriminate.
  - apply (proj1 parseLrc_tagged_line [lit "[00:05.00]b"] []
             48%N 48%N 48%N 51%N 46%N [48; 48]%N (lit "  "));
      try reflexivity; try (left; reflexivity).
    + vm_compute. intuition discriminate.
    + intros l [<-|[]]; vm_compute; intuition discriminate.
Defined.

(** The claim has one cue for every tag that text follows. Text that is
    only white space does not count: the line [[00:03.00]] followed by
    two spaces has no cue. *)
Lemma parseLrc_blank_text :
  lit "[00:03.00]  " = tagged 48 48 48 51 46 (lit "00") (lit "  ") /\
  lit "  " <> [] /\
  parseLrc (lit "[00:03.00]  ") = [].
Proof. split; [reflexivity|]. split; [discriminate|]. vm_compute. reflexivity. Qed.

End ParserLines.

(** ** More on numbers *)

Section MoreNumbers.
Import Js Binary64 NumberFacts.
Local Open Scope float_scope.

(** Integers are finite numbers. *)
Lemma of_uint63_finite n : finite (of_uint63 n).
Proof.
  unfold finite. rewrite of_uint63_spec.
  pose proof (Uint63.to_Z_bounded n) as Hb.
  destruct (Uint63.to_Z n) as [|m|m] eqn:E; [reflexivity| |lia].
  unfold binary_normalize.
  destruct (binary_round_finite false m 0) as [m' [e' ->]]; try reflexivity.
  - unfold Binary64.emin, SpecFloat.emin, emax, prec. lia.
  - unfold emax, prec. lia.
  - unfold digits. assert (Z.log2 (Zpos m) < 63)%Z.
    { apply Z.log2_lt_pow2; [lia|]. change (2 ^ 63)%Z with Uint63.wB. lia. }
    unfold emax. lia.
Qed.

Lemma opp_finite x : finite x -> finite (- x).
Proof.
  unfold finite. rewrite opp_spec. destruct (Prim2SF x); simpl; congruence.
Qed.

Lemma of_Z_finite z : finite (of_Z z).
Proof.
  unfold of_Z. destruct (z <? 0)%Z; [apply opp_finite|]; apply of_uint63_finite.
Qed.

(** The difference of a finite number and itself is a zero. *)
Lemma sub_self x : finite x -> exists s, Prim2SF (x - x) = S754_zero s.
Proof.
  intros Fx. pose proof (SFsub_compare_zero (Prim2SF x) (Prim2SF x)
    (Prim2SF_valid x) (Prim2SF_valid x) Fx Fx) as H.
  rewrite sub_spec. unfold SF64sub.
  assert (Hxx : SFcompare (Prim2SF x) (Prim2SF x) = Some Eq).
  { unfold finite in Fx. destruct (Prim2SF x) as [[]|[]| |[] m e]; try discriminate;
      try reflexivity; simpl; rewrite Z.compare_refl;
      change (Pos.compare_cont Eq m m) with (Pos.compare m m);
      rewrite Pos.compare_refl; reflexivity. }
  rewrite Hxx in H.
  destruct (SFsub prec emax (Prim2SF x) (Prim2SF x)) as [s|[]| |[] m e];
    try discriminate H; eauto.
Qed.

Lemma abs_sub_self x : finite x -> Math_abs (x - x) = 0.
Proof.
  intros Fx. destruct (sub_self x Fx) as [s Hs].
  apply Prim2SF_inj. unfold Math_abs. rewrite abs_spec, Hs. reflexivity.
Qed.

End MoreNumbers.

(** ** The smoothed index at rest and the bounds of the active index *)

Section Scroll.
Import Js Lrc Timeline.
Local Open Scope float_scope.

Lemma scroll_step_rest a : scroll_step a (of_Z a) = of_Z a.
Proof.
  unfold scroll_step. rewrite abs_sub_self by apply of_Z_finite. reflexivity.
Qed.

Lemma scroll_ticks_at_target k a : scroll_ticks k a (of_Z a) = of_Z a.
Proof.
  induction k as [|k IH]; [reflexivity|].
  simpl. rewrite scroll_step_rest. exact IH.
Qed.

(** X8. At its target the smoothed index rests, whatever the target; and
    a jump of more than 10 lines, a seek, is taken in one tick and kept. *)
Theorem scroll_settles : forall a,
  (forall k, scroll_ticks k a (of_Z a) = of_Z a) /\
  (forall s k, gtb (Math_abs (of_Z a - s)) 10 = true ->
               scroll_ticks (S k) a s = of_Z a).
Proof.
  intros a. split.
  - intros k. apply scroll_ticks_at_target.
  - intros s k H. simpl. unfold scroll_step at 1. rewrite H.
    apply scroll_ticks_at_target.
Qed.

Lemma scroll_settles_witness :
  gtb (Math_abs (of_Z 20 - 0)) 10 = true /\ scroll_ticks 3 20 0 = of_Z 20.
Proof.
  split; [reflexivity|].
  apply (proj2 (scroll_settles 20) 0 2%nat). reflexivity.
Defined.

(** X6. The active index addresses a cue of every timeline that has one,
    at every time, a NaN included. *)
Theorem activeIndex_in_bounds : forall lyrics t,
  lyrics <> [] ->
  exists c, nth_error lyrics (Z.to_nat (activeIndex t lyrics)) = Some c.
Proof.
  intros lyrics t Hne. rewrite activeIndex_passed, Nat2Z.id.
  pose proof (passed_length t lyrics) as Hl.
  destruct (nth_error lyrics (Nat.pred (passed t lyrics))) as [c|] eqn:E; [eauto|].
  apply nth_error_None in E. destruct lyrics; [congruence|]. simpl in *. lia.
Qed.

Lemma activeIndex_in_bounds_witness :
  exists c, nth_error two_cues (Z.to_nat (activeIndex nan two_cues)) = Some c.
Proof. apply (activeIndex_in_bounds two_cues nan). discriminate. Defined.

End Scroll.

(** ** Parsing and looking up *)

Section ParseThenLookUp.
Import Js Binary64 Lrc Timeline NumberFacts.
Local Open Scope float_scope.

Lemma parseLrc_sorted lrcContent : time_sorted (parseLrc lrcContent).
Proof.
  unfold parseLrc. apply Array_sort_sorted.
  rewrite fold_parse_line. simpl app.
  apply Forall_forall. intros c Hin.
  apply in_flat_map in Hin. destruct Hin as [line [_ Hc]].
  apply (line_cues_good line c Hc).
Qed.

(** A finite number that is not at or before [t] is after it, unless
    [t] is NaN. *)
Lemma SFcompare_defined X T Y :
  finite_sf X = true -> SFleb Y T = true -> exists c, SFcompare X T = Some c.
Proof.
  intros HX HY.
  destruct T as [st|st| |st mt et];
    [| |destruct Y; simpl in HY; discriminate HY|];
    (destruct X as [sx|sx| |sx mx ex]; try discriminate HX; simpl; eauto).
Qed.

Lemma not_geb_ltb t x y :
  finite x -> geb t y = true -> geb t x = false -> (t <? x) = true.
Proof.
  unfold finite, geb. rewrite !leb_spec, ltb_spec. intros HX HY HXT.
  destruct (SFcompare_defined _ _ _ HX HY) as [c Hc].
  unfold SFleb in HXT. unfold SFltb.
  rewrite (SFcompare_antisym (Prim2SF x) (Prim2SF t)), Hc.
  rewrite Hc in HXT. destruct c; try discriminate HXT. reflexivity.
Qed.

(** X7. Parsing and looking up: at a time at or after the first cue of a
    parsed file, the active index is that of a cue at or before the time,
    and every cue behind it is after the time. *)
Theorem activeIndex_of_parsed : forall lrcContent t,
  let lyrics := parseLrc lrcContent in
  (exists c, In c lyrics /\ geb t (time c) = true) ->
  exists c, nth_error lyrics (Z.to_nat (activeIndex t lyrics)) = Some c /\
    geb t (time c) = true /\
    forall j c', (Z.to_nat (activeIndex t lyrics) < j)%nat ->
      nth_error lyrics j = Some c' -> (t <? time c') = true.
Proof.
  intros lrcContent t lyrics Hex.
  pose proof (parseLrc_sorted lrcContent) as Hs. fold lyrics in Hs.
  pose proof (passed_some t lyrics Hs Hex) as Hp.
  pose proof (passed_length t lyrics) as Hl.
  rewrite activeIndex_passed, Nat2Z.id.
  destruct (nth_error lyrics (Nat.pred (passed t lyrics))) as [c|] eqn:Hc.
  - exists c. split; [reflexivity|].
    assert (Hq : geb t (time c) = true).
    { apply (passed_qualify t lyrics (Nat.pred (passed t lyrics)) c); [lia|exact Hc]. }
    split; [exact Hq|].
    intros j c' Hj Hc'.
    apply (not_geb_ltb t (time c') (time c)); [|exact Hq|].
    + apply (parseLrc_good lrcContent c'). apply (nth_error_In _ _ Hc').
    + apply (passed_rest_fail t lyrics Hs j c'); [lia|exact Hc'].
  - apply nth_error_None in Hc. lia.
Qed.

Lemma activeIndex_of_parsed_witness :
  exists c,
    nth_error (parseLrc unsorted_lrc) (Z.to_nat (activeIndex 2 (parseLrc unsorted_lrc)))
    = Some c /\
    geb 2 (time c) = true /\
    forall j c', (Z.to_nat (activeIndex 2 (parseLrc unsorted_lrc)) < j)%nat ->
      nth_error (parseLrc unsorted_lrc) j = Some c' -> (2 <? time c') = true.
Proof.
  apply (activeIndex_of_parsed unsorted_lrc 2).
  exists {| time := 1.5; text := lit "a" |}.
  split; [vm_compute; left; reflexivity|reflexivity].
Defined.

End ParseThenLookUp.

(** ** Colour codes *)

Section HexColours.
Import Js Types Renderer Colours.

Lemma hex_digit_val_range c : is_hex_digit c = true -> (0 <= hex_digit_val c <= 15)%Z.
Proof.
  unfold is_hex_digit, hex_digit_val, is_digit. intros H.
  repeat match goal with
  | |- context [(?a <=? ?b)%N] => destruct (N.leb_spec a b)
  | H : context [(?a <=? ?b)%N] |- _ => destruct (N.leb_spec a b)
  end; simpl in *; try discriminate; lia.
Qed.

Lemma parseInt16_pair c d :
  is_hex_digit c = true -> is_hex_digit d = true -> byte (parseInt16 [c; d]).
Proof.
  intros Hc Hd. unfold parseInt16, byte. simpl.
  pose proof (hex_digit_val_range c Hc). pose proof (hex_digit_val_range d Hd). lia.
Qed.

Lemma is_hex_digit_hash c : is_hex_digit c = true -> (c =? 35)%N = false.
Proof.
  intros H. destruct (N.eqb_spec c 35) as [->|]; [discriminate H|reflexivity].
Qed.

(** The channels of every colour read are integers from 0 to 255. *)
Lemma hexToRgb_bytes hex :
  exists x y z, byte x /\ byte y /\ byte z /\ hexToRgb hex = rgb_of x y z.
Proof.
  assert (Hw : exists x y z, byte x /\ byte y /\ byte z /\ white = rgb_of x y z).
  { exists 255%Z, 255%Z, 255%Z. unfold byte. repeat split; lia. }
  unfold hexToRgb, expand_shorthand.
  destruct (strip_hash hex) as [|c1 [|c2 [|c3 [|c4 [|c5 [|c6 [|c7 s]]]]]]] eqn:E;
    try rewrite E; try exact Hw.
  - (* three characters *)
    destruct (is_hex_digit c1 && is_hex_digit c2 && is_hex_digit c3) eqn:H3.
    + apply andb_prop in H3. destruct H3 as [H3 Hc3].
      apply andb_prop in H3. destruct H3 as [Hc1 Hc2].
      unfold strip_hash. rewrite (is_hex_digit_hash c1 Hc1).
      cbn [forallb]. rewrite Hc1, Hc2, Hc3. cbn [andb].
      exists (parseInt16 [c1; c1]), (parseInt16 [c2; c2]), (parseInt16 [c3; c3]).
      repeat split; try apply parseInt16_pair; assumption.
    + rewrite E. exact Hw.
  - (* six characters *)
    destruct (forallb is_hex_digit [c1; c2; c3; c4; c5; c6]) eqn:H6; [|exact Hw].
    cbn [forallb] in H6.
    repeat (apply andb_prop in H6; let H := fresh "Hc" in destruct H6 as [H H6]).
    exists (parseInt16 [c1; c2]), (parseInt16 [c3; c4]), (parseInt16 [c5; c6]).
    repeat split; try apply parseInt16_pair; assumption.
Qed.

(** X9. Every string is a colour: the channels are integers from 0 to
    255, and a string that is not a hexadecimal colour is white. *)
Theorem hexToRgb_total : forall hex,
  (exists x y z, byte x /\ byte y /\ byte z /\ hexToRgb hex = rgb_of x y z) /\
  (hex_colour hex = false -> hexToRgb hex = white).
Proof.
  intros hex. split; [apply hexToRgb_bytes|].
  unfold hexToRgb, hex_colour, expand_shorthand.
  destruct (strip_hash hex) as [|c1 [|c2 [|c3 [|c4 [|c5 [|c6 [|c7 s]]]]]]] eqn:E;
    try rewrite E; try reflexivity.
  - (* three characters *)
    destruct (is_hex_digit c1 && is_hex_digit c2 && is_hex_digit c3) eqn:H3.
    + apply andb_prop in H3. destruct H3 as [H3 Hc3].
      apply andb_prop in H3. destruct H3 as [Hc1 Hc2].
      unfold strip_hash. rewrite (is_hex_digit_hash c1 Hc1).
      cbn [forallb]. rewrite Hc1, Hc2, Hc3. cbn [andb].
      cbn [List.length Nat.eqb orb]. discriminate.
    + rewrite E. reflexivity.
  - (* six characters *)
    destruct (forallb is_hex_digit [c1; c2; c3; c4; c5; c6]) eqn:H6;
      [cbn [List.length Nat.eqb orb andb]; discriminate|reflexivity].
Qed.

Lemma hexToRgb_total_witness :
  hex_colour (lit "red") = false /\ hexToRgb (lit "red") = white.
Proof.
  split; [reflexivity|]. apply (proj2 (hexToRgb_total (lit "red"))). reflexivity.
Defined.

(** X10. The short form stands for the doubled digits and the [#] is
    optional: [#abc], [abc], [#aabbcc] and [aabbcc] are one colour. *)
Theorem hexToRgb_shorthand : forall c1 c2 c3,
  is_hex_digit c1 = true -> is_hex_digit c2 = true -> is_hex_digit c3 = true ->
  let long := [c1; c1; c2; c2; c3; c3] in
  hexToRgb (35%N :: long)
  = rgb_of (parseInt16 [c1; c1]) (parseInt16 [c2; c2]) (parseInt16 [c3; c3]) /\
  hexToRgb long = hexToRgb (35%N :: long) /\
  hexToRgb [35%N; c1; c2; c3] = hexToRgb (35%N :: long) /\
  hexToRgb [c1; c2; c3] = hexToRgb (35%N :: long).
Proof.
  intros c1 c2 c3 H1 H2 H3 long. subst long.
  unfold hexToRgb, expand_shorthand, strip_hash.
  rewrite (is_hex_digit_hash c1 H1). cbn [N.eqb Pos.eqb forallb].
  rewrite H1, H2, H3. cbn [andb]. rewrite (is_hex_digit_hash c1 H1).
  cbn [forallb]. rewrite H1, H2, H3. cbn [andb]. repeat split.
Qed.

Lemma hexToRgb_shorthand_witness :
  hexToRgb [35; 97; 98; 99]%N = hexToRgb [35; 97; 97; 98; 98; 99; 99]%N /\
  hexToRgb [97; 98; 99]%N = hexToRgb [35; 97; 97; 98; 98; 99; 99]%N.
Proof.
  pose proof (hexToRgb_shorthand 97 98 99 eq_refl eq_refl eq_refl) as H.
  cbv zeta in H. destruct H as [_ [_ [H3 H4]]]. split; [exact H3|exact H4].
Defined.

Lemma upper_hex_digit c : is_hex_digit (upper_hex c) = is_hex_digit c.
Proof.
  unfold upper_hex, is_hex_digit, is_digit.
  destruct (N.leb_spec 97 c), (N.leb_spec c 102); cbn [andb]; try reflexivity;
    repeat match goal with
    | |- context [(?a <=? ?b)%N] => destruct (N.leb_spec a b)
    end; simpl; try reflexivity; lia.
Qed.

Lemma upper_hex_val c : hex_digit_val (upper_hex c) = hex_digit_val c.
Proof.
  unfold upper_hex, hex_digit_val, is_digit.
  destruct (N.leb_spec 97 c), (N.leb_spec c 102); cbn [andb]; try reflexivity;
    repeat match goal with
    | |- context [(?a <=? ?b)%N] => destruct (N.leb_spec a b)
    end; simpl; try reflexivity; lia.
Qed.

Lemma upper_hex_hash c : (upper_hex c =? 35)%N = (c =? 35)%N.
Proof.
  unfold upper_hex.
  destruct (N.leb_spec 97 c), (N.leb_spec c 102); cbn [andb]; try reflexivity;
    destruct (N.eqb_spec (c - 32) 35), (N.eqb_spec c 35); try reflexivity; lia.
Qed.

Lemma strip_hash_upper hex : strip_hash (map upper_hex hex) = map upper_hex (strip_hash hex).
Proof.
  destruct hex as [|c hex]; [reflexivity|].
  cbn [map strip_hash]. rewrite upper_hex_hash. destruct (c =? 35)%N; reflexivity.
Qed.

Lemma parseInt16_upper c d :
  parseInt16 [upper_hex c; upper_hex d] = parseInt16 [c; d].
Proof. unfold parseInt16. simpl. rewrite !upper_hex_val. reflexivity. Qed.

(** X11. Colour codes are read without regard to the case of their
    letters. *)
Theorem hexToRgb_upper : forall hex, hexToRgb (map upper_hex hex) = hexToRgb hex.
Proof.
  intros hex. unfold hexToRgb, expand_shorthand.
  rewrite strip_hash_upper.
  destruct (strip_hash hex) as [|c1 [|c2 [|c3 [|c4 [|c5 [|c6 [|c7 s]]]]]]] eqn:E;
    cbn [map]; rewrite ?strip_hash_upper, ?E; cbn [map]; try reflexivity.
  - rewrite !upper_hex_digit.
    destruct (is_hex_digit c1 && is_hex_digit c2 && is_hex_digit c3) eqn:H3.
    + apply andb_prop in H3. destruct H3 as [H3 _].
      apply andb_prop in H3. destruct H3 as [Hc1 _].
      unfold strip_hash. rewrite upper_hex_hash, (is_hex_digit_hash c1 Hc1).
      cbn [forallb]. rewrite !upper_hex_digit, !parseInt16_upper. reflexivity.
    + rewrite strip_hash_upper, E. reflexivity.
  - cbn [forallb]. rewrite !upper_hex_digit, !parseInt16_upper. reflexivity.
Qed.

End HexColours.

(** ** The ends of the blend *)

Section BlendEnds.
Import Js Binary64 Lrc Types Renderer Colours NumberFacts.
Local Open Scope float_scope.

Lemma same_number_eq a b : same_number a b = true -> a = b.
Proof.
  unfold same_number. intros H. apply Prim2SF_inj.
  destruct (Prim2SF a) as [s|s| |s m e], (Prim2SF b) as [s'|s'| |s' m' e'];
    try discriminate; try reflexivity.
  - apply eqb_prop in H. congruence.
  - apply eqb_prop in H. congruence.
  - apply andb_prop in H. destruct H as [H He]. apply andb_prop in H.
    destruct H as [Hs Hm]. apply eqb_prop in Hs. apply Pos.eqb_eq in Hm.
    apply Z.eqb_eq in He. congruence.
Qed.

Lemma channel_ends_check : all_from 256 0 channel_ends = true.
Proof. vm_cast_no_check (eq_refl true). Qed.

Lemma channel_at_ends x y :
  byte x -> byte y -> channel x y 0 = of_Z x /\ channel x y 1 = of_Z y.
Proof.
  unfold byte. intros Hx Hy.
  pose proof (all_from_spec 256 0 channel_ends channel_ends_check x ltac:(lia)) as H.
  unfold channel_ends in H.
  pose proof (all_from_spec 256 0 _ H y ltac:(lia)) as H'.
  cbv beta in H'. apply andb_prop in H'. destruct H' as [H0 H1].
  split; apply same_number_eq; assumption.
Qed.

Lemma SFeqb_finite_refl s m e : SFeqb (S754_finite s m e) (S754_finite s m e) = true.
Proof.
  unfold SFeqb, SFcompare. rewrite Z.compare_refl.
  change (Pos.compare_cont Eq m m) with (Pos.compare m m).
  rewrite Pos.compare_refl. destruct s; reflexivity.
Qed.

Lemma is_nan_spec x : is_nan x = negb (SFeqb (Prim2SF x) (Prim2SF x)).
Proof. unfold is_nan. rewrite eqb_spec. reflexivity. Qed.

(** A factor at or below 0 is clamped to 0. *)
Lemma clamp_low f : (f <=? 0) = true -> clamp f = 0.
Proof.
  rewrite leb_spec. change (Prim2SF 0) with (S754_zero false). intros H.
  assert (Hmin : Math_min 1 f = f).
  { unfold Math_min. rewrite !is_nan_spec, !ltb_spec.
    change (Prim2SF 1) with (S754_finite false 4503599627370496 (-52)).
    destruct (Prim2SF f) as [s|[]| |[] m e]; try discriminate H; try reflexivity.
    rewrite !SFeqb_finite_refl. reflexivity. }
  unfold clamp. rewrite Hmin.
  unfold Math_max. rewrite !is_nan_spec, !ltb_spec.
  change (Prim2SF 0) with (S754_zero false).
  destruct (Prim2SF f) as [s|[]| |[] m e]; try discriminate H; try reflexivity.
  rewrite !SFeqb_finite_refl. reflexivity.
Qed.

(** A factor at or above 1 is clamped to 1. *)
Lemma clamp_high f : (1 <=? f) = true -> clamp f = 1.
Proof.
  rewrite leb_spec. change (Prim2SF 1) with (S754_finite false 4503599627370496 (-52)).
  intros H.
  assert (Hmin : Math_min 1 f = 1).
  { unfold Math_min. rewrite !is_nan_spec, !ltb_spec.
    change (Prim2SF 1) with (S754_finite false 4503599627370496 (-52)).
    destruct (Prim2SF f) as [s|[]| |[] m e] eqn:E; try discriminate H; try reflexivity.
    rewrite !SFeqb_finite_refl. cbn [SFeqb SFcompare negb orb].
    unfold SFleb, SFltb in *. cbn [SFcompare] in *.
    rewrite (Z.compare_antisym (-52) e).
    destruct (Z.compare_spec (-52) e) as [He|He|He]; cbn [CompOpp] in *;
      try reflexivity; try discriminate H.
    subst e.
    rewrite !Pos.compare_cont_spec in *. unfold Pos.switch_Eq in *.
    rewrite (Pos.compare_antisym 4503599627370496 m).
    destruct (Pos.compare_spec 4503599627370496 m) as [Hm|Hm|Hm]; cbn [CompOpp] in *;
      try reflexivity; try discriminate H.
    subst m. replace f with 1%float; [reflexivity|].
    apply Prim2SF_inj. rewrite E. reflexivity. }
  unfold clamp. rewrite Hmin. reflexivity.
Qed.

(** The blend at a clamped factor of 0 or 1. *)
Lemma interpolateColor_clamped color1 color2 factor :
  (clamp factor = 0 ->
   interpolateColor color1 color2 factor = rgb_string (hexToRgb color1)) /\
  (clamp factor = 1 ->
   interpolateColor color1 color2 factor = rgb_string (hexToRgb color2)).
Proof.
  destruct (hexToRgb_bytes color1) as [x1 [y1 [z1 [Hx1 [Hy1 [Hz1 E1]]]]]].
  destruct (hexToRgb_bytes color2) as [x2 [y2 [z2 [Hx2 [Hy2 [Hz2 E2]]]]]].
  unfold interpolateColor. fold (clamp factor). rewrite E1, E2.
  unfold rgb_string, rgb_of. cbn [r g b].
  fold (channel x1 x2 (clamp factor)). fold (channel y1 y2 (clamp factor)).
  fold (channel z1 z2 (clamp factor)).
  split; intros ->.
  - rewrite (proj1 (channel_at_ends x1 x2 Hx1 Hx2)),
            (proj1 (channel_at_ends y1 y2 Hy1 Hy2)),
            (proj1 (channel_at_ends z1 z2 Hz1 Hz2)). reflexivity.
  - rewrite (proj2 (channel_at_ends x1 x2 Hx1 Hx2)),
            (proj2 (channel_at_ends y1 y2 Hy1 Hy2)),
            (proj2 (channel_at_ends z1 z2 Hz1 Hz2)). reflexivity.
Qed.

(** X12. The blend is clamped: a factor at or below 0 gives the first
    colour and a factor at or above 1 the second, as [hexToRgb] reads
    them. *)
Theorem interpolateColor_ends : forall color1 color2 factor,
  ((factor <=? 0) = true ->
   interpolateColor color1 color2 factor = rgb_string (hexToRgb color1)) /\
  ((1 <=? factor) = true ->
   interpolateColor color1 color2 factor = rgb_string (hexToRgb color2)).
Proof.
  intros color1 color2 factor. split; intros H.
  - apply (proj1 (interpolateColor_clamped color1 color2 factor)).
    apply clamp_low. exact H.
  - apply (proj2 (interpolateColor_clamped color1 color2 factor)).
    apply clamp_high. exact H.
Qed.

Lemma interpolateColor_ends_witness :
  interpolateColor (lit "#000000") (lit "#ffffff") (-1)
  = rgb_string (hexToRgb (lit "#000000")) /\
  interpolateColor (lit "#000000") (lit "#ffffff") 2
  = rgb_string (hexToRgb (lit "#ffffff")).
Proof.
  split.
  - apply (proj1 (interpolateColor_ends (lit "#000000") (lit "#ffffff") (-1))).
    reflexivity.
  - apply (proj2 (interpolateColor_ends (lit "#000000") (lit "#ffffff") 2)).
    reflexivity.
Defined.

End BlendEnds.

(** ** The style of the active line *)

Section ActiveLine.
Import Js Types Renderer Colours.
Local Open Scope float_scope.

(** X13. The line at the smoothed index is drawn in the primary colour as
    [hexToRgb] reads it, without blur, at full alpha times the opacity of
    the lyrics. *)
Theorem line_style_active : forall settings i,
  line_style settings None (of_Z i) i
  = Some {| fill := rgb_string (hexToRgb (primaryColor settings));
            globalAlpha := 1; blur := 0 |} /\
  forall lyricsOpacity,
    line_style settings (Some lyricsOpacity) (of_Z i) i
    = if (1 * lyricsOpacity <=? 0.01) then None
      else Some {| fill := rgb_string (hexToRgb (primaryColor settings));
                   globalAlpha := 1 * lyricsOpacity; blur := 0 |}.
Proof.
  intros settings i. unfold line_style.
  rewrite abs_sub_self by apply of_Z_finite.
  change (0 <? 0.6) with true. change (gtb 0 2) with false. change (gtb 0 1.2) with false.
  change (0 * 1.66) with 0. cbv iota.
  rewrite (proj1 (interpolateColor_clamped (primaryColor settings)
                    (secondaryColor settings) 0) (clamp_low 0 eq_refl)).
  split; [reflexivity|]. intros lyricsOpacity. reflexivity.
Qed.

End ActiveLine.

(** ** Forced line breaks *)

Section WordWrapMore.
Import Js Types Renderer Wrap.

Variable measureText : jsstring -> number.
Variable maxWidth : number.

Local Abbreviation group_loop := (group_loop measureText maxWidth).
Local Abbreviation overflows := (overflows measureText maxWidth).
Local Abbreviation tight_from := (tight_from measureText maxWidth).
Local Abbreviation tight := (tight measureText maxWidth).

Lemma tight_from_snoc groups : forall g last next,
  tight_from g (groups ++ [last]) ->
  (forall w h, next = w :: h -> overflows last w) ->
  tight_from g ((groups ++ [last]) ++ [next]).
Proof.
  induction groups as [|g' groups IH]; intros g last next Ht Hn.
  - simpl in *. destruct Ht as [H1 _]. repeat split; assumption.
  - simpl in *. destruct Ht as [H1 H2]. split; [exact H1|]. apply IH; assumption.
Qed.

Lemma tight_from_grow groups : forall g last w,
  last <> [] ->
  tight_from g (groups ++ [last]) -> tight_from g (groups ++ [last ++ [w]]).
Proof.
  induction groups as [|g' groups IH]; intros g last w Hl Ht.
  - simpl in *. destruct Ht as [H1 _]. split; [|exact I].
    intros v h Hv. destruct last as [|x last]; [congruence|].
    simpl in Hv. injection Hv as <- _. apply (H1 x last). reflexivity.
  - simpl in *. destruct Ht as [H1 H2]. split; [exact H1|]. apply IH; assumption.
Qed.

Lemma tight_snoc groups last next :
  tight (groups ++ [last]) ->
  (forall w h, next = w :: h -> overflows last w) ->
  tight ((groups ++ [last]) ++ [next]).
Proof.
  destruct groups as [|g groups]; simpl.
  - intros _ H. split; [exact H|exact I].
  - apply tight_from_snoc.
Qed.

Lemma tight_grow groups last w :
  last <> [] -> tight (groups ++ [last]) -> tight (groups ++ [last ++ [w]]).
Proof.
  destruct groups as [|g groups]; simpl.
  - intros _ _. exact I.
  - apply tight_from_grow.
Qed.

Lemma group_loop_tight words : forall groups current,
  current <> [] -> tight (groups ++ [current]) ->
  tight (group_loop words groups current).
Proof.
  induction words as [|word rest IH]; intros groups current Hc Ht;
    cbn [Renderer.group_loop].
  - exact Ht.
  - destruct (_ <? _)%float eqn:E.
    + apply IH; [destruct current; discriminate|].
      apply tight_grow; assumption.
    + apply IH; [discriminate|].
      apply tight_snoc; [exact Ht|].
      intros w h [= <- <-]. exact E.
Qed.

Lemma tight_from_adjacent pre : forall g g1 g2 post w h,
  tight_from g (pre ++ g1 :: g2 :: post) -> g2 = w :: h -> overflows g1 w.
Proof.
  induction pre as [|p pre IH]; intros g g1 g2 post w h Ht Hg.
  - simpl in Ht. destruct Ht as [_ [H _]]. exact (H w h Hg).
  - simpl in Ht. destruct Ht as [_ Ht]. exact (IH p g1 g2 post w h Ht Hg).
Qed.

Lemma tight_adjacent pre g1 g2 post w h :
  tight (pre ++ g1 :: g2 :: post) -> g2 = w :: h -> overflows g1 w.
Proof.
  intros Ht Hg. destruct pre as [|p pre].
  - simpl in Ht. destruct Ht as [H _]. exact (H w h Hg).
  - simpl in Ht. exact (tight_from_adjacent pre p g1 g2 post w h Ht Hg).
Qed.

(** The lines are the joined groups of the words, and every break
    between two groups was forced. *)
Lemma getWrappedLines_tight text :
  exists groups,
    getWrappedLines measureText maxWidth text = map (join space) groups /\
    List.concat groups = split 32%N text /\
    Forall (fun g => g <> []) groups /\
    tight groups.
Proof.
  unfold getWrappedLines.
  pose proof (split_nonempty 32%N text) as Hn.
  destruct (split 32%N text) as [|first rest]; [congruence|].
  exists (group_loop rest [] [first]). repeat split.
  - apply (wrap_loop_groups measureText maxWidth rest [] [first]). discriminate.
  - rewrite group_loop_concat. reflexivity.
  - apply group_loop_nonempty; [constructor|discriminate].
  - apply group_loop_tight; [discriminate|exact I].
Qed.

(** The first word of a line of words without spaces. *)
Lemma hd_split_join (w : jsstring) (h : list jsstring) :
  ~ In 32%N w -> hd [] (split 32%N (join space (w :: h))) = w.
Proof.
  intros Hw. destruct h as [|v h].
  - simpl join. rewrite split_no_sep by exact Hw. reflexivity.
  - change (join space (w :: v :: h)) with (w ++ 32%N :: join space (v :: h)).
    rewrite split_app_sep by exact Hw. reflexivity.
Qed.

End WordWrapMore.

(** ** Greedy wrapping and its extremes *)

Section WordWrapExtras.
Import Js Types Renderer Wrap.

(** X14. The wrap is greedy: no line could have taken the first word of
    the line after it. *)
Theorem getWrappedLines_greedy :
  forall (measureText : jsstring -> number) (maxWidth : number) (text : jsstring)
         (pre : list jsstring) (line next : jsstring) (post : list jsstring),
  getWrappedLines measureText maxWidth text = pre ++ line :: next :: post ->
  (measureText (line ++ space ++ hd [] (split 32%N next)) <? maxWidth)%float = false.
Proof.
  intros measureText maxWidth text pre line next post Hlines.
  destruct (getWrappedLines_tight measureText maxWidth text)
    as [groups [Hl [Hc [Hn Ht]]]].
  rewrite Hl in Hlines.
  apply map_eq_app in Hlines. destruct Hlines as [gpre [grest [Hg [Hpre Hrest]]]].
  destruct grest as [|g1 [|g2 gpost]]; try discriminate Hrest.
  injection Hrest as H1 H2 _. subst groups line next.
  rewrite Forall_forall in Hn.
  assert (Hg1 : g1 <> []).
  { apply Hn. apply in_or_app. right. left. reflexivity. }
  assert (Hg2 : g2 <> []).
  { apply Hn. apply in_or_app. right. right. left. reflexivity. }
  destruct g2 as [|w h]; [congruence|].
  assert (Hw : ~ In 32%N w).
  { apply (split_pieces 32%N text). rewrite <- Hc. apply in_concat.
    exists (w :: h). split; [|left; reflexivity].
    apply in_or_app. right. right. left. reflexivity. }
  rewrite (hd_split_join w h Hw), <- (join_snoc g1 w Hg1).
  exact (tight_adjacent measureText maxWidth gpre g1 (w :: h) gpost w h Ht eq_refl).
Qed.

Lemma getWrappedLines_greedy_witness :
  getWrappedLines ten_per_char 50 (lit "aa bbbbbbbb c d")
  = [lit "aa"] ++ lit "bbbbbbbb" :: lit "c d" :: [] /\
  (ten_per_char (lit "bbbbbbbb" ++ space ++ hd [] (split 32%N (lit "c d"))) <? 50)%float
  = false.
Proof.
  assert (H : getWrappedLines ten_per_char 50 (lit "aa bbbbbbbb c d")
              = [lit "aa"] ++ lit "bbbbbbbb" :: lit "c d" :: [])
    by (vm_compute; reflexivity).
  split; [exact H|].
  apply (getWrappedLines_greedy ten_per_char 50 (lit "aa bbbbbbbb c d")
           [lit "aa"] (lit "bbbbbbbb") (lit "c d") [] H).
Defined.

Lemma join_tail (w : jsstring) (ws : list jsstring) :
  join space (w :: ws) = w ++ flat_map (fun v => space ++ v) ws.
Proof.
  revert w. induction ws as [|v ws IH]; intros w.
  - simpl. rewrite app_nil_r. reflexivity.
  - change (join space (w :: v :: ws)) with (w ++ space ++ join space (v :: ws)).
    rewrite IH. reflexivity.
Qed.

Lemma wrap_loop_all_fit measureText maxWidth text words : forall lines current,
  (forall p, word_prefix text p -> (measureText p <? maxWidth)%float = true) ->
  text = current ++ flat_map (fun v => space ++ v) words ->
  wrap_loop measureText maxWidth words lines current = lines ++ [text].
Proof.
  induction words as [|word rest IH]; intros lines current Hfit Htext;
    cbn [wrap_loop].
  - simpl in Htext. rewrite app_nil_r in Htext. subst current. reflexivity.
  - change (lit " ") with space.
    assert (Hp : word_prefix text (current ++ space ++ word)).
    { rewrite Htext. simpl flat_map. destruct rest as [|next rest].
      - left. simpl. rewrite app_nil_r. reflexivity.
      - right. exists (next ++ flat_map (fun v => space ++ v) rest).
        simpl flat_map. rewrite <- !app_assoc. reflexivity. }
    rewrite (Hfit _ Hp). apply IH; [exact Hfit|].
    rewrite Htext. simpl flat_map. rewrite <- !app_assoc. reflexivity.
Qed.

Lemma wrap_loop_none_fits measureText maxWidth words : forall lines current,
  (forall s, (measureText s <? maxWidth)%float = false) ->
  wrap_loop measureText maxWidth words lines current = lines ++ current :: words.
Proof.
  induction words as [|word rest IH]; intros lines current Hno; cbn [wrap_loop].
  - reflexivity.
  - rewrite Hno, IH by exact Hno. rewrite <- app_assoc. reflexivity.
Qed.

(** X15. The two extremes of the wrap. A text that measures below the
    width, as do its prefixes that end with a word, is one line; where
    nothing measures below the width, as for a width that is NaN, every
    word is a line of its own. *)
Theorem getWrappedLines_extremes :
  forall (measureText : jsstring -> number) (maxWidth : number) (text : jsstring),
  ((forall p, word_prefix text p -> (measureText p <? maxWidth)%float = true) ->
   getWrappedLines measureText maxWidth text = [text]) /\
  ((forall s, (measureText s <? maxWidth)%float = false) ->
   getWrappedLines measureText maxWidth text = split 32%N text).
Proof.
  intros measureText maxWidth text. unfold getWrappedLines.
  pose proof (join_split text) as Hj.
  pose proof (split_nonempty 32%N text) as Hn.
  destruct (split 32%N text) as [|first rest]; [congruence|].
  split; intros H.
  - apply (wrap_loop_all_fit measureText maxWidth text rest [] first H).
    rewrite <- Hj. apply join_tail.
  - apply (wrap_loop_none_fits measureText maxWidth rest [] first H).
Qed.

Lemma getWrappedLines_extremes_witness :
  getWrappedLines ten_per_char 1000 (lit "a b") = [lit "a b"] /\
  getWrappedLines ten_per_char nan (lit "a b") = split 32%N (lit "a b").
Proof.
  split.
  - apply (proj1 (getWrappedLines_extremes ten_per_char 1000 (lit "a b"))).
    intros p [->|[rest H]]; [reflexivity|].
    destruct p as [|c [|d [|e p]]]; try discriminate H.
    + injection H as <- _. reflexivity.
    + injection H as _ _ _ H. destruct p; discriminate H.
  - apply (proj2 (getWrappedLines_extremes ten_per_char nan (lit "a b"))).
    intros s. rewrite ltb_spec. change (Prim2SF nan) with S754_nan.
    unfold SFltb, SFcompare. destruct (Prim2SF (ten_per_char s)); reflexivity.
Defined.

End WordWrapExtras.

(** ** The names of an uploaded file *)

Section FileNames.
Import Js Files.

Lemma strip_extension_cons c rest :
  strip_extension (c :: rest) =
  if extReg_at (c :: rest) then [] else c :: strip_extension rest.
Proof. reflexivity. Qed.

Lemma extReg_at_no_dot s : forallb ext_char s = true -> extReg_at s = false.
Proof.
  destruct s as [|c rest]; [reflexivity|]. simpl. intros H.
  apply andb_prop in H. destruct H as [Hc _].
  unfold ext_char in Hc. destruct (c =? 46)%N; [|reflexivity].
  rewrite orb_true_r in Hc. discriminate Hc.
Qed.

Lemma strip_extension_plain s : ~ In 46%N s -> strip_extension s = s.
Proof.
  induction s as [|c s IH]; intros Hs; [reflexivity|].
  rewrite strip_extension_cons.
  assert (Hc : (c =? 46)%N = false).
  { destruct (N.eqb_spec c 46) as [->|]; [|reflexivity].
    exfalso. apply Hs. left. reflexivity. }
  unfold extReg_at. rewrite Hc. cbn [andb].
  rewrite IH; [reflexivity|]. intros H. apply Hs. right. exact H.
Qed.

(** A dot further on keeps the expression from matching here. *)
Lemma extReg_at_dot_inside c s t : extReg_at (c :: s ++ 46%N :: t) = false.
Proof.
  unfold extReg_at.
  replace (forallb ext_char (s ++ 46%N :: t)) with false.
  - rewrite andb_false_r. reflexivity.
  - symmetry. rewrite forallb_app. simpl. rewrite andb_false_r. reflexivity.
Qed.

(** The last extension is cut. *)
Lemma strip_extension_cut base ext :
  ext <> [] -> forallb ext_char ext = true ->
  strip_extension (base ++ 46%N :: ext) = base.
Proof.
  intros Hne Hext. induction base as [|c base IH].
  - simpl app. rewrite strip_extension_cons. unfold extReg_at.
    rewrite Hext. destruct ext; [congruence|reflexivity].
  - simpl app. rewrite strip_extension_cons, extReg_at_dot_inside, IH. reflexivity.
Qed.

(** X16. The base name of an uploaded file: the last extension is cut, a
    name without one is kept, and so is a name that ends in a dot or
    whose last dot is followed by a [/]. *)
Theorem strip_extension_spec :
  (forall base ext, ext <> [] -> forallb ext_char ext = true ->
     strip_extension (base ++ 46%N :: ext) = base) /\
  (forall name, ~ In 46%N name -> strip_extension name = name) /\
  (forall base ext, forallb ext_char ext = false -> ~ In 46%N ext ->
     strip_extension (base ++ 46%N :: ext) = base ++ 46%N :: ext) /\
  (forall base, strip_extension (base ++ [46%N]) = base ++ [46%N]).
Proof.
  repeat split.
  - apply strip_extension_cut.
  - apply strip_extension_plain.
  - intros base ext Hext Hdot. induction base as [|c base IH].
    + simpl app. rewrite strip_extension_cons. unfold extReg_at.
      rewrite Hext, andb_false_r. rewrite strip_extension_plain by exact Hdot.
      reflexivity.
    + simpl app. rewrite strip_extension_cons, extReg_at_dot_inside, IH. reflexivity.
  - intros base. induction base as [|c base IH]; [reflexivity|].
    simpl app. rewrite strip_extension_cons, extReg_at_dot_inside, IH. reflexivity.
Qed.

Lemma strip_extension_spec_witness :
  strip_extension (lit "my.song" ++ 46%N :: lit "mp3") = lit "my.song" /\
  strip_extension (lit "song") = lit "song" /\
  strip_extension (lit "a" ++ 46%N :: lit "b/c") = lit "a" ++ 46%N :: lit "b/c".
Proof.
  split; [|split].
  - apply (proj1 strip_extension_spec (lit "my.song") (lit "mp3"));
      [discriminate|reflexivity].
  - apply (proj1 (proj2 strip_extension_spec) (lit "song")).
    vm_compute. intuition discriminate.
  - apply (proj1 (proj2 (proj2 strip_extension_spec)) (lit "a") (lit "b/c"));
      [reflexivity|vm_compute; intuition discriminate].
Defined.

(** X17. An audio file named [base.ext] is exported as [base.webm] and
    titled [base]; a file whose name is only an extension, such as
    [.mp3], is exported as [.webm] and introduced as "Unknown Track". *)
Theorem upload_audio_names : forall base ext,
  ext <> [] -> forallb ext_char ext = true ->
  let up := upload_audio (base ++ 46%N :: ext) in
  download_name (fileName up) = base ++ lit ".webm" /\
  (base <> [] -> title_text (songTitle up) = base) /\
  (base = [] -> title_text (songTitle up) = lit "Unknown Track").
Proof.
  intros base ext Hne Hext up. subst up. unfold upload_audio.
  rewrite (strip_extension_cut base ext Hne Hext). cbn [fileName songTitle].
  unfold download_name, title_text. repeat split.
  - intros Hb. destruct base; [congruence|reflexivity].
  - intros ->. reflexivity.
Qed.

Lemma upload_audio_names_witness :
  download_name (fileName (upload_audio (lit "song" ++ 46%N :: lit "mp3")))
  = lit "song" ++ lit ".webm" /\
  title_text (songTitle (upload_audio (lit "song" ++ 46%N :: lit "mp3"))) = lit "song" /\
  title_text (songTitle (upload_audio ([] ++ 46%N :: lit "mp3"))) = lit "Unknown Track".
Proof.
  pose proof (upload_audio_names (lit "song") (lit "mp3")
                ltac:(discriminate) eq_refl) as H.
  pose proof (upload_audio_names [] (lit "mp3") ltac:(discriminate) eq_refl) as H'.
  cbv zeta in H, H'.
  destruct H as [H1 [H2 _]]. destruct H' as [_ [_ H3]].
  split; [exact H1|]. split; [apply H2; discriminate|apply H3; reflexivity].
Defined.

End FileNames.

(** ** The end of a recording session *)

Section SessionEnd.
Import Js Lrc Recorder Session.

Lemma recording_in_range st id :
  recorder_state st id = Recording -> (id < List.length (recorders (browser st)))%nat.
Proof.
  unfold recorder_state. intros H.
  destruct (Nat.lt_ge_cases id (List.length (recorders (browser st)))) as [Hlt|Hge];
    [exact Hlt|].
  rewrite nth_overflow in H by exact Hge. discriminate H.
Qed.

Lemma sync_effect_react before after :
  isPlaying (react after) = isPlaying (react before) ->
  recordingPhase (react after) = recordingPhase (react before) ->
  sync_effect before after = after.
Proof.
  intros Hp Hph. unfold sync_effect. rewrite Hp, Hph, Bool.eqb_reflx.
  destruct (recordingPhase (react before)); reflexivity.
Qed.

Lemma stopRecording_react st : react (snd (stopRecording st)) = react st.
Proof.
  unfold stopRecording, set_recorder_state, when, bind, ret, get, modify.
  cbn [fst snd].
  destruct (mediaRecorderRef (refs st)) as [id|]; [|reflexivity].
  destruct (recorder_state st id); try reflexivity.
  destruct (audioRef st); reflexivity.
Qed.

Lemma dispatch_ClickStop build st :
  dispatch build ClickStop st =
  if isRecording (react st) then snd (stopRecording st) else st.
Proof.
  unfold dispatch. cbn [handler].
  destruct (isRecording (react st)).
  - apply sync_effect_react; rewrite stopRecording_react; reflexivity.
  - apply sync_effect_same.
Qed.

Lemma stopRecording_again st :
  snd (stopRecording (snd (stopRecording st))) = snd (stopRecording st).
Proof.
  destruct st as [[url ly dur playing rec phase dl]
                    [canvas mrec chunks actx src dest osc smooth t0 req]
                    [at_ paused rs os al co] calls].
  unfold stopRecording, set_recorder_state, when, bind, ret, get, modify,
    audioRef, recorder_state.
  cbn [react refs browser mediaRecorderRef recorders audioUrl].
  destruct mrec as [id|]; [|reflexivity].
  destruct (nth id rs Inactive) eqn:E.
  - cbn -[nth update]. rewrite E. reflexivity.
  - assert (Hid : (id <? List.length rs)%nat = true).
    { apply Nat.ltb_lt.
      destruct (Nat.lt_ge_cases id (List.length rs)) as [Hlt|Hge]; [exact Hlt|].
      rewrite nth_overflow in E by exact Hge. discriminate E. }
    destruct url as [[|ch url]|]; cbn -[nth update];
      rewrite nth_update, Nat.eqb_refl, Hid; reflexivity.
  - cbn -[nth update]. rewrite E. reflexivity.
Qed.

(** X18. Stop, pressed again before the recorder has delivered its [stop]
    event, changes nothing. *)
Theorem stop_twice : forall build st,
  dispatch build ClickStop (dispatch build ClickStop st) = dispatch build ClickStop st.
Proof.
  intros build st. rewrite !dispatch_ClickStop.
  destruct (isRecording (react st)) eqn:E.
  - rewrite stopRecording_react, E. apply stopRecording_again.
  - rewrite E. reflexivity.
Qed.

Lemma run_app build l1 l2 st : run build (l1 ++ l2) st = run build l2 (run build l1 st).
Proof. unfold run. apply fold_left_app. Qed.

Lemma set_chunks_same st : set_chunks (chunksRef (refs st)) st = st.
Proof. destruct st as [r [] b a]. reflexivity. Qed.

(** The blobs a live recorder delivers are kept in order, the empty
    ones dropped; nothing else changes. *)
Lemma run_deliveries build id blobs : forall st,
  recorder_state st id <> Inactive ->
  run build (deliveries id blobs) st
  = set_chunks (chunksRef (refs st) ++ kept blobs) st.
Proof.
  induction blobs as [|d blobs IH]; intros st Hlive.
  - simpl. rewrite app_nil_r. symmetry. apply set_chunks_same.
  - change (run build (deliveries id (d :: blobs)) st)
      with (run build (deliveries id blobs) (dispatch build (RecorderData id d) st)).
    assert (Hd : dispatch build (RecorderData id d) st
                 = if (0 <? d)%N then set_chunks (chunksRef (refs st) ++ [d]) st else st).
    { unfold dispatch. cbn [handler].
      destruct (recorder_state st id) eqn:E; [congruence| |];
        unfold ondataavailable, when, modify, ret; destruct (0 <? d)%N; cbn [snd];
        first [apply sync_effect_same | apply sync_effect_react; reflexivity]. }
    rewrite Hd. unfold kept. cbn [filter]. destruct (0 <? d)%N.
    + rewrite IH by exact Hlive. cbn. rewrite <- app_assoc. reflexivity.
    + apply IH. exact Hlive.
Qed.

Ltac open_state st :=
  destruct st as [[url ly dur playing rec phase dl]
                    [canvas mrec chunks actx src dest osc smooth t0 req]
                    [at_ paused rs os al co] calls].

(** Each way of stopping calls [stop()] on the recorder and pauses the
    audio; the chunks, the phase and the oscillator stay. *)
Lemma stop_step build st id stop :
  mediaRecorderRef (refs st) = Some id ->
  recorder_state st id = Recording ->
  isRecording (react st) = true ->
  audioRef st = true ->
  In stop stop_events ->
  let st1 := dispatch build stop st in
  recorder_state st1 id = Stopping /\
  chunksRef (refs st1) = chunksRef (refs st) /\
  audioPaused (browser st1) = true /\
  silenceOscRef (refs st1) = silenceOscRef (refs st) /\
  oscillators (browser st1) = oscillators (browser st).
Proof.
  intros Href Hrec Hflag Haudio Hstop.
  pose proof (recording_in_range st id Hrec) as Hid. apply Nat.ltb_lt in Hid.
  open_state st.
  unfold audioRef, recorder_state in *.
  cbn [react refs browser mediaRecorderRef chunksRef recorders isRecording audioUrl] in *.
  subst mrec rec.
  destruct url as [[|ch url]|]; try discriminate Haudio.
  unfold stop_events in Hstop.
  destruct Hstop as [<-|[<-|[<-|[]]]];
    unfold dispatch, sync_effect, handler, togglePlay, stopRecording,
      set_recorder_state, when, bind, ret, get, modify, audioRef, recorder_state;
    cbn -[nth update]; rewrite Hrec; cbn -[nth update];
    try rewrite Bool.eqb_reflx; destruct playing, phase; cbn -[nth update];
    rewrite nth_update, Nat.eqb_refl, Hid; repeat split.
Qed.

(** The [stop] event of a recorder. *)
Lemma finish_step build st id :
  recorder_state st id <> Inactive ->
  audioPaused (browser st) = true ->
  let st' := dispatch build (RecorderStop id) st in
  downloadUrl (react st') = Some (chunksRef (refs st)) /\
  chunksRef (refs st') = [] /\
  recordingPhase (react st') = idle /\
  isRecording (react st') = false /\
  isPlaying (react st') = false /\
  audioPaused (browser st') = true /\
  recorder_state st' id = Inactive /\
  (build = IndexTsx -> oscillator_released st st').
Proof.
  intros Hlive Hpaused.
  assert (Hid : (id <? List.length (recorders (browser st)))%nat = true).
  { apply Nat.ltb_lt. unfold recorder_state in Hlive.
    destruct (Nat.lt_ge_cases id (List.length (recorders (browser st)))) as [Hlt|Hge];
      [exact Hlt|].
    rewrite nth_overflow in Hlive by exact Hge. congruence. }
  open_state st.
  unfold recorder_state, oscillator_released in *.
  cbn [react refs browser recorders audioPaused] in *. subst paused.
  unfold dispatch, sync_effect, handler, onstop, set_recorder_state, set_oscillator,
    when, bind, ret, get, modify, audioRef, recorder_state.
  cbn -[nth update].
  destruct (nth id rs Inactive) eqn:E; [congruence| |];
    destruct build, osc as [o|], playing, phase, url as [[|ch url]|];
    cbn -[nth update]; rewrite ?nth_update, ?Nat.eqb_refl, ?Hid;
    (repeat split; try reflexivity; try discriminate; intros;
     try match goal with H : None = Some _ |- _ => discriminate H end;
     try match goal with H : Some _ = Some _ |- _ => injection H as <- end;
     try match goal with
         | H : (_ < _)%nat |- _ =>
             apply Nat.ltb_lt in H; rewrite nth_update, Nat.eqb_refl, H; reflexivity
         end).
Qed.

(** X19. The end of a session. However it is stopped, by the Stop button,
    the play button or the end of the track, the blobs that the recorder
    delivered before and after the stop, in order and without the empty
    ones, are the download; the chunk buffer is empty again, the
    controller is idle with the audio paused, and in the build with an
    oscillator the oscillator is stopped and forgotten. *)
Theorem session_end : forall build st id before after stop,
  mediaRecorderRef (refs st) = Some id ->
  recorder_state st id = Recording ->
  isRecording (react st) = true ->
  audioRef st = true ->
  In stop stop_events ->
  let st' := run build (deliveries id before ++ stop :: deliveries id after
                          ++ [RecorderStop id]) st in
  downloadUrl (react st') = Some (chunksRef (refs st) ++ kept before ++ kept after) /\
  chunksRef (refs st') = [] /\
  recordingPhase (react st') = idle /\
  isRecording (react st') = false /\
  isPlaying (react st') = false /\
  audioPaused (browser st') = true /\
  recorder_state st' id = Inactive /\
  (build = IndexTsx -> oscillator_released st st').
Proof.
  intros build st id before after stop Href Hrec Hflag Haudio Hstop st'. subst st'.
  rewrite run_app.
  change (stop :: deliveries id after ++ [RecorderStop id])
    with ([stop] ++ deliveries id after ++ [RecorderStop id]).
  rewrite !run_app.
  rewrite (run_deliveries build id before st) by congruence.
  set (st0 := set_chunks (chunksRef (refs st) ++ kept before) st).
  change (run build [stop] st0) with (dispatch build stop st0).
  destruct (stop_step build st0 id stop Href Hrec Hflag Haudio Hstop)
    as (H1 & H2 & H3 & H4 & H5).
  set (st1 := dispatch build stop st0) in *.
  rewrite (run_deliveries build id after st1) by congruence.
  set (st2 := set_chunks (chunksRef (refs st1) ++ kept after) st1).
  change (run build [RecorderStop id] st2) with (dispatch build (RecorderStop id) st2).
  destruct (finish_step build st2 id) as (G1 & G2 & G3 & G4 & G5 & G6 & G7 & G8).
  { unfold st2. change (recorder_state (set_chunks _ st1) id) with (recorder_state st1 id).
    congruence. }
  { exact H3. }
  repeat split; try assumption.
  - rewrite G1. unfold st2. cbn. rewrite H2. unfold st0. cbn.
    rewrite <- app_assoc. reflexivity.
  - apply (G8 H).
  - intros o Ho Hlen. apply (proj2 (G8 H) o).
    + unfold st2. cbn. rewrite H4. exact Ho.
    + unfold st2. cbn. rewrite H5. exact Hlen.
Qed.

Lemma session_end_witness :
  downloadUrl (react (run IndexTsx
    (deliveries 0 [3; 0; 5]%N ++ AudioEnded :: deliveries 0 [7%N] ++ [RecorderStop 0])
    recording_session)) = Some [3; 5; 7]%N.
Proof.
  apply (proj1 (session_end IndexTsx recording_session 0%nat [3; 0; 5]%N [7%N] AudioEnded
                  eq_refl eq_refl eq_refl eq_refl
                  (or_intror (or_intror (or_introl eq_refl))))).
Defined.

End SessionEnd.

(** ** A tick of the intro *)

Section IntroTick.
Import Js Lrc Timeline Recorder.
Local Open Scope float_scope.

(** X20. A frame of the intro. The frame that runs is the one that was
    requested, and it reads the phase, the intro duration and the lyrics
    its callback closed over. When that phase is [intro], the frame ends
    the intro exactly when more than that intro duration has passed
    since the start of the intro, and then starts the audio, whatever
    the phase of the state has become; until then the React state and
    the browser are as they were. The lyric index is looked up at time 0
    in the lyrics of the callback, and the same callback is requested
    again. *)
Theorem intro_tick : forall build st now,
  canvasRef (refs st) = true ->
  seen_recordingPhase (requestRef (refs st)) = intro ->
  audioRef st = true ->
  let self := requestRef (refs st) in
  let elapsed := (now - introStartTimeRef (refs st)) / 1000 in
  let st' := dispatch build (Tick now) st in
  (gtb elapsed (seen_introDuration self) = true ->
   recordingPhase (react st') = recording /\
   isPlaying (react st') = true /\
   audioPaused (browser st') = false) /\
  (gtb elapsed (seen_introDuration self) = false ->
   react st' = react st /\ browser st' = browser st) /\
  smoothIndexRef (refs st')
  = scroll_step (activeIndex 0 (seen_lyrics self)) (smoothIndexRef (refs st)) /\
  requestRef (refs st') = self.
Proof.
  intros build st now Hcanvas Hphase Haudio self elapsed st'. subst self elapsed st'.
  destruct st as [[url ly dur playing rec phase dl]
                    [canvas mrec chunks actx src dest osc smooth t0 [phase' dur' ly']]
                    [at_ paused rs os al co] calls].
  unfold audioRef in Haudio.
  cbn [react refs browser canvasRef recordingPhase audioUrl introStartTimeRef
       introDuration lyrics smoothIndexRef requestRef seen_recordingPhase
       seen_introDuration seen_lyrics] in *.
  subst canvas phase'.
  destruct url as [[|ch url]|]; try discriminate Haudio.
  unfold dispatch, sync_effect, handler, animate, handleIntroComplete,
    when, bind, ret, get, modify, audioRef.
  cbn -[scroll_step activeIndex gtb].
  destruct (gtb ((now - t0) / 1000) dur') eqn:E; cbn -[scroll_step activeIndex gtb].
  - destruct playing, phase; cbn; repeat split; intros; discriminate.
  - rewrite Bool.eqb_reflx.
    destruct phase; cbn; repeat split; intros; discriminate.
Qed.

(** The frame of the intro in a session that is in its intro, and the
    same frame once the session has been stopped: the state is idle
    again and the frame, requested while the phase was [intro], still
    ends an intro. *)
Lemma intro_tick_witness :
  recordingPhase (react (dispatch IndexTsx (Tick 5000) Session.intro_session)) = recording /\
  react (dispatch IndexTsx (Tick 2000) Session.intro_session) = react Session.intro_session /\
  recordingPhase (react (run IndexTsx [ClickStop; RecorderStop 0] Session.intro_session))
  = idle /\
  recordingPhase
    (react (dispatch IndexTsx (Tick 5000)
              (run IndexTsx [ClickStop; RecorderStop 0] Session.intro_session)))
  = recording.
Proof.
  split; [|split; [|split]].
  - apply (proj1 (intro_tick IndexTsx Session.intro_session 5000 eq_refl eq_refl eq_refl)).
    reflexivity.
  - apply (proj1 (proj2 (intro_tick IndexTsx Session.intro_session 2000 eq_refl eq_refl eq_refl))).
    reflexivity.
  - reflexivity.
  - apply (proj1 (intro_tick IndexTsx
                    (run IndexTsx [ClickStop; RecorderStop 0] Session.intro_session)
                    5000 eq_refl eq_refl eq_refl)).
    reflexivity.
Defined.

End IntroTick.

(** ** Integers among the numbers *)

Section IntegerFacts.
Import Js Binary64 Integers NumberFacts.
Local Open Scope Z_scope.

Lemma integer_sf_sign s m e a :
  integer_sf (S754_finite s m e) = Some a -> if s then a < 0 else 0 < a.
Proof.
  unfold integer_sf. destruct (Z.leb_spec 0 e) as [He|He].
  - intros [= <-]. assert (0 < 2 ^ e) by (apply Z.pow_pos_nonneg; lia).
    destruct s; nia.
  - destruct (Z.eqb_spec ((if s then Z.neg m else Z.pos m) mod 2 ^ (- e)) 0) as [Hm|Hm];
      [|discriminate].
    intros [= <-]. assert (Hp : 0 < 2 ^ (- e)) by (apply Z.pow_pos_nonneg; lia).
    pose proof (Z.div_mod (if s then Z.neg m else Z.pos m) (2 ^ (- e)) ltac:(lia)) as Hd.
    rewrite Hm in Hd. destruct s; nia.
Qed.

(** The mantissa of an integer at a common exponent. *)
Lemma aligned_integer s m e ez a :
  integer_sf (S754_finite s m e) = Some a -> ez <= e ->
  (ez <= 0 -> aligned s m e ez = a * 2 ^ (- ez)) /\
  (0 <= ez -> a = aligned s m e ez * 2 ^ ez).
Proof.
  intros Ha Hez. unfold aligned. rewrite shl_align_val by lia.
  assert (Hc : cond_Zopp s (Zpos m * 2 ^ (e - ez))
               = (if s then Z.neg m else Z.pos m) * 2 ^ (e - ez)).
  { destruct s; cbn [cond_Zopp]; [|reflexivity].
    rewrite <- Z.mul_opp_l. reflexivity. }
  rewrite Hc. clear Hc. unfold integer_sf in Ha.
  set (M := if s then Z.neg m else Z.pos m) in *.
  destruct (Z.leb_spec 0 e) as [He|He].
  - injection Ha as <-. split; intros H.
    + replace (e - ez) with (e + - ez) by lia. rewrite Z.pow_add_r by lia. lia.
    + replace e with ((e - ez) + ez) at 1 by lia. rewrite Z.pow_add_r by lia. lia.
  - destruct (Z.eqb_spec (M mod 2 ^ (- e)) 0) as [Hm|Hm]; [|discriminate].
    injection Ha as <-. split; intros H; [|lia].
    assert (Hp : 0 < 2 ^ (- e)) by (apply Z.pow_pos_nonneg; lia).
    pose proof (Z.div_mod M (2 ^ (- e)) ltac:(lia)) as Hd. rewrite Hm in Hd.
    replace (- ez) with ((- e) + (e - ez)) by lia. rewrite Z.pow_add_r by lia.
    rewrite Z.add_0_r in Hd. rewrite Hd at 1. ring.
Qed.

Lemma mul_compare_pos a b c : 0 < c -> (a * c ?= b * c) = (a ?= b).
Proof.
  intros Hc. destruct (Z.compare_spec a b) as [->|H|H].
  - apply Z.compare_refl.
  - apply Z.compare_lt_iff. nia.
  - apply Z.compare_gt_iff. nia.
Qed.

(** Integers compare as numbers the way they compare as integers. *)
Lemma integer_sf_compare x y a b :
  valid_binary x = true -> valid_binary y = true ->
  integer_sf x = Some a -> integer_sf y = Some b ->
  SFcompare x y = Some (a ?= b).
Proof.
  intros Vx Vy Ha Hb.
  destruct x as [sx|sx| |sx mx ex]; try discriminate Ha;
    destruct y as [sy|sy| |sy my ey]; try discriminate Hb.
  - injection Ha as <-. injection Hb as <-. reflexivity.
  - injection Ha as <-. apply integer_sf_sign in Hb.
    simpl. destruct sy, b; try lia; reflexivity.
  - injection Hb as <-. apply integer_sf_sign in Ha.
    simpl. destruct sx, a; try lia; reflexivity.
  - unfold valid_binary in Vx, Vy. simpl in Vx, Vy. unfold bounded in Vx, Vy.
    apply andb_prop in Vx, Vy. destruct Vx as [Cx _], Vy as [Cy _].
    rewrite (compare_finite_aligned _ _ _ _ _ _ Cx Cy). f_equal.
    destruct (aligned_integer sx mx ex (Z.min ex ey) a Ha ltac:(lia)) as [A1 A2].
    destruct (aligned_integer sy my ey (Z.min ex ey) b Hb ltac:(lia)) as [B1 B2].
    destruct (Z.le_ge_cases (Z.min ex ey) 0) as [Hz|Hz].
    + rewrite A1, B1 by exact Hz. apply mul_compare_pos.
      apply Z.pow_pos_nonneg; lia.
    + rewrite (A2 Hz), (B2 Hz). symmetry. apply mul_compare_pos.
      apply Z.pow_pos_nonneg; lia.
Qed.

(** *** Rounding an integer below [2^53] is exact *)

Lemma iter_pos_nat {A} (f : A -> A) p : forall x,
  iter_pos f p x = Nat.iter (Pos.to_nat p) f x.
Proof.
  induction p as [p IH|p IH|]; intros x; simpl iter_pos.
  - rewrite !IH, Pos2Nat.inj_xI, Nat.iter_succ_r.
    replace (2 * Pos.to_nat p)%nat with (Pos.to_nat p + Pos.to_nat p)%nat by lia.
    rewrite Nat.iter_add. reflexivity.
  - rewrite !IH, Pos2Nat.inj_xO.
    replace (2 * Pos.to_nat p)%nat with (Pos.to_nat p + Pos.to_nat p)%nat by lia.
    rewrite Nat.iter_add. reflexivity.
  - reflexivity.
Qed.

Lemma shr_1_even k :
  0 < k ->
  shr_1 {| shr_m := 2 * k; shr_r := false; shr_s := false |}
  = {| shr_m := k; shr_r := false; shr_s := false |}.
Proof. intros Hk. destruct k as [|p|p]; try lia. reflexivity. Qed.

Lemma iter_shr_1_exact n : forall k,
  0 < k ->
  Nat.iter n shr_1 {| shr_m := k * 2 ^ Z.of_nat n; shr_r := false; shr_s := false |}
  = {| shr_m := k; shr_r := false; shr_s := false |}.
Proof.
  induction n as [|n IH]; intros k Hk.
  - simpl. rewrite Z.mul_1_r. reflexivity.
  - rewrite Nat.iter_succ_r.
    replace (k * 2 ^ Z.of_nat (S n)) with (2 * (k * 2 ^ Z.of_nat n)).
    + rewrite shr_1_even; [apply IH; exact Hk|].
      assert (0 < 2 ^ Z.of_nat n) by (apply Z.pow_pos_nonneg; lia). nia.
    + rewrite Nat2Z.inj_succ, Z.pow_succ_r by lia. lia.
Qed.

(** A mantissa of 53 digits followed by [n] zeros loses the zeros. *)
Lemma shr_fexp_exact m e k n :
  0 < k -> digits k = prec -> 0 <= n -> emin <= e ->
  Zpos m = k * 2 ^ n ->
  shr_fexp prec emax (Zpos m) e loc_Exact
  = ({| shr_m := k; shr_r := false; shr_s := false |}, e + n).
Proof.
  intros Hk Hd Hn He Hm. unfold shr_fexp, shr, fexp. rewrite Zdigits2_digits.
  fold emin. rewrite Hm, digits_mul_pow2 by lia.
  replace (Z.max (digits k + n + e - prec) emin - e) with n by lia.
  simpl shr_record_of_loc.
  destruct n as [|p|p]; try lia.
  - rewrite Z.mul_1_r. f_equal. lia.
  - rewrite iter_pos_nat.
    replace (Z.pos p) with (Z.of_nat (Pos.to_nat p)) at 1 by apply positive_nat_Z.
    rewrite iter_shr_1_exact by exact Hk. reflexivity.
Qed.

Lemma binary_round_aux_exact s m e k n :
  digits (Zpos k) = prec -> 0 <= n -> emin <= e -> e + n <= emax - prec ->
  Zpos m = Zpos k * 2 ^ n ->
  binary_round_aux prec emax s (Zpos m) e loc_Exact = S754_finite s k (e + n).
Proof.
  intros Hd Hn He Hmax Hm. unfold binary_round_aux.
  rewrite (shr_fexp_exact m e (Zpos k) n) by (assumption || lia).
  cbn [shr_m loc_of_shr_record round_nearest_even].
  rewrite (shr_fexp_exact k (e + n) (Zpos k) 0) by (assumption || lia).
  cbn [shr_m]. rewrite Z.add_0_r.
  destruct (Z.leb_spec (e + n) (emax - prec)); [reflexivity|lia].
Qed.

(** The integer of a mantissa and a non-positive exponent. *)
Lemma integer_sf_finite s q fe K :
  fe <= 0 -> Zpos q = K * 2 ^ (- fe) ->
  integer_sf (S754_finite s q fe) = Some (cond_Zopp s K).
Proof.
  intros Hfe Hq. unfold integer_sf.
  assert (Hp : 0 < 2 ^ (- fe)) by (apply Z.pow_pos_nonneg; lia).
  assert (HM : (if s then Z.neg q else Z.pos q) = cond_Zopp s K * 2 ^ (- fe)).
  { destruct s; cbn [cond_Zopp]; [|exact Hq].
    rewrite Z.mul_opp_l, <- Hq. reflexivity. }
  rewrite HM.
  destruct (Z.leb_spec 0 fe) as [H0|H0].
  - assert (fe = 0) by lia. subst fe. simpl. f_equal. lia.
  - rewrite Z.mod_mul by lia. simpl. rewrite Z.div_mul by lia. reflexivity.
Qed.

Lemma binary_round_integer s p ez K :
  0 < K -> digits K <= prec -> emin <= ez -> ez <= 0 ->
  Zpos p = K * 2 ^ (- ez) ->
  integer_sf (binary_round prec emax s p ez) = Some (cond_Zopp s K).
Proof.
  intros HK Hd He Hz Hp.
  assert (H1 : 1 <= digits K) by (unfold digits; pose proof (Z.log2_nonneg K); lia).
  assert (Hdp : Zpos (digits2_pos p) = digits K - ez).
  { rewrite digits2_log2. fold (digits (Zpos p)). rewrite Hp, digits_mul_pow2; lia. }
  set (fe := digits K - prec).
  assert (Hfe : fexp prec emax (Zpos (digits2_pos p) + ez) = fe).
  { unfold fexp. fold emin. rewrite Hdp. unfold fe.
    unfold emin, SpecFloat.emin, emax, prec in *. lia. }
  assert (Hk : exists k, Zpos k = K * 2 ^ (- fe)).
  { assert (0 < K * 2 ^ (- fe)).
    { apply Z.mul_pos_pos; [lia|]. apply Z.pow_pos_nonneg; unfold fe; lia. }
    destruct (K * 2 ^ (- fe)) as [|k|k] eqn:E; try lia. exists k. reflexivity. }
  destruct Hk as [k Hk].
  assert (Hdk : digits (Zpos k) = prec).
  { rewrite Hk, digits_mul_pow2 by (unfold fe; lia). unfold fe. lia. }
  assert (Hr : binary_round prec emax s p ez = S754_finite s k fe).
  { unfold binary_round. rewrite Hfe. unfold shl_align.
    destruct (fe - ez) as [|q|q] eqn:En.
    - rewrite (binary_round_aux_exact s p ez k 0); try assumption; try lia.
      + f_equal. lia.
      + unfold fe, emax, prec in *. lia.
      + rewrite Hk, Hp. replace fe with ez by lia. lia.
    - rewrite (binary_round_aux_exact s p ez k (Zpos q)); try assumption; try lia.
      + f_equal. lia.
      + unfold fe, emax, prec in *. lia.
      + rewrite Hk, Hp, <- Z.mul_assoc, <- Z.pow_add_r by (unfold fe in *; lia).
        f_equal. f_equal. lia.
    - rewrite (binary_round_aux_exact s (Pos.iter xO p q) fe k 0);
        try assumption; try lia.
      + f_equal. lia.
      + unfold fe, emin, SpecFloat.emin, emax, prec in *. lia.
      + unfold fe, emax, prec in *. lia.
      + rewrite iter_xO_val, Hk, Hp, <- Z.mul_assoc, <- Z.pow_add_r by lia.
        rewrite Z.mul_1_r. f_equal. f_equal. lia. }
  rewrite Hr. apply integer_sf_finite; [unfold fe; lia|exact Hk].
Qed.

Lemma binary_normalize_integer K ez :
  digits (Z.abs K) <= prec -> emin <= ez -> ez <= 0 ->
  integer_sf (binary_normalize prec emax (K * 2 ^ (- ez)) ez false) = Some K.
Proof.
  intros Hd He Hz.
  assert (Hp : 0 < 2 ^ (- ez)) by (apply Z.pow_pos_nonneg; lia).
  destruct (K * 2 ^ (- ez)) as [|p|p] eqn:E; simpl binary_normalize.
  - simpl. f_equal. nia.
  - assert (0 < K) by nia.
    rewrite (binary_round_integer false p ez K); try assumption; try lia.
    + reflexivity.
    + rewrite Z.abs_eq in Hd by lia. exact Hd.
  - assert (K < 0) by nia.
    rewrite (binary_round_integer true p ez (- K)); try assumption; try lia.
    + simpl. f_equal. lia.
    + rewrite Z.abs_neq in Hd by lia. exact Hd.
Qed.

(** *** Integers as numbers *)

Lemma digits_below k : 0 <= k < 2 ^ 53 -> digits k <= prec.
Proof.
  intros Hk. unfold digits, prec.
  destruct (Z.eq_dec k 0) as [->|Hne]; [simpl; lia|].
  assert (Z.log2 k < 53) by (apply Z.log2_lt_pow2; lia). lia.
Qed.

Lemma integer_of_of_Z n : 0 <= n < 2 ^ 53 -> integer_of (of_Z n) = Some n.
Proof.
  intros Hn. unfold integer_of, of_Z.
  destruct (Z.ltb_spec n 0) as [Hlt|_]; [lia|].
  rewrite of_uint63_spec, Uint63.of_Z_spec.
  rewrite Z.mod_small by (change Uint63.wB with (2 ^ 63); lia).
  replace n with (n * 2 ^ (- 0)) at 1 by (simpl; lia).
  apply binary_normalize_integer.
  - rewrite Z.abs_eq by lia. apply digits_below. exact Hn.
  - unfold emin, SpecFloat.emin, emax, prec. lia.
  - lia.
Qed.

(** One less than an integer. *)
Lemma integer_of_pred x a :
  integer_of x = Some a -> 1 <= a <= 2 ^ 53 ->
  integer_of (x - 1)%float = Some (a - 1).
Proof.
  unfold integer_of. intros Ha Hr. rewrite sub_spec. unfold SF64sub.
  pose proof (Prim2SF_valid x) as Vx.
  change (Prim2SF 1) with (S754_finite false 4503599627370496 (-52)).
  destruct (Prim2SF x) as [sx|sx| |sx mx ex]; try discriminate Ha.
  - injection Ha as <-. lia.
  - unfold SFsub.
    unfold valid_binary in Vx. simpl in Vx. unfold bounded in Vx.
    apply andb_prop in Vx. destruct Vx as [Cx _]. apply canonical_emin in Cx.
    fold (aligned sx mx ex (Z.min ex (-52))).
    fold (aligned false 4503599627370496 (-52) (Z.min ex (-52))).
    rewrite (proj1 (aligned_integer sx mx ex (Z.min ex (-52)) a Ha ltac:(lia)))
      by lia.
    rewrite (proj1 (aligned_integer false 4503599627370496 (-52) (Z.min ex (-52)) 1
                      eq_refl ltac:(lia))) by lia.
    rewrite <- Z.mul_sub_distr_r.
    apply binary_normalize_integer; [| |lia].
    + rewrite Z.abs_eq by lia. apply digits_below. lia.
    + unfold emin, SpecFloat.emin, emax, prec in *. lia.
Qed.

Lemma integer_of_pred_of_Z n :
  0 <= n < 2 ^ 53 -> integer_of (of_Z n - 1)%float = Some (n - 1).
Proof.
  intros Hn. destruct (Z.eq_dec n 0) as [->|Hne]; [reflexivity|].
  apply integer_of_pred; [apply integer_of_of_Z; exact Hn|lia].
Qed.

Lemma integer_of_compare x y a b :
  integer_of x = Some a -> integer_of y = Some b ->
  SFcompare (Prim2SF x) (Prim2SF y) = Some (a ?= b).
Proof. apply integer_sf_compare; apply Prim2SF_valid. Qed.

End IntegerFacts.

(** ** A frame, step by step

    Every step of [renderFrame] is followed on a context and on a blank
    context with the same kept attributes. *)

Section FrameLocality.
Import Js Lrc Types Renderer Canvas2D Frame FrameLocal.

Variable Math_sin Math_cos : number -> number.
Variable measureText : Value -> jsstring -> number.
Variable p : RenderContext.
Variable placeholder : bool.

Local Abbreviation draw_background := (draw_background p).
Local Abbreviation draw_backdrop := (draw_backdrop p).
Local Abbreviation drawBokeh := (drawBokeh Math_sin Math_cos).
Local Abbreviation draw_bokeh_layer := (draw_bokeh_layer Math_sin Math_cos p placeholder).
Local Abbreviation draw_art := (draw_art p).
Local Abbreviation draw_title := (draw_title measureText p).
Local Abbreviation draw_line := (draw_line Math_cos measureText p).
Local Abbreviation lines_loop := (lines_loop Math_cos measureText p).
Local Abbreviation draw_lyrics := (draw_lyrics Math_cos measureText p).
Local Abbreviation renderFrame := (renderFrame Math_sin Math_cos measureText p placeholder).

Ltac crunch :=
  cbv [Frame.draw_background Frame.draw_backdrop Frame.draw_art Frame.drawRoundedImage
       Frame.drawBokeh Frame.draw_particle Frame.draw_bokeh_layer
       clearRect fillRect drawImage fill stroke fillText draw assign save restore
       beginPath roundRect closePath arc add_shape do_clip translate scale
       transform_of clip_of set_attr fresh blank onto view kept for_lines css
       Attr_eqb bearing compositing map combine lookup fold_left option_map
       state stack path drawn];
  rewrite <- ?app_assoc;
  cbn [app].

Lemma forEach_draws {A} (d : A -> Z -> Draw) l : forall idx c,
  forEach (fun x i ctx => draw (d x i) ctx) l idx c = onto c (draws d l idx (state c)).
Proof.
  induction l as [|x l IH]; intros idx [st sk pa dr].
  - unfold onto. simpl. rewrite app_nil_r. reflexivity.
  - cbn [forEach draws]. rewrite IH. unfold onto, draw. cbn [state stack path drawn].
    rewrite <- app_assoc. reflexivity.
Qed.

Lemma draws_ext {A} (d : A -> Z -> Draw) l st1 st2 : forall idx,
  (forall x i, Forall (fun a => st1 a = st2 a) (bearing (d x i))) ->
  draws d l idx st1 = draws d l idx st2.
Proof.
  intros idx H. revert idx. induction l as [|x l IH]; intros idx; [reflexivity|].
  cbn [draws]. rewrite IH. f_equal. f_equal.
  apply map_ext_in. intros a Ha. f_equal.
  specialize (H x idx). rewrite Forall_forall in H. apply H. exact Ha.
Qed.

Lemma view_fresh st : view kept (state (fresh kept (view kept st))) = view kept st.
Proof. reflexivity. Qed.

Lemma view_fresh_lines st :
  view for_lines (state (fresh for_lines (view for_lines st))) = view for_lines st.
Proof. reflexivity. Qed.

(** Steps compose. *)
Lemma step_local_then f g :
  step_local (fun c => Some (f c)) -> step_local g -> step_local (fun c => g (f c)).
Proof.
  intros Hf Hg c. cbv beta.
  pose proof (Hf c) as H1. cbv beta in H1. destruct H1 as (S1 & V1 & D1).
  pose proof (Hf (fresh kept (view kept (state c)))) as H2. cbv beta in H2.
  rewrite view_fresh in H2. destruct H2 as (S2 & V2 & D2).
  pose proof (Hg (f c)) as H3. rewrite V1 in H3.
  pose proof (Hg (f (fresh kept (view kept (state c))))) as H4.
  rewrite V2 in H4.
  destruct (g (f c)) as [c'|], (g (f (fresh kept (view kept (state c))))) as [c0|],
    (g (fresh kept (view kept (state c)))) as [c1|]; try contradiction; try exact I.
  destruct H3 as (S3 & V3 & D3). destruct H4 as (S4 & V4 & D4).
  repeat split.
  - congruence.
  - congruence.
  - rewrite D3, D1, D4, D2. cbn [fresh blank drawn app]. rewrite <- app_assoc. reflexivity.
Qed.

Lemma draw_background_local : step_local (fun c => Some (draw_background c)).
Proof. intros [st sk pa dr]. crunch. repeat split. Qed.

Lemma draw_backdrop_local : step_local (fun c => Some (draw_backdrop c)).
Proof.
  intros [st sk pa dr]. unfold Frame.draw_backdrop. destruct (image p) as [img|]; crunch.
  - repeat split.
  - rewrite app_nil_r. repeat split.
Qed.

Lemma draw_art_local : step_local (fun c => Some (draw_art c)).
Proof.
  intros [st sk pa dr]. unfold Frame.draw_art. destruct (image p) as [img|].
  - unfold Frame.drawRoundedImage.
    destruct (gtb (img_width img / img_height img)
                (Frame.imgSize p / Frame.imgSize p)); crunch; repeat split.
  - crunch. repeat split.
Qed.

Lemma draw_bokeh_layer_local : step_local (fun c => Some (draw_bokeh_layer c)).
Proof.
  intros [st sk pa dr]. unfold Frame.draw_bokeh_layer.
  destruct (bokehEnabled (settings p)).
  - unfold Frame.drawBokeh.
    change (Bokeh.indices 0 Bokeh.particleCount)
      with [0; 1; 2; 3; 4; 5; 6; 7; 8; 9; 10; 11; 12; 13; 14]%Z.
    destruct (placeholder && bokehAutoColor (settings p)) eqn:E;
      unfold Frame.draw_particle; rewrite E; crunch; repeat split.
  - crunch. rewrite app_nil_r. repeat split.
Qed.

Lemma draw_title_local : step_local (fun c => Some (draw_title c)).
Proof.
  intros [st sk pa dr]. unfold Frame.draw_title. cbv zeta.
  unfold wrapped, fillText.
  rewrite !(forEach_draws (fun (line : jsstring) (idx : Z) =>
             FillText line (rightPanelStart p) _)).
  destruct (titleOpacity p) as [titleOpacity|]; crunch;
    (split; [reflexivity|]); (split; [reflexivity|]);
    f_equal; apply draws_ext; intros x i; cbv [bearing compositing];
    repeat constructor.
Qed.

Ltac open_line :=
  unfold Frame.draw_line; cbv zeta;
  destruct (line_style _ _ _ _) as [style|];
  [destruct (item (lyrics p) _) as [line|];
   [unfold wrapped, fillText;
    rewrite !(forEach_draws (fun (txt : jsstring) (lineIdx : Z) => FillText txt 0 _));
    destruct (gtb (blur style) 0);
    destruct (Math_abs _ <? 0.4)%float
   |]
  |].

(** A line is drawn onto the context: the state, the stack and the path
    are as before. *)
Lemma draw_line_onto c i :
  draw_line c i = option_map (onto c) (option_map drawn (draw_line (blank (state c)) i)).
Proof.
  destruct c as [st sk pa dr]. cbn [state]. open_line; crunch;
    rewrite ?app_nil_r; reflexivity.
Qed.

(** What is drawn depends on the attributes [for_lines] alone. *)
Lemma draw_line_view st i :
  option_map drawn (draw_line (blank st) i)
  = option_map drawn (draw_line (fresh for_lines (view for_lines st)) i).
Proof.
  open_line; crunch; try reflexivity;
    f_equal; apply draws_ext; intros x j; cbv [bearing compositing];
    repeat constructor.
Qed.

Lemma onto_onto c ds1 ds2 : onto (onto c ds1) ds2 = onto c (ds1 ++ ds2).
Proof. unfold onto. cbn [state stack path drawn]. rewrite app_assoc. reflexivity. Qed.

Lemma lines_loop_onto todo : forall c,
  lines_loop todo c
  = option_map (onto c) (option_map drawn (lines_loop todo (blank (state c)))).
Proof.
  induction todo as [|i todo IH]; intros c; cbn [Frame.lines_loop].
  - destruct c as [st sk pa dr]. unfold onto, blank. cbn. rewrite app_nil_r. reflexivity.
  - rewrite (draw_line_onto c i).
    pose proof (draw_line_onto (blank (state c)) i) as Hb. cbn [blank state] in Hb.
    fold (blank (state c)) in Hb.
    destruct (draw_line (blank (state c)) i) as [b1|]; [|reflexivity].
    cbn [option_map] in *. injection Hb as Hb.
    assert (Hs : state b1 = state c) by (rewrite Hb; reflexivity).
    rewrite (IH (onto c (drawn b1))), (IH b1), Hs. cbn [onto state].
    destruct (lines_loop todo (blank (state c))) as [b2|]; [|reflexivity].
    cbn [option_map]. rewrite onto_onto. reflexivity.
Qed.

Lemma lines_loop_view todo : forall st,
  option_map drawn (lines_loop todo (blank st))
  = option_map drawn (lines_loop todo (fresh for_lines (view for_lines st))).
Proof.
  induction todo as [|i todo IH]; intros st; cbn [Frame.lines_loop]; [reflexivity|].
  pose proof (draw_line_view st i) as Hv.
  pose proof (draw_line_onto (blank st) i) as H1.
  pose proof (draw_line_onto (fresh for_lines (view for_lines st)) i) as H2.
  cbn [blank fresh state] in H1, H2.
  fold (blank st) in H1.
  fold (blank (fun a => lookup a (combine for_lines (view for_lines st)))) in H2.
  fold (fresh for_lines (view for_lines st)) in H2.
  destruct (draw_line (blank st) i) as [b1|],
    (draw_line (fresh for_lines (view for_lines st)) i) as [f1|];
    try discriminate Hv; [|reflexivity].
  cbn [option_map] in *. injection Hv as Hv. injection H1 as H1. injection H2 as H2.
  assert (S1 : state b1 = st) by (rewrite H1; reflexivity).
  assert (S2 : state f1 = state (fresh for_lines (view for_lines st)))
    by (rewrite H2; reflexivity).
  rewrite (lines_loop_onto todo b1), (lines_loop_onto todo f1), S1, S2.
  rewrite (IH st).
  rewrite (IH (state (fresh for_lines (view for_lines st)))), view_fresh_lines.
  change (blank (state (fresh for_lines (view for_lines st))))
    with (fresh for_lines (view for_lines st)).
  destruct (lines_loop todo (fresh for_lines (view for_lines st))) as [b2|];
    [|reflexivity].
  cbn [option_map onto drawn]. rewrite Hv. reflexivity.
Qed.

Lemma draw_lyrics_local : step_local draw_lyrics.
Proof.
  intros c. unfold Frame.draw_lyrics. cbv zeta.
  set (c1 := assign textBaseline _ (assign textAlign _ c)).
  set (c0 := assign textBaseline _
               (assign textAlign _ (fresh kept (view kept (state c))))).
  assert (Hv : view for_lines (state c1) = view for_lines (state c0))
    by (destruct c; reflexivity).
  assert (Hk : view kept (state c1) = view kept (state c)) by (destruct c; reflexivity).
  assert (Hs : stack c1 = stack c) by reflexivity.
  assert (Hd : drawn c1 = drawn c) by reflexivity.
  assert (Hd0 : drawn c0 = []) by reflexivity.
  rewrite (lines_loop_onto (visited p) c1), (lines_loop_onto (visited p) c0).
  rewrite (lines_loop_view (visited p) (state c1)),
    (lines_loop_view (visited p) (state c0)), Hv.
  clearbody c1 c0.
  destruct (lines_loop (visited p) (fresh for_lines (view for_lines (state c0))))
    as [b|]; cbn [option_map]; [|exact I].
  unfold onto. cbn [state stack drawn]. rewrite Hs, Hk, Hd, Hd0. repeat split.
Qed.

(** The whole frame is a step of this kind. *)
Lemma renderFrame_local : step_local renderFrame.
Proof.
  unfold Frame.renderFrame.
  apply (step_local_then draw_background
           (fun c => let ctx := draw_backdrop c in
                     let ctx := draw_bokeh_layer ctx in
                     let ctx := draw_art ctx in
                     if isIntro p then Some (draw_title ctx) else draw_lyrics ctx));
    [apply draw_background_local|].
  apply (step_local_then draw_backdrop
           (fun c => let ctx := draw_bokeh_layer c in
                     let ctx := draw_art ctx in
                     if isIntro p then Some (draw_title ctx) else draw_lyrics ctx));
    [apply draw_backdrop_local|].
  apply (step_local_then draw_bokeh_layer
           (fun c => let ctx := draw_art c in
                     if isIntro p then Some (draw_title ctx) else draw_lyrics ctx));
    [apply draw_bokeh_layer_local|].
  apply (step_local_then draw_art
           (fun ctx => if isIntro p then Some (draw_title ctx) else draw_lyrics ctx));
    [apply draw_art_local|].
  destruct (isIntro p); [apply draw_title_local|apply draw_lyrics_local].
Qed.

(** *** The texts of a frame of the intro *)

Lemma skipn_length_app {A} (l l' : list A) : skipn (List.length l) (l ++ l') = l'.
Proof. induction l as [|x l IH]; [reflexivity|exact IH]. Qed.

Lemma texts_app l1 l2 : texts (l1 ++ l2) = texts l1 ++ texts l2.
Proof. unfold texts. apply flat_map_app. Qed.

Lemma texts_draws (x y : jsstring -> Z -> number) l st : forall idx,
  texts (draws (fun t i => FillText t (x t i) (y t i)) l idx st) = l.
Proof.
  induction l as [|t l IH]; intros idx; [reflexivity|].
  cbn [draws]. unfold texts in *. cbn [flat_map call app]. rewrite IH. reflexivity.
Qed.

(** X24. During the intro no lyric is drawn: the texts of the frame are the
    caption of the placeholder, if there is no cover image, and the lines
    of the title, wrapped to the width of the right panel as the title
    font measures them. *)
Theorem renderFrame_intro_texts : forall c,
  isIntro p = true ->
  exists c', renderFrame c = Some c' /\
    texts (added c c')
    = match image p with Some _ => [] | None => [lit "No Cover Art"] end
      ++ getWrappedLines (measureText (title_font p)) (rightPanelWidth p)
           (title (settings p)).
Proof.
  intros [st sk pa dr] Hi. unfold Frame.renderFrame. rewrite Hi.
  eexists. split; [reflexivity|].
  unfold Frame.draw_title. cbv zeta. unfold wrapped, fillText.
  rewrite (forEach_draws (fun (line : jsstring) (idx : Z) =>
             FillText line (rightPanelStart p) _)).
  unfold added.
  unfold Frame.draw_art, Frame.draw_bokeh_layer, Frame.draw_backdrop, Frame.drawBokeh,
    Frame.drawRoundedImage.
  change (Bokeh.indices 0 Bokeh.particleCount)
    with [0; 1; 2; 3; 4; 5; 6; 7; 8; 9; 10; 11; 12; 13; 14]%Z.
  destruct (image p) as [img|];
    destruct (bokehEnabled (settings p));
    destruct (titleOpacity p) as [titleOpacity|];
    try destruct (gtb (img_width img / img_height img)
                    (Frame.imgSize p / Frame.imgSize p));
    try (destruct (placeholder && bokehAutoColor (settings p)) eqn:E;
         unfold Frame.draw_particle; rewrite E);
    crunch; rewrite skipn_length_app;
    repeat (match goal with
            | |- texts (?d :: ?l) = _ => change (texts (d :: l)) with (texts [d] ++ texts l)
            end; cbn [texts flat_map call app]);
    fold (texts);
    rewrite (texts_draws (fun _ _ => rightPanelStart p)); reflexivity.
Qed.

End FrameLocality.

(** ** The bounds of the loop over the lyric stack *)

Section FrameBounds.
Import Js Binary64 Lrc Types Renderer Integers Canvas2D Frame NumberFacts.

Variable Math_sin Math_cos : number -> number.
Variable measureText : Value -> jsstring -> number.
Variable p : RenderContext.
Variable placeholder : bool.

Local Abbreviation draw_line := (draw_line Math_cos measureText p).
Local Abbreviation lines_loop := (lines_loop Math_cos measureText p).
Local Abbreviation draw_lyrics := (draw_lyrics Math_cos measureText p).
Local Abbreviation renderFrame := (renderFrame Math_sin Math_cos measureText p placeholder).

Lemma integer_of_ltb x y a b :
  integer_of x = Some a -> integer_of y = Some b ->
  (x <? y)%float = (a <? b)%Z.
Proof.
  intros Ha Hb. rewrite ltb_spec. unfold SFltb.
  rewrite (integer_of_compare x y a b Ha Hb). unfold Z.ltb.
  destruct (a ?= b)%Z; reflexivity.
Qed.

(** [Math.max(0, y)] is not a negative integer. *)
Lemma integer_of_max_nonneg y s :
  integer_of (Math_max 0 y) = Some s -> (0 <= s)%Z.
Proof.
  unfold Math_max. change (is_nan 0) with false. cbn [orb].
  destruct (is_nan y); [discriminate|].
  destruct (0 <? y)%float eqn:E.
  - intros Hs. rewrite (integer_of_ltb 0 y 0 s eq_refl Hs) in E.
    apply Z.ltb_lt in E. lia.
  - change (get_sign 0) with false.
    destruct (y <? 0)%float; intros [= <-]; lia.
Qed.

(** [Math.min(x, y)] is no integer above the integer [x]. *)
Lemma integer_of_min_le x y l e :
  integer_of x = Some l -> integer_of (Math_min x y) = Some e -> (e <= l)%Z.
Proof.
  intros Hl. unfold Math_min.
  destruct (is_nan x || is_nan y); [discriminate|].
  destruct (x <? y)%float eqn:E1; [rewrite Hl; intros [= <-]; lia|].
  destruct (y <? x)%float eqn:E2.
  - intros He. rewrite (integer_of_ltb y x e l He Hl) in E2.
    apply Z.ltb_lt in E2. lia.
  - destruct (get_sign x); [rewrite Hl; intros [= <-]; lia|].
    intros He. rewrite (integer_of_ltb y x e l He Hl) in E2.
    rewrite (integer_of_ltb x y l e Hl He) in E1.
    apply Z.ltb_ge in E1, E2. lia.
Qed.

Lemma In_indices k : forall s i,
  In i (Bokeh.indices s k) -> (s <= i < s + Z.of_nat k)%Z.
Proof.
  induction k as [|k IH]; intros s i; [intros []|].
  cbn [Bokeh.indices]. intros [<-|Hin]; [lia|].
  apply IH in Hin. lia.
Qed.

Lemma item_defined {A} (l : list A) i :
  (0 <= i < Z.of_nat (List.length l))%Z -> exists x, item l i = Some x.
Proof.
  intros Hi. unfold item. destruct (Z.ltb_spec i 0) as [|_]; [lia|].
  destruct (nth_error l (Z.to_nat i)) as [x|] eqn:E; [eauto|].
  apply nth_error_None in E. lia.
Qed.

(** The loop stays within the array. *)
Lemma visited_in_bounds :
  (Z.of_nat (List.length (lyrics p)) < 2 ^ 53)%Z ->
  forall i, In i (visited p) -> (0 <= i < Z.of_nat (List.length (lyrics p)))%Z.
Proof.
  intros Hlen i. unfold visited.
  destruct (integer_of (startIndex p)) as [s|] eqn:Es; [|intros []].
  destruct (integer_of (endIndex p)) as [e|] eqn:Ee; [|intros []].
  intros Hin. apply In_indices in Hin.
  apply integer_of_max_nonneg in Es.
  unfold endIndex, length_of in Ee.
  pose proof (integer_of_min_le _ _ _ _
                (integer_of_pred_of_Z (Z.of_nat (List.length (lyrics p))) ltac:(lia))
                Ee) as Hle.
  lia.
Qed.

Lemma draw_line_defined ctx i :
  (0 <= i < Z.of_nat (List.length (lyrics p)))%Z ->
  exists ctx', draw_line ctx i = Some ctx'.
Proof.
  intros Hi. destruct (item_defined (lyrics p) i Hi) as [line Hline].
  unfold Frame.draw_line. rewrite Hline.
  destruct (line_style _ _ _ _); eauto.
Qed.

Lemma lines_loop_defined todo : forall ctx,
  (forall i, In i todo -> (0 <= i < Z.of_nat (List.length (lyrics p)))%Z) ->
  exists ctx', lines_loop todo ctx = Some ctx'.
Proof.
  induction todo as [|i todo IH]; intros ctx Hin; cbn [Frame.lines_loop]; [eauto|].
  destruct (draw_line_defined ctx i (Hin i (or_introl eq_refl))) as [ctx1 ->].
  apply IH. intros j Hj. apply Hin. right. exact Hj.
Qed.

(** X21. The loop over the lyric stack never reads a cue outside the
    timeline, whatever the smoothed index (a NaN or an infinity
    included): every index it visits is one of a cue, so the frame is
    drawn to its end. *)
Theorem renderFrame_in_bounds : forall ctx,
  (Z.of_nat (List.length (lyrics p)) < 2 ^ 53)%Z ->
  (forall i, In i (visited p) -> exists line, item (lyrics p) i = Some line) /\
  exists ctx', renderFrame ctx = Some ctx'.
Proof.
  intros ctx Hlen. split.
  - intros i Hin. apply item_defined. apply visited_in_bounds; assumption.
  - unfold Frame.renderFrame. destruct (isIntro p); [eauto|].
    unfold Frame.draw_lyrics. apply lines_loop_defined.
    apply visited_in_bounds. exact Hlen.
Qed.

End FrameBounds.

(** ** Frames one after the other *)

Section Frames.
Import Js Lrc Types Renderer Canvas2D Frame FrameLocal.

Variable Math_sin Math_cos : number -> number.
Variable measureText : Value -> jsstring -> number.

Local Abbreviation renderFrame := (renderFrame Math_sin Math_cos measureText).

Lemma added_app c c' ds : drawn c' = drawn c ++ ds -> added c c' = ds.
Proof.
  intros H. unfold added. rewrite H. clear H.
  induction (drawn c) as [|d l IH]; [reflexivity|exact IH].
Qed.

(** X22. A frame leaves the context as it found it, but for the fill
    style, the font and the alignment of text: the stack of saved states
    is as deep as before, and the alpha, the compositing operation, the
    filter, the shadow, the transform, the clip and the stroke are those
    of before. *)
Theorem renderFrame_restores : forall p placeholder c c',
  renderFrame p placeholder c = Some c' ->
  stack c' = stack c /\ forall a, In a kept -> state c' a = state c a.
Proof.
  intros p placeholder c c' H.
  pose proof (renderFrame_local Math_sin Math_cos measureText p placeholder c) as L.
  rewrite H in L.
  destruct (Frame.renderFrame Math_sin Math_cos measureText p placeholder
              (fresh kept (view kept (state c)))) as [c0|]; [|contradiction].
  destruct L as (Hs & Hv & _). split; [exact Hs|].
  intros a Ha. exact (ext_in_map Hv a Ha).
Qed.

(** X23. What a frame draws does not depend on the frames drawn before it:
    after any frame, the next frame makes the drawing calls, under the
    same attributes, that it makes on the context the first frame
    started from. *)
Theorem renderFrame_independent : forall p1 p2 placeholder c c1 c2,
  renderFrame p1 placeholder c = Some c1 ->
  renderFrame p2 placeholder c1 = Some c2 ->
  exists c2', renderFrame p2 placeholder c = Some c2' /\ added c c2' = added c1 c2.
Proof.
  intros p1 p2 placeholder c c1 c2 H1 H2.
  pose proof (renderFrame_local Math_sin Math_cos measureText p1 placeholder c) as L1.
  rewrite H1 in L1.
  destruct (Frame.renderFrame Math_sin Math_cos measureText p1 placeholder
              (fresh kept (view kept (state c)))) as [c0|]; [|contradiction].
  destruct L1 as (_ & Hv & _). clear c0.
  pose proof (renderFrame_local Math_sin Math_cos measureText p2 placeholder c1) as L2.
  rewrite H2, Hv in L2.
  pose proof (renderFrame_local Math_sin Math_cos measureText p2 placeholder c) as L3.
  destruct (Frame.renderFrame Math_sin Math_cos measureText p2 placeholder
              (fresh kept (view kept (state c)))) as [c0|]; [|contradiction].
  destruct (Frame.renderFrame Math_sin Math_cos measureText p2 placeholder c) as [c2'|];
    [|contradiction].
  destruct L2 as (_ & _ & D2). destruct L3 as (_ & _ & D3).
  exists c2'. split; [reflexivity|].
  rewrite (added_app c c2' _ D3), (added_app c1 c2 _ D2). reflexivity.
Qed.

End Frames.

(** ** Examples of frames *)

Section FrameExamples.
Import Js Lrc Types Renderer Integers Canvas2D Frame FrameLocal.

Local Abbreviation renderFrame := (renderFrame Bokeh.flat_wave Bokeh.flat_wave ten_wide).

Lemma renderFrame_restores_witness :
  exists c', renderFrame lyric_frame false new_context = Some c' /\
    stack c' = [] /\ state c' transform = Transforms [] /\
    state c' globalAlpha = Number 1.
Proof.
  destruct (renderFrame lyric_frame false new_context) as [c'|] eqn:E;
    [|vm_compute in E; discriminate E].
  exists c'. split; [reflexivity|].
  destruct (renderFrame_restores Bokeh.flat_wave Bokeh.flat_wave ten_wide
              lyric_frame false new_context c' E) as [Hs Hk].
  split; [exact Hs|]. split.
  - apply (Hk transform). vm_compute. tauto.
  - apply (Hk globalAlpha). vm_compute. tauto.
Defined.

Lemma renderFrame_independent_witness :
  exists c1 c2 c2',
    renderFrame intro_frame false new_context = Some c1 /\
    renderFrame lyric_frame false c1 = Some c2 /\
    renderFrame lyric_frame false new_context = Some c2' /\
    added new_context c2' = added c1 c2.
Proof.
  destruct (renderFrame intro_frame false new_context) as [c1|] eqn:E1;
    [|vm_compute in E1; discriminate E1].
  destruct (renderFrame lyric_frame false c1) as [c2|] eqn:E2.
  - destruct (renderFrame_independent Bokeh.flat_wave Bokeh.flat_wave ten_wide
                intro_frame lyric_frame false new_context c1 c2 E1 E2)
      as [c2' [E3 Ha]].
    exists c1, c2, c2'. repeat split; assumption.
  - exfalso. injection E1 as <-. vm_compute in E2. discriminate E2.
Defined.

Lemma renderFrame_in_bounds_witness :
  visited lyric_frame = [0; 1]%Z /\
  exists ctx', renderFrame lyric_frame false new_context = Some ctx'.
Proof.
  split; [vm_compute; reflexivity|].
  apply (proj2 (renderFrame_in_bounds Bokeh.flat_wave Bokeh.flat_wave ten_wide
                  lyric_frame false new_context eq_refl)).
Defined.

Lemma renderFrame_intro_texts_witness :
  exists c', renderFrame intro_frame false new_context = Some c' /\
    texts (added new_context c') = [lit "No Cover Art"; lit "Unknown Track"].
Proof.
  destruct (renderFrame_intro_texts Bokeh.flat_wave Bokeh.flat_wave ten_wide
              intro_frame false new_context eq_refl) as [c' [E T]].
  exists c'. split; [exact E|]. rewrite T. vm_compute. reflexivity.
Defined.

End FrameExamples.

(** ** The intro is silent *)

Section IntroSilence.
Import Js Lrc Timeline Recorder Silence.

Ltac open_app st :=
  destruct st as [[url ly dur playing rec phase dl]
                    [canvas mrec chunks actx src dest osc smooth t0 req]
                    [at_ paused rs os al co] calls].

Lemma silent_sync_effect before after :
  silent_intro after -> silent_intro (sync_effect before after).
Proof.
  unfold sync_effect, silent_intro. intros HI.
  destruct (_ && _); [exact HI|].
  destruct (phase_eqb (recordingPhase (react after)) idle) eqn:E; [|exact HI].
  destruct (audioRef after); [|exact HI].
  cbn. intros H. rewrite H in E. discriminate E.
Qed.

Lemma quiet_silent st st' : quiet st st' -> silent_intro st -> silent_intro st'.
Proof.
  unfold quiet, silent_intro. intros [[Hp Ha]|[Hn|Hq]] HI H.
  - apply Ha, HI. congruence.
  - contradiction.
  - exact Hq.
Qed.

Ltac quiet_cases :=
  cbn -[lit update app scroll_step activeIndex gtb nth];
  first [ left; split; [reflexivity|intros H; first [exact H|reflexivity]]
        | right; left; discriminate
        | right; right; reflexivity ].

Lemma startRecording_quiet build env st : quiet st (snd (startRecording build env st)).
Proof.
  open_app st. destruct env as [sus rej srcT cap recT sta nw].
  unfold startRecording, after_resume, create_context, resume_context,
    connect_and_silence, capture_and_record, new_MediaRecorder, createOscillator,
    set_oscillator, set_recorder_state, console_log, alert, may_throw, when,
    try_catch, bind, ret, throw, get, modify, audioRef, quiet.
  destruct url as [[|ch url]|], canvas; try quiet_cases.
  destruct build, sus, rej, srcT, src, cap, recT, sta; quiet_cases.
Qed.

Lemma startRecording_continue_quiet st : quiet st (snd (startRecording_continue st)).
Proof.
  open_app st.
  unfold startRecording_continue, after_resume, create_context, resume_context,
    connect_and_silence, capture_and_record, new_MediaRecorder, createOscillator,
    set_oscillator, set_recorder_state, console_log, alert, may_throw, when,
    try_catch, bind, ret, throw, get, modify, audioRef, quiet.
  destruct calls as [|[sus rej srcT cap recT sta nw] calls]; [quiet_cases|].
  destruct url as [[|ch url]|], rej, srcT, src, cap, recT, sta; quiet_cases.
Qed.

Lemma stopRecording_quiet st : quiet st (snd (stopRecording st)).
Proof.
  open_app st.
  unfold stopRecording, set_recorder_state, when, bind, ret, get, modify,
    audioRef, recorder_state, quiet.
  cbn [react refs browser mediaRecorderRef recorders audioUrl].
  destruct mrec as [id|]; [|quiet_cases].
  destruct (nth id rs Inactive); try quiet_cases.
  destruct url as [[|ch url]|]; quiet_cases.
Qed.

Lemma handler_quiet build ev st : quiet st (snd (handler build ev st st)).
Proof.
  destruct ev as [env| | | |id data|id| |t|now|u|lrc|secs|]; cbn [handler].
  - destruct (_ && _); [|left; split; [reflexivity|exact (fun H => H)]].
    destruct (awaits_resume build env st); [|apply startRecording_quiet].
    open_app st. unfold startRecording_until_await, create_context, bind, modify.
    quiet_cases.
  - apply startRecording_continue_quiet.
  - destruct (isRecording (react st)); [apply stopRecording_quiet|].
    left; split; [reflexivity|exact (fun H => H)].
  - unfold togglePlay, bind, get. cbn [fst snd].
    destruct (isRecording (react st)); [apply stopRecording_quiet|].
    open_app st. unfold modify. quiet_cases.
  - destruct (recorder_state st id);
      [left; split; [reflexivity|exact (fun H => H)]| |];
      open_app st; unfold ondataavailable, when, modify, ret;
      destruct (0 <? data)%N; quiet_cases.
  - destruct (recorder_state st id);
      [left; split; [reflexivity|exact (fun H => H)]| |];
      open_app st;
      unfold onstop, set_recorder_state, set_oscillator, bind, get, modify, ret;
      destruct build, osc as [o|]; quiet_cases.
  - open_app st.
    unfold stopRecording, set_recorder_state, when, bind, ret, get, modify,
      audioRef, recorder_state.
    cbn [react refs browser mediaRecorderRef recorders audioUrl isRecording].
    destruct url as [[|ch url]|]; try quiet_cases.
    destruct rec; try quiet_cases.
    destruct mrec as [id|]; try quiet_cases.
    cbn -[nth update]. destruct (nth id rs Inactive); quiet_cases.
  - open_app st. unfold when, modify, ret, audioRef.
    cbn [react browser audioUrl audioPaused].
    destruct url as [[|ch url]|], paused; quiet_cases.
  - open_app st. destruct req as [phase' dur' ly'].
    unfold animate, handleIntroComplete, when, bind, ret, get, modify, audioRef.
    cbn [react refs browser canvasRef recordingPhase audioUrl requestRef
         seen_recordingPhase seen_introDuration seen_lyrics].
    destruct canvas; [|quiet_cases].
    destruct phase'; [| |];
      try destruct (gtb _ _);
      destruct url as [[|ch url]|]; quiet_cases.
  - open_app st. unfold modify. quiet_cases.
  - open_app st. unfold bind, modify. quiet_cases.
  - open_app st. unfold modify. quiet_cases.
  - open_app st. unfold request_animate, modify. quiet_cases.
Qed.

(** X25. The intro is silent: in every state the component can reach, in
    either build, whatever the browser does and whichever render the
    frames that run were requested by, the audio element is paused while
    the phase is [intro]. *)
Theorem intro_is_silent : forall build st,
  reachable build st -> silent_intro st.
Proof.
  intros build st H. induction H as [|ev st H IH].
  - intros Hp. discriminate Hp.
  - unfold dispatch. apply silent_sync_effect.
    apply (quiet_silent st); [apply handler_quiet|exact IH].
Qed.

Lemma intro_is_silent_witness :
  recordingPhase (react Session.intro_session) = intro /\
  audioPaused (browser Session.intro_session) = true.
Proof.
  split; [reflexivity|].
  apply (intro_is_silent IndexTsx Session.intro_session); [|reflexivity].
  unfold Session.intro_session. apply reachable_run. unfold ready. repeat constructor.
Defined.

End IntroSilence.

(** ** The buttons and the phase *)

Section ButtonsAgree.
Import Js Lrc Timeline Recorder Buttons.

Ltac open_app st :=
  destruct st as [[url ly dur playing rec phase dl]
                    [canvas mrec chunks actx src dest osc smooth t0 req]
                    [at_ paused rs os al co] calls].

Lemma sync_effect_react_same before after :
  react (sync_effect before after) = react after.
Proof.
  unfold sync_effect. destruct (_ && _); [reflexivity|].
  destruct (_ && _); reflexivity.
Qed.

Lemma session_step_agree st st' :
  session_step st st' -> buttons_agree st -> buttons_agree st'.
Proof.
  unfold session_step, buttons_agree, stop_button_rendered, download_link_rendered.
  intros [(Hr & Hd & Hp)|[(Hr & Hd)|(Hp & Hr)]] [H1 H2].
  - rewrite Hr, Hd. split; [|exact H2].
    intros Hn. apply H1. destruct Hp as [Hp|Hp]; [congruence|].
    rewrite Hp. discriminate.
  - rewrite Hr, Hd. split; reflexivity.
  - rewrite Hr, Hp. split; [intros H; exfalso; apply H; reflexivity|discriminate].
Qed.

Lemma session_step_refl st : session_step st st.
Proof. left. repeat split. left. reflexivity. Qed.

Ltac step_cases :=
  cbn -[lit update app scroll_step activeIndex gtb nth];
  first [ left; split; [reflexivity|split; [reflexivity|left; reflexivity]]
        | left; split; [reflexivity|split; [reflexivity|right; reflexivity]]
        | right; left; split; reflexivity
        | right; right; split; reflexivity ].

Lemma startRecording_step build env st : session_step st (snd (startRecording build env st)).
Proof.
  open_app st. destruct env as [sus rej srcT cap recT sta nw].
  unfold startRecording, after_resume, create_context, resume_context,
    connect_and_silence, capture_and_record, new_MediaRecorder, createOscillator,
    set_oscillator, set_recorder_state, console_log, alert, may_throw, when,
    try_catch, bind, ret, throw, get, modify, audioRef, session_step.
  destruct url as [[|ch url]|], canvas; try step_cases.
  destruct build, sus, rej, srcT, src, cap, recT, sta; step_cases.
Qed.

Lemma startRecording_continue_step st :
  session_step st (snd (startRecording_continue st)).
Proof.
  open_app st.
  unfold startRecording_continue, after_resume, create_context, resume_context,
    connect_and_silence, capture_and_record, new_MediaRecorder, createOscillator,
    set_oscillator, set_recorder_state, console_log, alert, may_throw, when,
    try_catch, bind, ret, throw, get, modify, audioRef, session_step.
  destruct calls as [|[sus rej srcT cap recT sta nw] calls]; [step_cases|].
  destruct url as [[|ch url]|], rej, srcT, src, cap, recT, sta; step_cases.
Qed.

Lemma stopRecording_step st : session_step st (snd (stopRecording st)).
Proof.
  left. rewrite stopRecording_react. repeat split. left. reflexivity.
Qed.

Lemma handler_step build ev st :
  frame_in_step ev st -> session_step st (snd (handler build ev st st)).
Proof.
  intros Hstep.
  destruct ev as [env| | | |id data|id| |t|now|u|lrc|secs|]; cbn [handler].
  - destruct (_ && _); [|apply session_step_refl].
    destruct (awaits_resume build env st); [|apply startRecording_step].
    open_app st. unfold startRecording_until_await, create_context, bind, modify,
      session_step.
    step_cases.
  - apply startRecording_continue_step.
  - destruct (isRecording (react st)); [apply stopRecording_step|].
    apply session_step_refl.
  - unfold togglePlay, bind, get. cbn [fst snd].
    destruct (isRecording (react st)); [apply stopRecording_step|].
    open_app st. unfold modify, session_step. step_cases.
  - destruct (recorder_state st id); [apply session_step_refl| |];
      open_app st; unfold ondataavailable, when, modify, ret, session_step;
      destruct (0 <? data)%N; step_cases.
  - destruct (recorder_state st id); [apply session_step_refl| |];
      open_app st;
      unfold onstop, set_recorder_state, set_oscillator, bind, get, modify, ret,
        session_step;
      destruct build, osc as [o|]; step_cases.
  - open_app st.
    unfold stopRecording, set_recorder_state, when, bind, ret, get, modify,
      audioRef, recorder_state, session_step.
    cbn [react refs browser mediaRecorderRef recorders audioUrl isRecording].
    destruct url as [[|ch url]|]; try step_cases.
    destruct rec; try step_cases.
    destruct mrec as [id|]; try step_cases.
    cbn -[nth update]. destruct (nth id rs Inactive); step_cases.
  - open_app st. unfold when, modify, ret, audioRef, session_step.
    cbn [react browser audioUrl audioPaused].
    destruct url as [[|ch url]|], paused; step_cases.
  - open_app st. destruct req as [phase' dur' ly'].
    cbn [frame_in_step refs requestRef seen_recordingPhase react recordingPhase] in Hstep.
    subst phase'.
    unfold animate, handleIntroComplete, when, bind, ret, get, modify, audioRef,
      session_step.
    cbn [react refs browser canvasRef recordingPhase audioUrl requestRef
         seen_recordingPhase seen_introDuration seen_lyrics].
    destruct canvas; [|step_cases].
    destruct phase; [| |];
      try destruct (gtb _ _);
      destruct url as [[|ch url]|]; step_cases.
  - open_app st. unfold modify, session_step. step_cases.
  - open_app st. unfold bind, modify, session_step. step_cases.
  - open_app st. unfold modify, session_step. step_cases.
  - open_app st. unfold request_animate, modify, session_step. step_cases.
Qed.

Lemma session_step_flag st st' : session_step st st' -> flag_step st st'.
Proof.
  unfold session_step, flag_step.
  intros [(Hr & Hd & _)|[H|(_ & Hr)]];
    [left; split; assumption|right; left; exact H|right; right; exact Hr].
Qed.

(** A frame leaves the recording flag and the download alone, whatever
    its callback closed over. *)
Lemma animate_flags self now st :
  isRecording (react (snd (animate self now st))) = isRecording (react st) /\
  downloadUrl (react (snd (animate self now st))) = downloadUrl (react st).
Proof.
  open_app st. destruct self as [phase' dur' ly'].
  unfold animate, handleIntroComplete, when, bind, ret, get, modify, audioRef.
  cbn [react refs browser canvasRef recordingPhase audioUrl requestRef
       seen_recordingPhase seen_introDuration seen_lyrics].
  destruct canvas; [|split; reflexivity].
  destruct phase'; [| |];
    try destruct (gtb _ _);
    destruct url as [[|ch url]|]; split; reflexivity.
Qed.

Lemma handler_flag_step build ev st : flag_step st (snd (handler build ev st st)).
Proof.
  destruct ev as [env| | | |id data|id| |t|now|u|lrc|secs|];
    try (apply session_step_flag, handler_step; exact I).
  cbn [handler]. left. apply animate_flags.
Qed.

Lemma flag_step_hides st st' :
  flag_step st st' -> stop_hides_download st -> stop_hides_download st'.
Proof.
  unfold flag_step, stop_hides_download, stop_button_rendered, download_link_rendered.
  intros [(Hr & Hd)|[(Hr & Hd)|Hr]] H.
  - rewrite Hr, Hd. exact H.
  - rewrite Hd. reflexivity.
  - rewrite Hr. discriminate.
Qed.

Lemma stop_hides_download_always build st :
  reachable build st -> stop_hides_download st.
Proof.
  intros H. induction H as [|ev st H IH].
  - discriminate.
  - unfold dispatch.
    assert (Hs : stop_hides_download (snd (handler build ev st st)))
      by (apply (flag_step_hides st); [apply handler_flag_step|exact IH]).
    unfold stop_hides_download, stop_button_rendered, download_link_rendered in *.
    rewrite sync_effect_react_same. exact Hs.
Qed.

Lemma buttons_agree_in_step build st :
  reachable_in_step build st -> buttons_agree st.
Proof.
  intros H. induction H as [|ev st H IH Hstep].
  - split; [intros Hn; exfalso; apply Hn; reflexivity|discriminate].
  - unfold dispatch.
    assert (Hs : buttons_agree (snd (handler build ev st st)))
      by (apply (session_step_agree st); [apply handler_step; exact Hstep|exact IH]).
    unfold buttons_agree, stop_button_rendered, download_link_rendered in *.
    rewrite sync_effect_react_same. exact Hs.
Qed.

(** X26. The buttons and the phase. While the Stop button is shown no
    download is offered, in every state the component can reach, in
    either build. Outside the idle phase the Stop button is shown in
    place of the Record button as long as every frame that runs is of
    the phase the state has. A frame of an earlier phase breaks this: a
    session of the build of [src/index.tsx] that is stopped in its intro
    is idle again, and the frame of the intro, run once more past the
    end of the intro, puts the phase to [recording] and starts the audio
    while the Record button is shown. *)
Theorem buttons_and_phase :
  (forall build st, reachable build st -> stop_hides_download st) /\
  (forall build st, reachable_in_step build st -> buttons_agree st) /\
  (let st := run IndexTsx stale_frame (ready IndexTsx) in
   reachable IndexTsx st /\
   recordingPhase (react st) = recording /\
   stop_button_rendered st = false /\
   record_button_rendered st && negb (record_button_disabled st) = true /\
   isPlaying (react st) = true /\
   audioPaused (browser st) = false).
Proof.
  split; [exact stop_hides_download_always|].
  split; [exact buttons_agree_in_step|].
  split; [apply reachable_run; unfold ready; repeat constructor|].
  vm_compute. repeat split.
Qed.

Lemma buttons_and_phase_witness :
  stop_button_rendered Session.recording_session = true /\
  download_link_rendered Session.recording_session = false /\
  buttons_agree Session.recording_session.
Proof.
  split; [reflexivity|]. split.
  - apply (proj1 buttons_and_phase IndexTsx Session.recording_session); [|reflexivity].
    unfold Session.recording_session, Session.intro_session.
    repeat apply reachable_run. unfold ready. repeat constructor.
  - apply (proj1 (proj2 buttons_and_phase) IndexTsx Session.recording_session).
    unfold Session.recording_session, Session.intro_session, ready, run.
    cbn [fold_left].
    repeat (first [ apply reachable_in_step_init
                  | apply reachable_in_step_step; [|first [exact I|reflexivity]] ]).
Defined.

End ButtonsAgree.

(** ** Wrapping a wrapped line again *)

Section WrapAgain.
Import Js Types Renderer Rewrap.

Variable measureText : jsstring -> number.
Variable maxWidth : number.

Local Abbreviation group_loop := (group_loop measureText maxWidth).
Local Abbreviation wrap_loop := (wrap_loop measureText maxWidth).
Local Abbreviation grown := (grown measureText maxWidth).

Lemma grown_single w : grown [w].
Proof.
  intros h v t E Hh. destruct h as [|x h]; [congruence|].
  destruct h; discriminate E.
Qed.

Lemma grown_snoc g w :
  grown g -> (measureText (join space (g ++ [w])) <? maxWidth)%float = true ->
  grown (g ++ [w]).
Proof.
  intros Hg Hw h v t E Hh.
  destruct t as [|u t].
  - apply app_inj_tail in E. destruct E as [-> ->]. exact Hw.
  - assert (E' : g ++ [w] = (h ++ v :: removelast (u :: t)) ++ [last (u :: t) w]).
    { rewrite E, <- app_assoc. cbn [app]. f_equal. f_equal.
      apply app_removelast_last. discriminate. }
    apply app_inj_tail in E'. destruct E' as [E' _].
    apply (Hg h v (removelast (u :: t)) E' Hh).
Qed.

Lemma group_loop_grown words : forall groups current,
  Forall grown groups -> grown current ->
  Forall grown (group_loop words groups current).
Proof.
  induction words as [|word rest IH]; intros groups current Hg Hc;
    cbn [Renderer.group_loop].
  - apply Forall_app. split; [assumption|]. constructor; [assumption|constructor].
  - destruct (_ <? _)%float eqn:E.
    + apply IH; [assumption|]. apply grown_snoc; assumption.
    + apply IH; [|apply grown_single].
      apply Forall_app. split; [assumption|]. constructor; [assumption|constructor].
Qed.

(** A grown line is wrapped as one line. *)
Lemma wrap_loop_grown rest : forall lines current,
  current <> [] -> grown (current ++ rest) ->
  wrap_loop rest lines (join space current) = lines ++ [join space (current ++ rest)].
Proof.
  induction rest as [|word rest IH]; intros lines current Hc Hg; cbn [Renderer.wrap_loop].
  - rewrite app_nil_r. reflexivity.
  - change (lit " ") with space. rewrite <- (join_snoc current word Hc).
    rewrite (Hg current word rest eq_refl Hc).
    rewrite IH.
    + rewrite <- app_assoc. reflexivity.
    + destruct current; discriminate.
    + rewrite <- app_assoc. exact Hg.
Qed.

(** The words of a joined line are the words that were joined. *)
Lemma split_join (g : list jsstring) :
  g <> [] -> Forall (fun w => ~ In 32%N w) g -> split 32%N (join space g) = g.
Proof.
  induction g as [|w g IH]; intros Hg Hw; [congruence|].
  apply Forall_cons_iff in Hw. destruct Hw as [Hw Hws].
  destruct g as [|v g].
  - simpl join. rewrite split_no_sep by exact Hw. reflexivity.
  - change (join space (w :: v :: g)) with (w ++ 32%N :: join space (v :: g)).
    rewrite split_app_sep by exact Hw. rewrite IH; [reflexivity|discriminate|exact Hws].
Qed.

(** X27. Wrapping is idempotent on its lines: a line that the wrap
    returned is, wrapped again under the same measure and width, that
    one line. *)
Theorem getWrappedLines_idempotent : forall text line,
  In line (getWrappedLines measureText maxWidth text) ->
  getWrappedLines measureText maxWidth line = [line].
Proof.
  intros text line Hin.
  assert (Hgr : exists groups,
            getWrappedLines measureText maxWidth text = map (join space) groups /\
            List.concat groups = split 32%N text /\
            Forall (fun g => g <> []) groups /\ Forall grown groups).
  { unfold getWrappedLines.
    pose proof (split_nonempty 32%N text) as Hn.
    destruct (split 32%N text) as [|first rest]; [congruence|].
    exists (group_loop rest [] [first]). repeat split.
    - apply (wrap_loop_groups measureText maxWidth rest [] [first]). discriminate.
    - rewrite group_loop_concat. reflexivity.
    - apply group_loop_nonempty; [constructor|discriminate].
    - apply group_loop_grown; [constructor|apply grown_single]. }
  destruct Hgr as [groups [Hl [Hc [Hn Hg]]]].
  rewrite Hl in Hin. apply in_map_iff in Hin. destruct Hin as [g [<- Hin]].
  rewrite Forall_forall in Hn, Hg.
  pose proof (Hn g Hin) as Hne. pose proof (Hg g Hin) as Hgrown.
  assert (Hw : Forall (fun w => ~ In 32%N w) g).
  { apply Forall_forall. intros w Hwg. apply (split_pieces 32%N text).
    rewrite <- Hc. apply in_concat. exists g. split; assumption. }
  unfold getWrappedLines. rewrite (split_join g Hne Hw).
  destruct g as [|first rest]; [congruence|].
  change first with (join space [first]) at 1.
  rewrite (wrap_loop_grown rest [] [first]); [reflexivity|discriminate|exact Hgrown].
Qed.

End WrapAgain.

Section WrapAgainExample.
Import Js Types Renderer.

Lemma getWrappedLines_idempotent_witness :
  In (lit "c d") (getWrappedLines ten_per_char 50 (lit "aa bbbbbbbb c d")) /\
  getWrappedLines ten_per_char 50 (lit "c d") = [lit "c d"].
Proof.
  assert (H : In (lit "c d") (getWrappedLines ten_per_char 50 (lit "aa bbbbbbbb c d")))
    by (vm_compute; right; right; left; reflexivity).
  split; [exact H|].
  apply (getWrappedLines_idempotent ten_per_char 50 (lit "aa bbbbbbbb c d") (lit "c d") H).
Defined.

End WrapAgainExample.

(** ** Multiplying by 1 *)

Section TimesOne.
Import Js Binary64 Integers NumberFacts.
Local Open Scope Z_scope.

(** A canonical mantissa followed by [n] zeros loses the zeros. *)
Lemma shr_fexp_canonical m e k n :
  0 <= n -> canonical k (e + n) ->
  Zpos m = Zpos k * 2 ^ n ->
  shr_fexp prec emax (Zpos m) e loc_Exact
  = ({| shr_m := Zpos k; shr_r := false; shr_s := false |}, e + n).
Proof.
  intros Hn Hc Hm. unfold shr_fexp, shr. rewrite Zdigits2_digits.
  rewrite Hm, digits_mul_pow2 by lia.
  unfold canonical, canonical_mantissa in Hc. apply Z.eqb_eq in Hc.
  rewrite digits2_log2 in Hc. fold (digits (Zpos k)) in Hc.
  replace (digits (Z.pos k) + n + e) with (digits (Z.pos k) + (e + n)) by lia.
  rewrite Hc.
  replace (e + n - e) with n by lia.
  cbn [shr_record_of_loc].
  destruct n as [|p|p]; try lia.
  - rewrite Z.pow_0_r, Z.mul_1_r. f_equal. lia.
  - rewrite iter_pos_nat.
    replace (Z.pos p) with (Z.of_nat (Pos.to_nat p)) at 1 by apply positive_nat_Z.
    rewrite iter_shr_1_exact by lia. reflexivity.
Qed.

Lemma binary_round_aux_canonical s m e k n :
  0 <= n -> canonical k (e + n) -> e + n <= emax - prec ->
  Zpos m = Zpos k * 2 ^ n ->
  binary_round_aux prec emax s (Zpos m) e loc_Exact = S754_finite s k (e + n).
Proof.
  intros Hn Hc Hmax Hm. unfold binary_round_aux.
  rewrite (shr_fexp_canonical m e k n Hn Hc Hm).
  cbn [shr_m loc_of_shr_record round_nearest_even].
  rewrite (shr_fexp_canonical k (e + n) k 0); try lia.
  - cbn [shr_m]. rewrite Z.add_0_r.
    destruct (Z.leb_spec (e + n) (emax - prec)); [reflexivity|lia].
  - rewrite Z.add_0_r. exact Hc.
Qed.

Local Open Scope float_scope.

(** Multiplying by 1 changes no number. *)
Lemma mul_one x : x * 1 = x.
Proof.
  apply Prim2SF_inj. rewrite mul_spec. unfold SF64mul.
  pose proof (Prim2SF_valid x) as Vx.
  change (Prim2SF 1) with (S754_finite false 4503599627370496 (-52)).
  destruct (Prim2SF x) as [sx|sx| |sx mx ex]; try (destruct sx; reflexivity);
    try reflexivity.
  unfold valid_binary in Vx. simpl in Vx. unfold bounded in Vx.
  apply andb_prop in Vx. destruct Vx as [Cx Bx]. apply Z.leb_le in Bx.
  unfold SFmul. rewrite xorb_false_r.
  rewrite (binary_round_aux_canonical sx (mx * 4503599627370496) (ex + -52) mx 52).
  - f_equal. lia.
  - lia.
  - replace (ex + -52 + 52)%Z with ex by lia. exact Cx.
  - lia.
  - rewrite Pos2Z.inj_mul. reflexivity.
Qed.

End TimesOne.

(** ** The two copies of the renderer *)

Section CopiesAgree.
Import Js Lrc Types Renderer Canvas2D Frame FrameLocal Copies.

Variable Math_sin Math_cos : number -> number.
Variable measureText : Value -> jsstring -> number.

Local Abbreviation renderFrame := (renderFrame Math_sin Math_cos measureText).
Local Abbreviation draw_line := (draw_line Math_cos measureText).
Local Abbreviation lines_loop := (lines_loop Math_cos measureText).

Ltac crunch :=
  cbv [Frame.draw_background Frame.draw_backdrop Frame.draw_art Frame.drawRoundedImage
       Frame.drawBokeh Frame.draw_particle Frame.draw_bokeh_layer
       clearRect fillRect drawImage fill stroke fillText draw assign save restore
       beginPath roundRect closePath arc add_shape do_clip translate scale
       transform_of clip_of set_attr fresh blank onto view kept for_lines css
       Attr_eqb bearing compositing map combine lookup fold_left option_map
       state stack path drawn];
  rewrite <- ?app_assoc;
  cbn [app].

Lemma line_style_one settings smooth i :
  line_style settings (Some 1%float) smooth i = line_style settings None smooth i.
Proof. unfold line_style. rewrite !mul_one. reflexivity. Qed.

Lemma draw_line_copy p c i :
  lyricsOpacity p = Some 1%float ->
  draw_line (without_fades p) c i = draw_line p c i.
Proof.
  intros Hl. unfold Frame.draw_line, without_fades.
  cbn [lyrics settings smoothActiveIndex lyricsOpacity width height].
  rewrite Hl, line_style_one. reflexivity.
Qed.

Lemma lines_loop_copy p todo : forall c,
  lyricsOpacity p = Some 1%float ->
  lines_loop (without_fades p) todo c = lines_loop p todo c.
Proof.
  induction todo as [|i todo IH]; intros c Hl; cbn [Frame.lines_loop]; [reflexivity|].
  rewrite (draw_line_copy p c i Hl).
  destruct (draw_line p c i) as [c1|]; [apply IH; exact Hl|reflexivity].
Qed.

(** Steps 1 to 5 are the same in the two copies. *)
Lemma backdrop_copy p c :
  draw_art (without_fades p)
    (draw_bokeh_layer Math_sin Math_cos (without_fades p) true
       (draw_backdrop (without_fades p) (draw_background (without_fades p) c)))
  = draw_art p
      (draw_bokeh_layer Math_sin Math_cos p false
         (draw_backdrop p (draw_background p c))).
Proof.
  destruct c as [st sk pa dr].
  unfold Frame.draw_art, Frame.draw_bokeh_layer, Frame.draw_backdrop, Frame.drawBokeh,
    Frame.drawRoundedImage, without_fades.
  cbn [image settings width height absoluteTime].
  change (Bokeh.indices 0 Bokeh.particleCount)
    with [0; 1; 2; 3; 4; 5; 6; 7; 8; 9; 10; 11; 12; 13; 14]%Z.
  unfold Frame.draw_particle. cbn [andb].
  destruct (image p) as [img|];
    destruct (bokehEnabled (settings p));
    try destruct (bokehAutoColor (settings p));
    try destruct (gtb (img_width img / img_height img) _);
    crunch; reflexivity.
Qed.

(** The alpha of the context is that of before steps 1 to 5. *)
Lemma backdrop_alpha p c :
  state (draw_art p
           (draw_bokeh_layer Math_sin Math_cos p false
              (draw_backdrop p (draw_background p c)))) globalAlpha
  = state c globalAlpha.
Proof.
  assert (L : step_local (fun c =>
            Some (draw_art p
                    (draw_bokeh_layer Math_sin Math_cos p false
                       (draw_backdrop p (draw_background p c)))))).
  { apply (step_local_then (draw_background p)
             (fun c => Some (draw_art p
                               (draw_bokeh_layer Math_sin Math_cos p false
                                  (draw_backdrop p c)))));
      [apply draw_background_local|].
    apply (step_local_then (draw_backdrop p)
             (fun c => Some (draw_art p (draw_bokeh_layer Math_sin Math_cos p false c))));
      [apply draw_backdrop_local|].
    apply (step_local_then (draw_bokeh_layer Math_sin Math_cos p false)
             (fun c => Some (draw_art p c)));
      [apply draw_bokeh_layer_local|apply draw_art_local]. }
  destruct (L c) as (_ & Hv & _).
  apply (ext_in_map Hv). left. reflexivity.
Qed.

Lemma draw_title_copy p c :
  titleOpacity p = Some 1%float -> state c globalAlpha = Number 1 ->
  draw_title measureText (without_fades p) c = draw_title measureText p c.
Proof.
  intros Ht Ha. destruct c as [st sk pa dr]. cbn [state] in Ha.
  unfold Frame.draw_title, without_fades. cbv zeta.
  cbn [titleOpacity settings width height]. rewrite Ht.
  unfold wrapped, fillText.
  rewrite !(forEach_draws (fun (line : jsstring) (idx : Z) =>
              FillText line _ _)).
  crunch. f_equal. f_equal.
  apply draws_ext. intros x i. cbv [bearing compositing].
  repeat constructor. exact Ha.
Qed.

(** X28. The two copies of the renderer agree outside the fades: where
    the title, in the intro, or the lyrics, after it, are at full
    opacity, on a context whose alpha is 1, the frame of
    [src/unnamed/part_000] is the frame of [src/index.tsx]. *)
Theorem copies_agree : forall p c,
  (isIntro p = true -> titleOpacity p = Some 1%float) ->
  (isIntro p = false -> lyricsOpacity p = Some 1%float) ->
  state c globalAlpha = Number 1 ->
  renderFrame (without_fades p) true c = renderFrame p false c.
Proof.
  intros p c Ht Hl Ha. unfold Frame.renderFrame.
  rewrite backdrop_copy.
  change (isIntro (without_fades p)) with (isIntro p).
  destruct (isIntro p).
  - f_equal. apply draw_title_copy; [exact (Ht eq_refl)|].
    rewrite backdrop_alpha. exact Ha.
  - unfold Frame.draw_lyrics. cbv zeta.
    change (visited (without_fades p)) with (visited p).
    apply lines_loop_copy. exact (Hl eq_refl).
Qed.

End CopiesAgree.

Section CopiesExample.
Import Js Lrc Types Renderer Canvas2D Frame FrameLocal Copies.

Local Abbreviation renderFrame := (renderFrame Bokeh.flat_wave Bokeh.flat_wave ten_wide).

Lemma copies_agree_witness :
  renderFrame (without_fades lyric_frame) true new_context
  = renderFrame lyric_frame false new_context /\
  renderFrame (without_fades intro_frame) true new_context
  = renderFrame intro_frame false new_context.
Proof.
  split.
  - apply (copies_agree Bokeh.flat_wave Bokeh.flat_wave ten_wide lyric_frame new_context);
      [discriminate|reflexivity|reflexivity].
  - apply (copies_agree Bokeh.flat_wave Bokeh.flat_wave ten_wide intro_frame
             new_context);
      [reflexivity|discriminate|reflexivity].
Defined.

End CopiesExample.
